(** * ntm: session coordinator -- output extractor, state detector,
      assignment scorer, secret redaction and persisted session state.

    A shallow embedding of the Go sources

      - internal/pipeline/pipeline.go        (extractNewOutput)
      - internal/cli (determineAgentState)
      - internal/coordinator/assign.go       (findBestMatch, AssignWork,
                                              ScoreAndSelectAssignments, ...)
      - internal/safety/redaction/redaction.go
      - internal/agentmail/session.go

    Go strings are byte sequences: they are modelled as [list ascii], and
    [len] is the byte length.  Go [int] indices are modelled in [Z]; a slice
    expression whose bounds are out of range panics, which the model makes
    explicit in the [outcome] type.  [float64] is Rocq's primitive binary64
    float. *)

From Stdlib Require Import ZArith Lia Ascii String.
From Stdlib Require Import Floats.PrimFloat Uint63.
From Stdlib Require Floats.Floats.
From stdpp Require Import base list strings gmap.

#[global] Set Warnings "-inexact-float".


Local Open Scope Z_scope.

(* ===================================================================== *)
(** * Part I -- the model *)
(* ===================================================================== *)

(** ** Outcomes of a Go function: a value, or a run-time panic.  Loops that
       the model runs on fuel can also report that the fuel ran out; the
       theorems of Part II show that this never happens. *)

Inductive outcome (A : Type) : Type :=
| Returns (a : A)
| Panics
| OutOfFuel.
Arguments Returns {A} a.
Arguments Panics {A}.
Arguments OutOfFuel {A}.

Definition obind {A B : Type} (m : outcome A) (k : A -> outcome B) : outcome B :=
  match m with
  | Returns a => k a
  | Panics => Panics
  | OutOfFuel => OutOfFuel
  end.

Notation "'let*' x ':=' m 'in' k" := (obind m (fun x => k))
  (at level 10, x name, m at level 100, k at level 200).

(** ** The fragment of Go's [strings] package and of the slice expressions
       that the sources use. *)

Module GoStrings.

Abbreviation str := (list ascii).

(** [len(s)] *)
Definition len (s : str) : Z := Z.of_nat (length s).

(** [s == t] *)
Definition streq (s t : str) : bool := bool_decide (s = t).

(** [s[lo:hi]]; panics unless [0 <= lo <= hi <= len(s)]. *)
Definition slice (s : str) (lo hi : Z) : outcome str :=
  if (0 <=? lo) && (lo <=? hi) && (hi <=? len s)
  then Returns (take (Z.to_nat (hi - lo)) (drop (Z.to_nat lo) s))
  else Panics.

(** [s[lo:]] *)
Definition slice_from (s : str) (lo : Z) : outcome str := slice s lo (len s).

(** [s[:hi]] *)
Definition slice_to (s : str) (hi : Z) : outcome str := slice s 0 hi.

(** A string literal of the source, and the line feed ["\n"]. *)
Definition lit (s : string) : str := list_ascii_of_string s.
Definition LF : ascii := ascii_of_nat 10.

(** [strings.HasPrefix(s, prefix)] *)
Fixpoint HasPrefix (s prefix : str) : bool :=
  match prefix, s with
  | [], _ => true
  | _ :: _, [] => false
  | p :: prefix', c :: s' => Ascii.eqb c p && HasPrefix s' prefix'
  end.

(** [strings.HasSuffix(s, suffix)] *)
Definition HasSuffix (s suffix : str) : bool :=
  HasPrefix (rev s) (rev suffix).

(** [strings.Index(s, substr)]: the index of the first occurrence of
    [substr] in [s], or -1. *)
Fixpoint Index (s substr : str) : Z :=
  if HasPrefix s substr then 0
  else match s with
       | [] => -1
       | _ :: s' => let i := Index s' substr in
                    if i =? -1 then -1 else i + 1
       end.

(** [strings.Contains(s, substr)] *)
Definition Contains (s substr : str) : bool := 0 <=? Index s substr.

(** [strings.Split(s, sep)] for a one-byte separator, which is how the
    source calls it ([sep = "\n"]): the pieces between the separators, one
    more than there are separators. *)
Fixpoint SplitByte (s : str) (sep : ascii) : list str :=
  match s with
  | [] => [[]]
  | c :: s' =>
      if Ascii.eqb c sep then [] :: SplitByte s' sep
      else match SplitByte s' sep with
           | [] => [[c]]
           | piece :: pieces => (c :: piece) :: pieces
           end
  end.

End GoStrings.

(** ** internal/pipeline/pipeline.go *)

Module Pipeline.
Import GoStrings.

Definition chunkSize : Z := 40.

(** The [for { ... }] loop of [extractNewOutput] over the occurrences of
    [searchChunk] in [remaining].  [Returns (Some r)]: the function returns
    [r] from inside the loop; [Returns None]: the loop was left by [break]. *)
Fixpoint scanLoop (fuel : nat) (before after searchChunk : str)
         (scanStart : Z) (remaining : str) (offset : Z)
  : outcome (option str) :=
  match fuel with
  | O => OutOfFuel
  | S fuel' =>
    let idx := Index remaining searchChunk in
    if idx =? -1 then Returns None
    else
      let absIdx := scanStart + offset + idx in
      let suffixLen := len before - absIdx in
      let* hit := (if len after >=? suffixLen
              then let* p := slice_to after suffixLen in
                   let* q := slice_from before absIdx in
                   Returns (streq p q)
              else Returns false) in
      if (hit : bool) then
        let* r := slice_from after suffixLen in Returns (Some r)
      else
        let step := idx + 1 in
        let* remaining' := slice_from remaining step in
        scanLoop fuel' before after searchChunk scanStart remaining'
                 (offset + step)
  end.

(** [for k := chunkSize - 1; k > 0; k-- { ... }] *)
Fixpoint fallbackLoop (before after : str) (k : nat) : outcome (option str) :=
  match k with
  | O => Returns None
  | S k' =>
    let* b := slice_from before (len before - Z.of_nat k) in
    let* a := slice_to after (Z.of_nat k) in
    if streq b a then
      let* r := slice_from after (Z.of_nat k) in Returns (Some r)
    else fallbackLoop before after k'
  end.

Definition extractNewOutput (before after : str) : outcome str :=
  if streq before [] then Returns after
  else if streq after [] then Returns []
  else
    let* fast := (if len after >=? len before
             then let* p := slice_to after (len before) in
                  Returns (streq p before)
             else Returns false) in
    if (fast : bool) then slice_from after (len before)
    else
      let* searchChunk := (if len after >=? chunkSize
                      then slice_to after chunkSize
                      else Returns after) in
      let scanStart :=
        let d := len before - len after in if d <? 0 then 0 else d in
      let* searchRegion := slice_from before scanStart in
      let* found := scanLoop (S (length searchRegion)) before after searchChunk
                        scanStart searchRegion 0 in
      match found with
      | Some r => Returns r
      | None =>
        let* found' := (if len after >? chunkSize
                   then fallbackLoop before after (Z.to_nat (chunkSize - 1))
                   else Returns None) in
        match found' with
        | Some r => Returns r
        | None => Returns after
        end
      end.

(** The contract of the extractor as the specification words it: the
    longest suffix of [before] that is a prefix of [after] is cut off
    [after].  [overlapAt k] says that the last [k] bytes of [before] are
    the first [k] bytes of [after]. *)
Definition overlapAt (before after : str) (k : nat) : bool :=
  bool_decide (k <= length before)%nat && bool_decide (k <= length after)%nat &&
  streq (drop (length before - k)%nat before) (take k after).

Fixpoint longestOverlapFrom (before after : str) (k : nat) : nat :=
  match k with
  | O => O
  | S k' => if overlapAt before after k then k
            else longestOverlapFrom before after k'
  end.

Definition longestOverlap (before after : str) : nat :=
  longestOverlapFrom before after (Nat.min (length before) (length after)).

Definition extract_spec (before after : str) : str :=
  drop (longestOverlap before after) after.

End Pipeline.

(** ** internal/cli: determineAgentState *)

Module Detector.
Import GoStrings.

(** The white space that [strings.TrimSpace] removes from ASCII text: tab,
    line feed, vertical tab, form feed, carriage return and space.  (Go also
    removes the non-ASCII Unicode spaces; bytes above 127 are kept here.) *)
Definition isSpace (c : ascii) : bool :=
  let n := nat_of_ascii c in
  ((9 <=? n) && (n <=? 13))%nat || (n =? 32)%nat.

Fixpoint TrimLeft (s : str) : str :=
  match s with
  | [] => []
  | c :: s' => if isSpace c then TrimLeft s' else s
  end.

(** [strings.TrimSpace(s)] *)
Definition TrimSpace (s : str) : str := rev (TrimLeft (rev (TrimLeft s))).

Definition idlePatterns : list str :=
  [ lit "$"; lit ">"; lit ">>> "; lit "claude>"; lit "codex>"; lit "gemini>";
    lit "What would you like"; lit "How can I help";
    lit "Ready for"; lit "Waiting for" ].

(** [determineAgentState(scrollback, agentType)].  The last element of
    [lines] always exists, [strings.Split] returning at least one piece. *)
Definition determineAgentState (scrollback agentType : str) : string :=
  let lines := SplitByte scrollback LF in
  if (length lines =? 0)%nat then "unknown"%string
  else
    let lastLine := TrimSpace (List.last lines []) in
    if existsb (fun p => HasSuffix lastLine p || Contains lastLine p) idlePatterns
    then "idle"%string
    else "working"%string.

End Detector.

(** ** internal/coordinator/assign.go *)

Module Coordinator.
Local Open Scope string_scope.

(** [bv.ScoreBreakdown], [bv.TriageRecommendation]: the fields that
    assign.go reads (the [bv] package itself lies outside these sources). *)
Record ScoreBreakdown : Type := mkScoreBreakdown {
  Pagerank : float;
  BlockerRatio : float;
  TimeToImpact : float
}.

Record TriageRecommendation : Type := mkRec {
  ID : string;
  Title : string;
  Type_ : string;
  Status : string;
  Priority : Z;
  Score : float;
  Breakdown : option ScoreBreakdown;   (* a nil pointer is [None] *)
  UnblocksIDs : list string;
  Reasons : list string
}.

Record ScoreConfig : Type := mkScoreConfig {
  PreferCriticalPath : bool;
  PenalizeFileOverlap : bool;
  UseAgentProfiles : bool;
  BudgetAware : bool;
  ContextThreshold : float;
  ProfileTagBoostWeight : float;
  FocusPatternBoostWeight : float
}.

Definition DefaultScoreConfig : ScoreConfig :=
  {| PreferCriticalPath := true;
     PenalizeFileOverlap := true;
     UseAgentProfiles := true;
     BudgetAware := true;
     ContextThreshold := 80%float;
     ProfileTagBoostWeight := 0%float;
     FocusPatternBoostWeight := 0%float |}.

Record AssignmentScoreBreakdown : Type := mkBreakdown {
  BaseScore : float;
  AgentTypeBonus : float;
  CriticalPathBonus : float;
  FileOverlapPenalty : float;
  ContextPenalty : float;
  ProfileTagBonus : float;
  FocusPatternBonus : float
}.

(** [WorkAssignment]; the [AssignedAt: time.Now()] stamp and the never
    assigned [FilesToReserve] are left out. *)
Record WorkAssignment : Type := mkWorkAssignment {
  BeadID : string;
  BeadTitle : string;
  AgentPaneID : string;
  AgentMailName : string;
  AgentType : string;
  WPriority : Z;
  WScore : float
}.

Record AssignmentResult : Type := mkResult {
  Success : bool;
  RAssignment : WorkAssignment;
  Error : string;
  MessageSent : bool
}.

Section WithPersona.

(** [persona.Persona] is declared outside these sources, and the two
    profile bonuses go through Go's [strings.ToLower], [strings.Fields] and
    [filepath.Match]: the bonus that [scoreAssignment] obtains from
    [computeProfileTagBonus(agent.Profile, ExtractTaskTags(rec.Title, ""), w)]
    and from
    [computeFocusPatternBonus(agent.Profile, ExtractMentionedFiles(rec.Title, ""), w)]
    is a parameter of the model, as a function of profile, title and weight. *)
Variable Persona : Type.
Variable profileTagBonus : Persona -> string -> float -> float.
Variable focusPatternBonus : Persona -> string -> float -> float.

(** [AgentState]: the fields that assign.go reads.  The agents reach the
    functions below through pointers, none of which is nil. *)
Record AgentState : Type := mkAgent {
  PaneID : string;
  AAgentType : string;
  AMailName : string;
  ContextUsage : float;
  Reservations : list string;
  Profile : option Persona              (* a nil pointer is [None] *)
}.

Record ScoredAssignment : Type := mkScored {
  Assignment : WorkAssignment;
  Recommendation : TriageRecommendation;
  Agent : AgentState;
  TotalScore : float;
  SBreakdown : AssignmentScoreBreakdown
}.

(** *** findBestMatch and AssignWork *)

Definition findBestMatch (agent : AgentState)
           (recommendations : list TriageRecommendation)
  : option (WorkAssignment * TriageRecommendation) :=
  let fix loop (recs : list TriageRecommendation) :=
    match recs with
    | [] => None
    | rec :: recs' =>
        if String.eqb (Status rec) "blocked" then loop recs'
        else
          let assignment :=
            {| BeadID := ID rec;
               BeadTitle := Title rec;
               AgentPaneID := PaneID agent;
               AgentMailName := "";
               AgentType := AAgentType agent;
               WPriority := Priority rec;
               WScore := Score rec |} in
          let assignment :=
            if negb (String.eqb (AMailName agent) "")
            then {| BeadID := BeadID assignment;
                    BeadTitle := BeadTitle assignment;
                    AgentPaneID := AgentPaneID assignment;
                    AgentMailName := AMailName agent;
                    AgentType := AgentType assignment;
                    WPriority := WPriority assignment;
                    WScore := WScore assignment |}
            else assignment in
          Some (assignment, rec)
    end in
  loop recommendations.

(** [c.mailClient]: [None] is the nil client; otherwise [SendMessage] on the
    message that [formatAssignmentMessage] builds from the assignment and
    the recommendation, which answers [None] on success and [Some err] with
    the error text. *)
Definition MailClient : Type :=
  WorkAssignment -> TriageRecommendation -> option string.

Definition attemptAssignment (mailClient : option MailClient)
           (assignment : WorkAssignment) (rec : TriageRecommendation)
  : AssignmentResult :=
  let result := {| Success := false; RAssignment := assignment;
                   Error := ""; MessageSent := false |} in
  match mailClient with
  | Some send =>
      if negb (String.eqb (AgentMailName assignment) "") then
        match send assignment rec with
        | Some err =>
            {| Success := false; RAssignment := assignment;
               Error := "sending message: " ++ err; MessageSent := false |}
        | None =>
            {| Success := true; RAssignment := assignment;
               Error := ""; MessageSent := true |}
        end
      else {| Success := true; RAssignment := assignment;
              Error := ""; MessageSent := false |}
  | None => {| Success := true; RAssignment := assignment;
               Error := ""; MessageSent := false |}
  end.

Definition removeRecommendation (recs : list TriageRecommendation) (id : string)
  : list TriageRecommendation :=
  List.filter (fun r => negb (String.eqb (ID r) id)) recs.

(** The loop of [AssignWork] over the idle agents; its state is the
    recommendation list, which shrinks with every successful assignment, and
    the results appended so far.  (The event that a successful assignment
    offers to [c.events] does not bear on the results and is left out.) *)
Fixpoint assignLoop (mailClient : option MailClient)
         (idleAgents : list AgentState)
         (recommendations : list TriageRecommendation)
         (results : list AssignmentResult) : list AssignmentResult :=
  match idleAgents with
  | [] => results
  | agent :: rest =>
      if (length recommendations =? 0)%nat then results
      else
        match findBestMatch agent recommendations with
        | None => assignLoop mailClient rest recommendations results
        | Some (assignment, rec) =>
            let result := attemptAssignment mailClient assignment rec in
            let results := (results ++ [result])%list in
            if Success result
            then assignLoop mailClient rest
                            (removeRecommendation recommendations (ID rec))
                            results
            else assignLoop mailClient rest recommendations results
        end
  end.

(** What [bv.GetTriage] gave: an error, a nil response, or the
    recommendations of the response. *)
Inductive TriageAnswer : Type :=
| TriageError (err : string)
| TriageNil
| TriageOk (recommendations : list TriageRecommendation).

(** [AssignWork]: [inl results] or [inr err]; the nil slice is the empty
    list. *)
Definition AssignWork (autoAssign : bool) (mailClient : option MailClient)
           (idleAgents : list AgentState) (triage : TriageAnswer)
  : list AssignmentResult + string :=
  if negb autoAssign then inl []
  else if (length idleAgents =? 0)%nat then inl []
  else match triage with
       | TriageError err => inr ("getting triage: " ++ err)
       | TriageNil => inl []
       | TriageOk recommendations =>
           if (length recommendations =? 0)%nat then inl []
           else inl (assignLoop mailClient idleAgents recommendations [])
       end.

(** *** Scoring.  [float64] arithmetic is IEEE 754 binary64, every operation
        rounded on its own (no fused multiply-add); a decimal constant
        stands for the nearest binary64 value, as in Go. *)

#[local] Set Warnings "-inexact-float".

Definition estimateTaskComplexity (rec : TriageRecommendation) : float :=
  let complexity := 0.5%float in
  let complexity :=
    if String.eqb (Type_ rec) "epic" then (complexity + 0.3)%float
    else if String.eqb (Type_ rec) "feature" then (complexity + 0.2)%float
    else if String.eqb (Type_ rec) "bug" then (complexity + 0.0)%float
    else if String.eqb (Type_ rec) "task" then (complexity - 0.1)%float
    else if String.eqb (Type_ rec) "chore" then (complexity - 0.2)%float
    else complexity in
  let complexity :=
    if (Priority rec =? 0)%Z then (complexity - 0.1)%float
    else if (Priority rec >=? 3)%Z then (complexity + 0.1)%float
    else complexity in
  let complexity :=
    if (5 <=? length (UnblocksIDs rec))%nat then (complexity + 0.15)%float
    else if (3 <=? length (UnblocksIDs rec))%nat then (complexity + 0.1)%float
    else complexity in
  if (complexity <? 0)%float then 0%float
  else if (1 <? complexity)%float then 1%float
  else complexity.

Definition computeAgentTypeBonus (agentType : string) (rec : TriageRecommendation)
  : float :=
  let taskComplexity := estimateTaskComplexity rec in
  if String.eqb agentType "cc" || String.eqb agentType "claude" then
    if (0.7 <=? taskComplexity)%float then 0.15%float
    else if (taskComplexity <=? 0.3)%float then (-0.05)%float
    else 0%float
  else if String.eqb agentType "cod" || String.eqb agentType "codex" then
    if (taskComplexity <=? 0.3)%float then 0.15%float
    else if (0.7 <=? taskComplexity)%float then (-0.1)%float
    else 0%float
  else if String.eqb agentType "gmi" || String.eqb agentType "gemini" then
    if (0.4 <=? taskComplexity)%float && (taskComplexity <=? 0.6)%float
    then 0.05%float
    else 0%float
  else 0%float.

Definition computeCriticalPathBonus (breakdown : ScoreBreakdown) : float :=
  let bonus := 0.0%float in
  let bonus :=
    if (0.05 <? Pagerank breakdown)%float
    then (bonus + Pagerank breakdown * 2)%float else bonus in
  let bonus :=
    if (0.05 <? BlockerRatio breakdown)%float
    then (bonus + BlockerRatio breakdown * 1.5)%float else bonus in
  let bonus :=
    if (0.04 <? TimeToImpact breakdown)%float
    then (bonus + 0.05)%float else bonus in
  bonus.

(** [reservations] is a Go [map[string][]string]; the nil map is [∅], and a
    missing key reads as the nil slice. *)
Definition computeFileOverlapPenalty (agent : AgentState)
           (reservations : gmap string (list string)) : float :=
  let agentReservations := default [] (reservations !! PaneID agent) in
  let agentReservations :=
    if (length agentReservations =? 0)%nat then Reservations agent
    else agentReservations in
  let count := length agentReservations in
  if (count =? 0)%nat then 0%float
  else if (count <=? 2)%nat then 0.05%float
  else if (count <=? 5)%nat then 0.1%float
  else 0.2%float.

Definition computeContextPenalty (contextUsage threshold : float) : float :=
  if (contextUsage <=? threshold)%float then 0%float
  else
    let excess := (contextUsage - threshold)%float in
    (excess / 100 * 0.5)%float.

Definition scoreAssignment (agent : AgentState) (rec : TriageRecommendation)
           (config : ScoreConfig)
           (existingReservations : gmap string (list string))
  : ScoredAssignment :=
  let agentTypeBonus :=
    if UseAgentProfiles config
    then computeAgentTypeBonus (AAgentType agent) rec else 0%float in
  let '(profileTag, focusPattern) :=
    match UseAgentProfiles config, Profile agent with
    | true, Some profile =>
        let tagWeight := ProfileTagBoostWeight config in
        let tagWeight :=
          if (tagWeight =? 0)%float then 0.15%float else tagWeight in
        let patternWeight := FocusPatternBoostWeight config in
        let patternWeight :=
          if (patternWeight =? 0)%float then 0.10%float else patternWeight in
        (profileTagBonus profile (Title rec) tagWeight,
         focusPatternBonus profile (Title rec) patternWeight)
    | _, _ => (0%float, 0%float)
    end in
  let criticalPathBonus :=
    match PreferCriticalPath config, Breakdown rec with
    | true, Some b => computeCriticalPathBonus b
    | _, _ => 0%float
    end in
  let fileOverlapPenalty :=
    if PenalizeFileOverlap config
    then computeFileOverlapPenalty agent existingReservations else 0%float in
  let contextPenalty :=
    if BudgetAware config then
      let threshold := ContextThreshold config in
      let threshold := if (threshold =? 0)%float then 80%float else threshold in
      computeContextPenalty (ContextUsage agent) threshold
    else 0%float in
  let breakdown :=
    {| BaseScore := Score rec;
       AgentTypeBonus := agentTypeBonus;
       CriticalPathBonus := criticalPathBonus;
       FileOverlapPenalty := fileOverlapPenalty;
       ContextPenalty := contextPenalty;
       ProfileTagBonus := profileTag;
       FocusPatternBonus := focusPattern |} in
  let totalScore :=
    (BaseScore breakdown + AgentTypeBonus breakdown
     + CriticalPathBonus breakdown + ProfileTagBonus breakdown
     + FocusPatternBonus breakdown - FileOverlapPenalty breakdown
     - ContextPenalty breakdown)%float in
  {| Assignment :=
       {| BeadID := ID rec;
          BeadTitle := Title rec;
          AgentPaneID := PaneID agent;
          AgentMailName := AMailName agent;
          AgentType := AAgentType agent;
          WPriority := Priority rec;
          WScore := totalScore |};
     Recommendation := rec;
     Agent := agent;
     TotalScore := totalScore;
     SBreakdown := breakdown |}.

(** *** Sorting and selection *)

(** The body of the inner loop of [sortScoredAssignments]: exchange
    [candidates[i]] and [candidates[j]] when the latter scores higher. *)
Definition exchange (candidates : list ScoredAssignment) (i j : nat)
  : list ScoredAssignment :=
  match candidates !! i, candidates !! j with
  | Some ci, Some cj =>
      if (TotalScore ci <? TotalScore cj)%float
      then <[j := ci]> (<[i := cj]> candidates)
      else candidates
  | _, _ => candidates
  end.

(** [for i := 0; i < len-1; i++ { for j := i+1; j < len; j++ { ... } }] *)
Definition sortScoredAssignments (candidates : list ScoredAssignment)
  : list ScoredAssignment :=
  let n := length candidates in
  foldl (fun c i => foldl (fun c j => exchange c i j) c (seq (S i) (n - S i)))
        candidates (seq 0 (n - 1)).

(** The candidates of one agent, in the order of the recommendations. *)
Definition candidatesOf (config : ScoreConfig)
           (existingReservations : gmap string (list string))
           (recommendations : list TriageRecommendation) (agent : AgentState)
  : list ScoredAssignment :=
  foldl (fun candidates rec =>
           if String.eqb (Status rec) "blocked" then candidates
           else
             let scored := scoreAssignment agent rec config existingReservations in
             if (0 <? TotalScore scored)%float
             then (candidates ++ [scored])%list else candidates)
        [] recommendations.

(** The selection loop; [assignedAgents] and [assignedTasks] are Go
    [map[string]bool], a missing key reading as [false]. *)
Definition selectStep
           (st : list ScoredAssignment * gmap string bool * gmap string bool)
           (candidate : ScoredAssignment)
  : list ScoredAssignment * gmap string bool * gmap string bool :=
  let '(selected, assignedAgents, assignedTasks) := st in
  let agentID := PaneID (Agent candidate) in
  let taskID := ID (Recommendation candidate) in
  if default false (assignedAgents !! agentID)
     || default false (assignedTasks !! taskID)
  then st
  else ((selected ++ [candidate])%list,
        <[agentID := true]> assignedAgents,
        <[taskID := true]> assignedTasks).

(** [ScoreAndSelectAssignments]; [triage] is [None] for the nil pointer and
    otherwise carries [triage.Triage.Recommendations]; the nil result is the
    empty list. *)
Definition ScoreAndSelectAssignments (idleAgents : list AgentState)
           (triage : option (list TriageRecommendation))
           (config : ScoreConfig)
           (existingReservations : gmap string (list string))
  : list ScoredAssignment :=
  match triage with
  | None => []
  | Some recommendations =>
      if (length idleAgents =? 0)%nat || (length recommendations =? 0)%nat
      then []
      else
        let candidates :=
          foldl (fun candidates agent =>
                   (candidates ++
                    candidatesOf config existingReservations recommendations agent)%list)
                [] idleAgents in
        let candidates := sortScoredAssignments candidates in
        let '(selected, _, _) :=
          foldl selectStep ([], ∅, ∅) candidates in
        selected
  end.

End WithPersona.

Arguments mkAgent {Persona}.
Arguments PaneID {Persona}.
Arguments AAgentType {Persona}.
Arguments AMailName {Persona}.
Arguments ContextUsage {Persona}.
Arguments Reservations {Persona}.
Arguments Profile {Persona}.
Arguments mkScored {Persona}.
Arguments Assignment {Persona}.
Arguments Recommendation {Persona}.
Arguments Agent {Persona}.
Arguments TotalScore {Persona}.
Arguments SBreakdown {Persona}.
Arguments findBestMatch {Persona}.
Arguments assignLoop {Persona}.
Arguments AssignWork {Persona}.
Arguments computeFileOverlapPenalty {Persona}.
Arguments scoreAssignment {Persona}.
Arguments exchange {Persona}.
Arguments sortScoredAssignments {Persona}.
Arguments candidatesOf {Persona}.
Arguments selectStep {Persona}.
Arguments ScoreAndSelectAssignments {Persona}.

End Coordinator.

(** ** crypto/sha256 and encoding/hex, as far as redaction.go uses them:
       SHA-256 (FIPS 180-4) over bytes, 32-bit words as [Z] with the
       wrap-around written out. *)

Module Sha256.

Definition w32 (x : Z) : Z := x mod 2 ^ 32.
Definition add32 (x y : Z) : Z := w32 (x + y).
Definition rotr (n x : Z) : Z :=
  w32 (Z.lor (Z.shiftr x n) (Z.shiftl x (32 - n))).
Definition shr (n x : Z) : Z := Z.shiftr x n.
Definition not32 (x : Z) : Z := 2 ^ 32 - 1 - x.

Definition Ch (x y z : Z) : Z := Z.lxor (Z.land x y) (Z.land (not32 x) z).
Definition Maj (x y z : Z) : Z :=
  Z.lxor (Z.lxor (Z.land x y) (Z.land x z)) (Z.land y z).
Definition bigSigma0 (x : Z) : Z := Z.lxor (Z.lxor (rotr 2 x) (rotr 13 x)) (rotr 22 x).
Definition bigSigma1 (x : Z) : Z := Z.lxor (Z.lxor (rotr 6 x) (rotr 11 x)) (rotr 25 x).
Definition smallSigma0 (x : Z) : Z := Z.lxor (Z.lxor (rotr 7 x) (rotr 18 x)) (shr 3 x).
Definition smallSigma1 (x : Z) : Z := Z.lxor (Z.lxor (rotr 17 x) (rotr 19 x)) (shr 10 x).

(** The round constants are the first 32 bits of the fractional parts of
    the cube roots of the first 64 primes, the initial hash value those of
    the square roots of the first 8 primes. *)
Definition is_prime (n : nat) : bool :=
  forallb (fun d => negb (n mod d =? 0)%nat) (seq 2 (n - 2)).

Definition primes : list Z :=
  map Z.of_nat (firstn 64 (List.filter is_prime (seq 2 310))).

(** The largest [r] in [lo, hi) with [r ^ 3 <= x], by bisection. *)
Fixpoint cube_root (fuel : nat) (lo hi x : Z) : Z :=
  match fuel with
  | O => lo
  | S fuel' =>
      if hi - lo <=? 1 then lo
      else let mid := (lo + hi) / 2 in
           if mid * mid * mid <=? x then cube_root fuel' mid hi x
           else cube_root fuel' lo mid x
  end.

Definition K : list Z :=
  Eval vm_compute in
    map (fun p => w32 (cube_root 64 0 (2 ^ 36) (p * 2 ^ 96))) primes.

Definition H0 : list Z :=
  Eval vm_compute in
    map (fun p => w32 (Z.sqrt (p * 2 ^ 64))) (firstn 8 primes).

(** Big-endian bytes of a word of [n] bytes. *)
Fixpoint be_bytes (n : nat) (x : Z) : list Z :=
  match n with
  | O => []
  | S n' => (Z.shiftr x (8 * Z.of_nat n')) mod 256 :: be_bytes n' x
  end.

Definition be_word (bs : list Z) : Z :=
  fold_left (fun acc b => acc * 256 + b) bs 0.

(** The message, a 1 bit, zeros up to 56 modulo 64 bytes, and the length in
    bits on 8 bytes. *)
Definition pad (msg : list Z) : list Z :=
  let l := Z.of_nat (length msg) in
  let zeros := Z.to_nat ((55 - l) mod 64) in
  msg ++ [0x80] ++ repeat 0 zeros ++ be_bytes 8 (8 * l).

Fixpoint words (n : nat) (bs : list Z) : list Z :=
  match n with
  | O => []
  | S n' => be_word (firstn 4 bs) :: words n' (skipn 4 bs)
  end.

(** The message schedule, latest word first: [w] holds W[t-1], W[t-2], ... *)
Fixpoint schedule (n : nat) (w : list Z) : list Z :=
  match n with
  | O => w
  | S n' =>
      let wt := add32 (add32 (smallSigma1 (nth 1 w 0)) (nth 6 w 0))
                      (add32 (smallSigma0 (nth 14 w 0)) (nth 15 w 0)) in
      schedule n' (wt :: w)
  end.

Definition round (s : list Z) (kw : Z * Z) : list Z :=
  match s with
  | [a; b; c; d; e; f; g; h] =>
      let t1 := add32 (add32 (add32 h (bigSigma1 e)) (add32 (Ch e f g) (fst kw)))
                      (snd kw) in
      let t2 := add32 (bigSigma0 a) (Maj a b c) in
      [add32 t1 t2; a; b; c; add32 d t1; e; f; g]
  | _ => s
  end.

Definition compress (h : list Z) (block : list Z) : list Z :=
  let w := rev (schedule 48 (rev (words 16 block))) in
  let s := fold_left round (combine K w) h in
  map (fun p => add32 (fst p) (snd p)) (combine h s).

Fixpoint blocks (n : nat) (h : list Z) (bs : list Z) : list Z :=
  match n with
  | O => h
  | S n' => blocks n' (compress h (firstn 64 bs)) (skipn 64 bs)
  end.

(** [sha256.Sum256(data)]: the 32 bytes of the digest. *)
Definition Sum256 (data : list ascii) : list Z :=
  let padded := pad (map (fun c => Z.of_nat (nat_of_ascii c)) data) in
  let h := blocks (length padded / 64) H0 padded in
  flat_map (be_bytes 4) h.

Definition hexdigit (d : Z) : ascii :=
  nth (Z.to_nat d) (list_ascii_of_string "0123456789abcdef") "0"%char.

(** [hex.EncodeToString(bytes)] *)
Definition EncodeToString (bs : list Z) : list ascii :=
  flat_map (fun b => [hexdigit (b / 16); hexdigit (b mod 16)]) bs.

End Sha256.

(** ** internal/safety/redaction/redaction.go *)

Module Redaction.
Import GoStrings.

(** [Category] is a Go string type. *)
Abbreviation Category := (list ascii).

(** The internal [match] struct. *)
Record rmatch : Type := mkMatch {
  m_category : Category;
  m_match : str;
  m_start : Z;
  m_end : Z;
  m_priority : Z
}.

Record Finding : Type := mkFinding {
  FCategory : Category;
  FMatch : str;
  FRedacted : str;
  FStart : Z;
  FEnd : Z
}.

(** [Mode] is a Go string type with four named values; any other string is
    [ModeOther]. *)
Inductive Mode : Type :=
| ModeOff | ModeWarn | ModeRedact | ModeBlock | ModeOther (name : str).

Record Config : Type := mkConfig {
  CMode : Mode;
  Allowlist : list str;
  DisabledCategories : list Category
}.

Record Result : Type := mkRedactionResult {
  RMode : Mode;
  Output : str;
  Findings : list Finding;
  Blocked : bool;
  OriginalLength : Z
}.

(** [sort.Slice(data, less)].  Go sorts in place and promises only a
    permutation of [data] that [less] orders; the model computes that
    permutation by insertion, which is also what Go runs on at most twelve
    elements.  Where two orders are possible (elements that [less] does not
    separate) the model keeps the earlier element first. *)
Fixpoint insertSorted {A : Type} (less : A -> A -> bool) (x : A) (l : list A)
  : list A :=
  match l with
  | [] => [x]
  | y :: l' => if less y x then y :: insertSorted less x l' else x :: l
  end.

Definition sortSlice {A : Type} (less : A -> A -> bool) (data : list A) : list A :=
  foldr (insertSorted less) [] data.

(** The [less] of [deduplicateMatches]: by start position, then by priority
    (descending). *)
Definition lessMatch (a b : rmatch) : bool :=
  if negb (m_start a =? m_start b) then m_start a <? m_start b
  else m_priority a >? m_priority b.

(** The loop of [deduplicateMatches] that removes the overlaps. *)
Fixpoint removeOverlaps (matches : list rmatch) (lastEnd : Z) : list rmatch :=
  match matches with
  | [] => []
  | m :: rest =>
      if m_start m <? lastEnd then removeOverlaps rest lastEnd
      else m :: removeOverlaps rest (m_end m)
  end.

Definition deduplicateMatches (matches : list rmatch) : list rmatch :=
  if (length matches =? 0)%nat then matches
  else removeOverlaps (sortSlice lessMatch matches) (-1).

(** [generatePlaceholder(cat, content)]: [hash[:4]] are the first four of
    the 32 bytes of the digest. *)
Definition generatePlaceholder (cat : Category) (content : str) : str :=
  let data := cat ++ lit ":" ++ content in
  let hash := Sha256.Sum256 data in
  let hashStr := Sha256.EncodeToString (take 4 hash) in
  lit "[REDACTED:" ++ cat ++ lit ":" ++ hashStr ++ lit "]".

(** The less of [applyRedactions]: by start position, descending. *)
Definition lessFinding (a b : Finding) : bool := FStart a >? FStart b.

(** One step of the replacement loop.  The guard keeps both slice
    expressions in range, so neither can panic. *)
Definition redactStep (result : str) (f : Finding) : str :=
  if (FStart f >=? 0) && (FEnd f <=? len result) && (FStart f <? FEnd f)
  then take (Z.to_nat (FStart f)) result ++ FRedacted f
         ++ drop (Z.to_nat (FEnd f)) result
  else result.

Definition applyRedactions (input : str) (findings : list Finding) : str :=
  if (length findings =? 0)%nat then input
  else foldl redactStep input (sortSlice lessFinding findings).

Section Scanner.

(** The pattern table [getPatterns()], the allowlist check
    [isAllowlisted(matchStr, compileAllowlist(cfg.Allowlist))] and
    [isCategoryDisabled] are declared outside these sources; a pattern is
    its category, its priority and what [regex.FindAllStringIndex(input, -1)]
    answers: the [start, end) byte positions of the matches. *)
Record pattern : Type := mkPattern {
  p_category : Category;
  p_priority : Z;
  FindAllStringIndex : str -> list (Z * Z)
}.

Variable getPatterns : list pattern.
Variable isAllowlisted : str -> list str -> bool.
Variable isCategoryDisabled : Category -> list Category -> bool.

(** [input[lo:hi]] at the positions of a regular-expression match, which are
    in range. *)
Definition substring (input : str) (lo hi : Z) : str :=
  take (Z.to_nat (hi - lo)) (drop (Z.to_nat lo) input).

(** The inner loop of [scan]: the matches of one pattern, appended. *)
Definition matchesOf (input : str) (allowlist : list str) (p : pattern)
           (allMatches : list rmatch) : list rmatch :=
  foldl (fun allMatches (loc : Z * Z) =>
           let matchStr := substring input (fst loc) (snd loc) in
           if isAllowlisted matchStr allowlist then allMatches
           else allMatches ++
                [ {| m_category := p_category p;
                     m_match := matchStr;
                     m_start := fst loc;
                     m_end := snd loc;
                     m_priority := p_priority p |} ])
        allMatches (FindAllStringIndex p input).

(** The outer loop of [scan] over the patterns. *)
Definition allMatchesOf (input : str) (allowlist : list str)
           (disabled : list Category) : list rmatch :=
  foldl (fun allMatches p =>
           if isCategoryDisabled (p_category p) disabled then allMatches
           else matchesOf input allowlist p allMatches)
        [] getPatterns.

Definition scan (input : str) (allowlist : list str) (disabled : list Category)
  : list rmatch :=
  deduplicateMatches (allMatchesOf input allowlist disabled).

Definition toFinding (m : rmatch) : Finding :=
  {| FCategory := m_category m;
     FMatch := m_match m;
     FRedacted := generatePlaceholder (m_category m) (m_match m);
     FStart := m_start m;
     FEnd := m_end m |}.

(** [ScanAndRedact(input, cfg)].  The [switch] on the mode has no default:
    with any other mode [Output] keeps its zero value. *)
Definition ScanAndRedact (input : str) (cfg : Config) : Result :=
  match CMode cfg with
  | ModeOff =>
      {| RMode := CMode cfg; Output := input; Findings := [];
         Blocked := false; OriginalLength := len input |}
  | mode =>
      let matches := scan input (Allowlist cfg) (DisabledCategories cfg) in
      if (length matches =? 0)%nat then
        {| RMode := CMode cfg; Output := input; Findings := [];
           Blocked := false; OriginalLength := len input |}
      else
        let findings := map toFinding matches in
        match mode with
        | ModeWarn =>
            {| RMode := CMode cfg; Output := input; Findings := findings;
               Blocked := false; OriginalLength := len input |}
        | ModeRedact =>
            {| RMode := CMode cfg; Output := applyRedactions input findings;
               Findings := findings;
               Blocked := false; OriginalLength := len input |}
        | ModeBlock =>
            {| RMode := CMode cfg; Output := input; Findings := findings;
               Blocked := true; OriginalLength := len input |}
        | _ =>
            {| RMode := CMode cfg; Output := []; Findings := findings;
               Blocked := false; OriginalLength := len input |}
        end
  end.

End Scanner.

End Redaction.

(** ** path/filepath on Unix, as far as session.go uses it *)

Module Filepath.
Import GoStrings.

Definition slash : ascii := "/"%char.
Definition dot : str := ["."%char].
Definition dotdot : str := ["."%char; "."%char].

(** [strings.Join(elems, "/")] *)
Fixpoint joinSlash (elems : list str) : str :=
  match elems with
  | [] => []
  | [e] => e
  | e :: rest => e ++ slash :: joinSlash rest
  end.

(** The elements that [Clean] keeps, innermost last: empty elements and "."
    are dropped, ".." removes the element before it, and is itself dropped
    at the root and kept at the start of a relative path. *)
Definition cleanStep (rooted : bool) (kept : list str) (elem : str) : list str :=
  if streq elem [] || streq elem dot then kept
  else if streq elem dotdot then
    match rev kept with
    | [] => if rooted then kept else [dotdot]
    | top :: below =>
        if streq top dotdot then kept ++ [dotdot] else rev below
    end
  else kept ++ [elem].

(** [filepath.Clean(path)] *)
Definition Clean (path : str) : str :=
  if streq path [] then dot
  else
    let rooted := HasPrefix path [slash] in
    let kept := foldl (cleanStep rooted) [] (SplitByte path slash) in
    let out := (if rooted then [slash] else []) ++ joinSlash kept in
    if streq out [] then dot else out.

(** [filepath.Join(elem...)]: the elements from the first one that is not
    empty on, joined by slashes and cleaned; the empty string when there is
    none. *)
Fixpoint Join (elem : list str) : str :=
  match elem with
  | [] => []
  | e :: rest => if streq e [] then Join rest else Clean (joinSlash elem)
  end.

(** [filepath.Dir(path)]: what precedes the last element, cleaned. *)
Definition Dir (path : str) : str :=
  let pieces := SplitByte path slash in
  let upto := joinSlash (removelast pieces) in
  Clean (if (length pieces <=? 1)%nat then []
         else upto ++ [slash]).

End Filepath.

(** ** internal/agentmail/session.go *)

Module AgentMail.
Import GoStrings.

Record SessionAgentInfo : Type := mkInfo {
  AgentName : str;
  ProjectKey : str;
  RegisteredAt : Z;
  LastActiveAt : Z
}.

(** The calls that session.go makes on the file system (package [os]). *)
Inductive fsop : Type :=
| MkdirAll (path : str) (perm : Z)
| WriteFile (path : str) (data : str) (perm : Z)
| Rename (oldpath newpath : str)
| Remove (path : str)
| ReadFile (path : str).

(** The environment of the process: what [os.UserConfigDir()] answers
    ([None] for its error), the value of [$HOME], and for every call on the
    file system whether it fails, and with which error text. *)
Record OS : Type := mkOS {
  UserConfigDir : option str;
  HOME : str;
  failure : fsop -> option str
}.

Definition perm0755 : Z := 7 * 64 + 5 * 8 + 5.
Definition perm0644 : Z := 6 * 64 + 4 * 8 + 4.

Definition sessionAgentPath (os : OS) (sessionName : str) : str :=
  let configDir :=
    match UserConfigDir os with
    | Some dir => dir
    | None => Filepath.Join [HOME os; lit ".config"]
    end in
  Filepath.Join [configDir; lit "ntm"; lit "sessions"; sessionName; lit "agent.json"].

(** [SaveSessionAgent(sessionName, info)]: the calls made on the file
    system, in order, and the error returned ([None] for nil).
    [MarshalIndent] stands for [json.MarshalIndent(info, "", "  ")], which
    answers the bytes or an error. *)
Definition SaveSessionAgent (os : OS) (MarshalIndent : SessionAgentInfo -> str + str)
           (sessionName : str) (info : SessionAgentInfo)
  : list fsop * option str :=
  let path := sessionAgentPath os sessionName in
  let mkdir := MkdirAll (Filepath.Dir path) perm0755 in
  match failure os mkdir with
  | Some err => ([mkdir], Some (lit "creating session directory: " ++ err))
  | None =>
      match MarshalIndent info with
      | inr err => ([mkdir], Some (lit "marshaling session agent: " ++ err))
      | inl data =>
          let write := WriteFile path data perm0644 in
          match failure os write with
          | Some err => ([mkdir; write], Some (lit "writing session agent: " ++ err))
          | None => ([mkdir; write], None)
          end
      end
  end.

(** [DeleteSessionAgent(sessionName)]; [notExist] tells the errors for which
    [os.IsNotExist] holds. *)
Definition DeleteSessionAgent (os : OS) (notExist : str -> bool) (sessionName : str)
  : list fsop * option str :=
  let path := sessionAgentPath os sessionName in
  match failure os (Remove path) with
  | Some err =>
      if notExist err then ([Remove path], None)
      else ([Remove path], Some (lit "deleting session agent: " ++ err))
  | None => ([Remove path], None)
  end.

End AgentMail.

(** ** internal/coordinator/assign.go: the read-only queries *)

Module CoordinatorQueries.
Import Coordinator.
Local Open Scope string_scope.

Section WithPersona.
Context {Persona : Type}.

(** [GetAssignableWork]: the error of [bv.GetTriage] is returned as it is;
    a nil response gives the nil slice. *)
Definition GetAssignableWork (triage : TriageAnswer)
  : list TriageRecommendation + string :=
  match triage with
  | TriageError err => inr err
  | TriageNil => inl []
  | TriageOk recommendations =>
      inl (foldl (fun assignable rec =>
                    if negb (String.eqb (Status rec) "blocked")
                    then (assignable ++ [rec])%list else assignable)
                 [] recommendations)
  end.

(** [SuggestAssignment]; [agent] is what [c.GetAgentByPaneID(paneID)] gave
    ([None] for nil), and the triage is asked for only once the agent is
    found.  The suggestion is [None] for the nil pointer. *)
Definition SuggestAssignment (agent : option (AgentState Persona)) (paneID : string)
           (triage : TriageAnswer) : option WorkAssignment + string :=
  match agent with
  | None => inr ("agent not found: " ++ paneID)
  | Some agent =>
      match triage with
      | TriageError err => inr err
      | TriageNil => inl None
      | TriageOk recommendations =>
          if (length recommendations =? 0)%nat then inl None
          else inl (option_map fst (findBestMatch agent recommendations))
      end
  end.

End WithPersona.
End CoordinatorQueries.

(** ** internal/safety/redaction/redaction.go: the wrappers and the line
       information *)

Module RedactionApi.
Import GoStrings Redaction.

Section Scanner.
Variable getPatterns : list pattern.
Variable isAllowlisted : str -> list str -> bool.
Variable isCategoryDisabled : Category -> list Category -> bool.

(** [cfg.Mode = mode] on the copy of the configuration that the callee
    holds. *)
Definition withMode (cfg : Config) (mode : Mode) : Config :=
  {| CMode := mode; Allowlist := Allowlist cfg;
     DisabledCategories := DisabledCategories cfg |}.

Definition Scan (input : str) (cfg : Config) : list Finding :=
  let cfg := withMode cfg ModeWarn in
  let result := ScanAndRedact getPatterns isAllowlisted isCategoryDisabled input cfg in
  Findings result.

Definition Redact (input : str) (cfg : Config) : str * list Finding :=
  let cfg := withMode cfg ModeRedact in
  let result := ScanAndRedact getPatterns isAllowlisted isCategoryDisabled input cfg in
  (Output result, Findings result).

Definition ContainsSensitive (input : str) (cfg : Config) : bool :=
  let cfg := withMode cfg ModeWarn in
  let result := ScanAndRedact getPatterns isAllowlisted isCategoryDisabled input cfg in
  (0 <? length (Findings result))%nat.

End Scanner.

(** [data[i]] on a slice of integers; panics out of range. *)
Definition index (data : list Z) (i : Z) : outcome Z :=
  if (0 <=? i) && (i <? Z.of_nat (length data))
  then match data !! Z.to_nat i with
       | Some v => Returns v
       | None => Panics
       end
  else Panics.

(** [sort.Search(n, f)], the binary search of Go's library:
    [i, j := 0, n; for i < j { h := int(uint(i+j) >> 1);
     if !f(h) { i = h + 1 } else { j = h } }; return i].
    The loop runs on fuel; [n] rounds are enough (lemma [Search_boundary]). *)
Fixpoint searchLoop (fuel : nat) (f : Z -> outcome bool) (i j : Z) : outcome Z :=
  if i <? j then
    match fuel with
    | O => OutOfFuel
    | S fuel' =>
        let h := Z.shiftr (i + j) 1 in
        let* b := f h in
        if negb b then searchLoop fuel' f (h + 1) j
        else searchLoop fuel' f i h
    end
  else Returns i.

Definition Search (n : Z) (f : Z -> outcome bool) : outcome Z :=
  searchLoop (Z.to_nat n) f 0 n.

(** The line index of [AddLineInfo]: [i] is the byte index that
    [for i, c := range input] gives; the byte 10 stands for the rune
    ['\n'] and for nothing else in UTF-8, and a byte that is no valid
    encoding is ranged over as U+FFFD, one byte wide. *)
Fixpoint lineStartsFrom (i : Z) (input : str) (lineStarts : list Z) : list Z :=
  match input with
  | [] => lineStarts
  | c :: rest =>
      if Ascii.eqb c LF then lineStartsFrom (i + 1) rest (lineStarts ++ [i + 1])
      else lineStartsFrom (i + 1) rest lineStarts
  end.

(** The body of the loop over the findings: the [Line] and the [Column]
    that the finding at [pos] receives. *)
Definition lineColumn (lineStarts : list Z) (pos : Z) : outcome (Z * Z) :=
  let* found :=
    Search (Z.of_nat (length lineStarts))
           (fun j => let* v := index lineStarts j in Returns (v >? pos)) in
  let line := found - 1 in
  let line := if line <? 0 then 0 else line in
  let* start := index lineStarts line in
  Returns (line + 1, pos - start + 1).

Fixpoint lineColumns (lineStarts : list Z) (findings : list Finding)
  : outcome (list (Z * Z)) :=
  match findings with
  | [] => Returns []
  | f :: rest =>
      let* lc := lineColumn lineStarts (FStart f) in
      let* lcs := lineColumns lineStarts rest in
      Returns (lc :: lcs)
  end.

(** [AddLineInfo(input, findings)] writes to the findings in place; the
    model returns, finding by finding, the [(Line, Column)] written. *)
Definition AddLineInfo (input : str) (findings : list Finding)
  : outcome (list (Z * Z)) :=
  if (length findings =? 0)%nat then Returns []
  else
    let lineStarts := lineStartsFrom 0 input [0] in
    lineColumns lineStarts findings.

End RedactionApi.

(** ** internal/agentmail/session.go: the agent name of a session *)

Module AgentMailNames.
Import GoStrings.

Definition underscore : ascii := "_"%char.

(** The class [a-zA-Z0-9]. *)
Definition isAlnum (c : ascii) : bool :=
  let n := nat_of_ascii c in
  ((48 <=? n) && (n <=? 57) || (65 <=? n) && (n <=? 90)
   || (97 <=? n) && (n <=? 122))%nat.

(** [regexp.MustCompile(`[^a-zA-Z0-9]+`).ReplaceAllString(name, "_")]: every
    maximal run of characters outside the class becomes one underscore.
    The model works on bytes: every byte of a character that is not ASCII,
    and every byte that is no valid UTF-8, lies outside the class, so the
    runs of such characters are the runs of such bytes.  [inMatch] tells
    that the byte before belongs to a run already replaced. *)
Fixpoint ReplaceAllString (name : str) (inMatch : bool) : str :=
  match name with
  | [] => []
  | c :: rest =>
      if isAlnum c then c :: ReplaceAllString rest false
      else if inMatch then ReplaceAllString rest true
      else underscore :: ReplaceAllString rest true
  end.

(** [strings.Trim(s, "_")]: the leading and the trailing underscores go. *)
Fixpoint TrimLeft (s : str) : str :=
  match s with
  | [] => []
  | c :: rest => if Ascii.eqb c underscore then TrimLeft rest else s
  end.

Fixpoint TrimRight (s : str) : str :=
  match s with
  | [] => []
  | c :: rest =>
      match TrimRight rest with
      | [] => if Ascii.eqb c underscore then [] else [c]
      | rest' => c :: rest'
      end
  end.

Definition Trim (s : str) : str := TrimLeft (TrimRight s).

(** [strings.ToLower] on the bytes of an ASCII string, which is what it is
    given here (lemma [replaced_ascii]). *)
Definition lowerByte (c : ascii) : ascii :=
  let n := nat_of_ascii c in
  if ((65 <=? n) && (n <=? 90))%nat then ascii_of_nat (n + 32) else c.

Definition ToLower (s : str) : str := map lowerByte s.

Definition sanitizeSessionName (name : str) : str :=
  let sanitized := ReplaceAllString name false in
  let sanitized := Trim sanitized in
  ToLower sanitized.

End AgentMailNames.

(** ** internal/pipeline/pipeline.go: the pane of a stage and the log line *)

Module PipelineStages.
Import GoStrings.

Section WithToLower.

(** [strings.ToLower] maps Unicode letters; it is a parameter of the
    model. *)
Variable ToLower : str -> str.

Definition normalizeAgentType (t : str) : str :=
  let l := ToLower t in
  if streq l (lit "claude") || streq l (lit "cc") || streq l (lit "claude-code")
  then lit "cc"
  else if streq l (lit "codex") || streq l (lit "cod") || streq l (lit "openai")
  then lit "cod"
  else if streq l (lit "gemini") || streq l (lit "gmi") || streq l (lit "google")
  then lit "gmi"
  else t.

(** [tmux.Pane]: the fields that [findPaneForStage] reads. *)
Record Pane : Type := mkPane {
  ID : str;
  PType : str;
  Variant : str
}.

(** First pass: type, and model if one is specified. *)
Fixpoint exactPass (panes : list Pane) (targetType model : str) : option str :=
  match panes with
  | [] => None
  | p :: rest =>
      if streq (PType p) targetType then
        if negb (streq model []) && negb (streq (Variant p) model)
        then exactPass rest targetType model
        else Some (ID p)
      else exactPass rest targetType model
  end.

(** Second pass: type only. *)
Fixpoint relaxedPass (panes : list Pane) (targetType : str) : option str :=
  match panes with
  | [] => None
  | p :: rest =>
      if streq (PType p) targetType then Some (ID p)
      else relaxedPass rest targetType
  end.

(** [findPaneForStage]; [panes] is what [tmux.GetPanes(session)] gave, the
    panes or an error; the result is the pane ID or the error. *)
Definition findPaneForStage (panes : list Pane + str) (agentType model : str)
  : str + str :=
  let targetType := normalizeAgentType agentType in
  match panes with
  | inr err => inr err
  | inl panes =>
      match exactPass panes targetType model with
      | Some id => inl id
      | None =>
          let notFound :=
            inr (lit "no agent found for type " ++ agentType ++ lit " (model "
                   ++ model ++ lit ")") in
          if negb (streq model []) then
            match relaxedPass panes targetType with
            | Some id => inl id
            | None => notFound
            end
          else notFound
      end
  end.

End WithToLower.

(** *** truncate *)

(** The width in bytes of the character that [for i := range s] decodes
    at the start of [s]: the length of a well-formed UTF-8 sequence, or 1
    when the bytes are no such sequence (the character is then U+FFFD). *)
Definition continuation (b : nat) : bool := ((128 <=? b) && (b <=? 191))%nat.

Definition between (lo hi b : nat) : bool := ((lo <=? b) && (b <=? hi))%nat.

Definition runeWidth (s : str) : nat :=
  match map nat_of_ascii s with
  | [] => 0
  | b0 :: rest =>
      if (b0 <? 194)%nat then 1
      else if (b0 <=? 223)%nat then
        match rest with
        | b1 :: _ => if continuation b1 then 2 else 1
        | _ => 1
        end
      else if (b0 <=? 239)%nat then
        match rest with
        | b1 :: b2 :: _ =>
            let second :=
              if (b0 =? 224)%nat then between 160 191 b1
              else if (b0 =? 237)%nat then between 128 159 b1
              else continuation b1 in
            if second && continuation b2 then 3 else 1
        | _ => 1
        end
      else if (b0 <=? 244)%nat then
        match rest with
        | b1 :: b2 :: b3 :: _ =>
            let second :=
              if (b0 =? 240)%nat then between 144 191 b1
              else if (b0 =? 244)%nat then between 128 143 b1
              else continuation b1 in
            if second && continuation b2 && continuation b3 then 4 else 1
        | _ => 1
        end
      else 1
  end.

(** The byte indexes that [for i := range s] goes through; [skip] counts
    the bytes left of the character begun. *)
Fixpoint runeStartsFrom (i : Z) (skip : nat) (s : str) : list Z :=
  match s with
  | [] => []
  | _ :: rest =>
      match skip with
      | S skip' => runeStartsFrom (i + 1) skip' rest
      | O => i :: runeStartsFrom (i + 1) (runeWidth s - 1) rest
      end
  end.

Definition runeStarts (s : str) : list Z := runeStartsFrom 0 0 s.

(** The two loops of [truncate] keep the last index that is not beyond
    [bound]: [for i := range s { if i > bound { break }; last = i }]. *)
Fixpoint lastNotBeyond (starts : list Z) (bound last : Z) : Z :=
  match starts with
  | [] => last
  | i :: rest => if i >? bound then last else lastNotBeyond rest bound i
  end.

Definition truncate (s : str) (n : Z) : outcome str :=
  if n <=? 0 then Returns []
  else if len s <=? n then Returns s
  else if n <=? 3 then
    let lastValid := lastNotBeyond (runeStarts s) n 0 in
    if (lastValid =? 0) && (0 <? len s) then Returns []
    else slice_to s lastValid
  else
    let targetLen := n - 3 in
    let prevI := lastNotBeyond (runeStarts s) targetLen 0 in
    let* head := slice_to s prevI in
    Returns (head ++ lit "...").

End PipelineStages.

(** ** internal/cli: the recommendations of [ntm assign] *)

Module CliAssign.
Import GoStrings.

(** [parsePriorityString]: [p[1] - '0'] is a subtraction of bytes, which
    wraps around below ['0']. *)
Definition parsePriorityString (p : str) : Z :=
  match p with
  | [p0; p1] =>
      if Ascii.eqb p0 "P"%char then
        let n := (Z.of_nat (nat_of_ascii p1) - 48) mod 256 in
        if n <=? 4 then n else 2
      else 2
  | _ => 2
  end.

(** [tmux.Pane], [bv.BeadPreview] and [robot.AssignRecommend]: the fields
    that [generateRecommendations] reads and writes. *)
Record Pane : Type := mkPane {
  Index : Z;
  Title : str
}.

Record BeadPreview : Type := mkBead {
  BID : str;
  BTitle : str;
  BPriority : str
}.

Record AssignRecommend : Type := mkRecommend {
  Agent : str;
  AgentType : str;
  Model : str;
  AssignBead : str;
  BeadTitle : str;
  Priority : str;
  Confidence : float;
  Reasoning : str
}.

Section WithLibrary.

(** [fmt.Sprintf("%d", n)] and [strings.ToLower] are parameters of the
    model, and so are [calculateMatchConfidence] (which ranges over a Go
    map, in an order that Go leaves open) and [buildReasoning]. *)
Variable itoa : Z -> str.
Variable ToLower : str -> str.
Variable calculateMatchConfidence : str -> BeadPreview -> str -> float.
Variable buildReasoning : str -> BeadPreview -> str -> str.

Definition detectAgentTypeFromTitle (title : str) : str :=
  let title := ToLower title in
  if Contains title (lit "__cc") || Contains title (lit "claude") then lit "claude"
  else if Contains title (lit "__cod") || Contains title (lit "codex") then lit "codex"
  else if Contains title (lit "__gmi") || Contains title (lit "gemini") then lit "gemini"
  else if Contains title (lit "__user") || Contains title (lit "user") then lit "user"
  else lit "unknown".

Definition detectModelFromTitle (agentType title : str) : str :=
  let title := ToLower title in
  if Contains title (lit "opus") then lit "opus"
  else if Contains title (lit "sonnet") then lit "sonnet"
  else if Contains title (lit "haiku") then lit "haiku"
  else [].

(** The loop that matches the beads to the idle panes; it breaks when
    [beadIdx] reaches the number of beads. *)
Fixpoint matchBeads (idlePanes : list Pane) (beads : list BeadPreview)
         (strategy : str) (beadIdx : nat)
         (recommendations : list AssignRecommend) : list AssignRecommend :=
  match idlePanes with
  | [] => recommendations
  | pane :: rest =>
      match beads !! beadIdx with
      | None => recommendations
      | Some bead =>
          let agentType := detectAgentTypeFromTitle (Title pane) in
          let model := detectModelFromTitle agentType (Title pane) in
          let confidence := calculateMatchConfidence agentType bead strategy in
          let reasoning := buildReasoning agentType bead strategy in
          matchBeads rest beads strategy (S beadIdx)
            (recommendations ++
             [ {| Agent := itoa (Index pane);
                  AgentType := agentType;
                  Model := model;
                  AssignBead := BID bead;
                  BeadTitle := BTitle bead;
                  Priority := BPriority bead;
                  Confidence := confidence;
                  Reasoning := reasoning |} ])
      end
  end.

(** [generateRecommendations]; [idleSet] is a Go [map[string]bool], a
    missing key reading as [false]. *)
Definition generateRecommendations (panes : list Pane) (beads : list BeadPreview)
           (strategy : str) (idleAgents : list str) : list AssignRecommend :=
  let idleSet : gmap str bool :=
    foldl (fun idleSet a => <[a := true]> idleSet) ∅ idleAgents in
  let idlePanes :=
    foldl (fun idlePanes p =>
             let paneKey := itoa (Index p) in
             if default false (idleSet !! paneKey) then idlePanes ++ [p]
             else idlePanes)
          [] panes in
  matchBeads idlePanes beads strategy 0 [].

End WithLibrary.

End CliAssign.

(** ** internal/cli: the confidence of a recommendation *)

Module CliConfidence.
Import GoStrings CliAssign.

#[local] Set Warnings "-inexact-float".

(** The map literal [taskPatterns]: task type and keywords.  Go ranges over
    a map in an order that it leaves open; the order is a parameter of
    [calculateMatchConfidence] below. *)
Definition taskPatterns : list (str * list str) :=
  [ (lit "bug", [lit "bug"; lit "fix"; lit "broken"; lit "error"; lit "crash"]);
    (lit "testing", [lit "test"; lit "spec"; lit "coverage"]);
    (lit "documentation", [lit "doc"; lit "readme"; lit "comment"]);
    (lit "refactor", [lit "refactor"; lit "cleanup"; lit "improve"]);
    (lit "analysis", [lit "analyze"; lit "investigate"; lit "research"]);
    (lit "feature", [lit "feature"; lit "implement"; lit "add"; lit "new"]) ].

(** [strengths[agentType][taskType]], with [None] where a key is missing. *)
Definition strengths (agentType taskType : str) : option float :=
  let table : list (str * list (str * float)) :=
    [ (lit "claude", [(lit "analysis", 0.9%float); (lit "refactor", 0.9%float);
                      (lit "documentation", 0.8%float); (lit "feature", 0.8%float);
                      (lit "bug", 0.7%float)]);
      (lit "codex", [(lit "feature", 0.9%float); (lit "bug", 0.8%float);
                     (lit "task", 0.8%float); (lit "refactor", 0.6%float)]);
      (lit "gemini", [(lit "documentation", 0.9%float); (lit "analysis", 0.8%float);
                      (lit "feature", 0.8%float)]) ] in
  match List.find (fun e => streq (fst e) agentType) table with
  | Some (_, agentStrengths) =>
      match List.find (fun e => streq (fst e) taskType) agentStrengths with
      | Some (_, strength) => Some strength
      | None => None
      end
  | None => None
  end.

(** The built-in [min] on two [float64] values, neither of them a NaN
    here. *)
Definition fmin (x y : float) : float := if (y <? x)%float then y else x.

Section WithToLower.
Variable ToLower : str -> str.

(** The loops over the task patterns, in the order [order]: the inner loop
    stops at the first keyword that the title contains, the outer loop goes
    on, so that the last matching task type stays. *)
Definition inferTaskType (order : list (str * list str)) (title : str) : str :=
  foldl (fun taskType (entry : str * list str) =>
           if existsb (fun p => Contains title p) (snd entry) then fst entry
           else taskType)
        (lit "task") order.

Definition calculateMatchConfidence (order : list (str * list str))
           (agentType : str) (bead : BeadPreview) (strategy : str) : float :=
  let baseConfidence := 0.7%float in
  let title := ToLower (BTitle bead) in
  let taskType := inferTaskType order title in
  let baseConfidence :=
    match strengths agentType taskType with
    | Some strength => strength
    | None => baseConfidence
    end in
  if streq strategy (lit "speed") then ((baseConfidence + 0.9) / 2)%float
  else if streq strategy (lit "dependency") then
    let priority := parsePriorityString (BPriority bead) in
    if priority <=? 1 then fmin (baseConfidence + 0.1)%float 0.95%float
    else baseConfidence
  else baseConfidence.

End WithToLower.

End CliConfidence.

(* ===================================================================== *)
(** * Part II -- properties *)
(* ===================================================================== *)

Module PipelineProps.
Import GoStrings Pipeline.

(** *** Slices *)

Lemma len_nonneg (s : str) : 0 <= len s.
Proof. unfold len. lia. Qed.

Lemma len_app (s t : str) : len (s ++ t) = len s + len t.
Proof. unfold len. rewrite length_app. lia. Qed.

Lemma streq_true (s t : str) : streq s t = true <-> s = t.
Proof. unfold streq. apply bool_decide_eq_true. Qed.

Lemma streq_refl (s : str) : streq s s = true.
Proof. now apply streq_true. Qed.

Lemma slice_ok (s : str) (lo hi : Z) :
  0 <= lo -> lo <= hi -> hi <= len s ->
  slice s lo hi = Returns (take (Z.to_nat (hi - lo)) (drop (Z.to_nat lo) s)).
Proof.
  intros H1 H2 H3. unfold slice.
  apply Z.leb_le in H1, H2, H3. now rewrite H1, H2, H3.
Qed.

Lemma slice_to_app (s t : str) : slice_to (s ++ t) (len s) = Returns s.
Proof.
  unfold slice_to. rewrite slice_ok.
  - f_equal. change (Z.to_nat 0) with O. rewrite drop_0.
    unfold len. rewrite Z.sub_0_r, Nat2Z.id. apply take_app_length.
  - lia.
  - apply len_nonneg.
  - rewrite len_app. pose proof (len_nonneg t). lia.
Qed.

Lemma slice_from_app (s t : str) : slice_from (s ++ t) (len s) = Returns t.
Proof.
  unfold slice_from. rewrite slice_ok.
  - f_equal. unfold len at 3. rewrite Nat2Z.id, drop_app_length.
    rewrite len_app. replace (len s + len t - len s) with (len t) by lia.
    unfold len. rewrite Nat2Z.id. apply firstn_all.
  - apply len_nonneg.
  - rewrite len_app. pose proof (len_nonneg t). lia.
  - lia.
Qed.

Lemma slice_from_ok (s : str) (lo : Z) :
  0 <= lo <= len s -> slice_from s lo = Returns (drop (Z.to_nat lo) s).
Proof.
  intros H. unfold slice_from. rewrite slice_ok by lia. f_equal.
  apply take_ge. rewrite length_drop. unfold len in *. lia.
Qed.

Lemma slice_to_ok (s : str) (hi : Z) :
  0 <= hi <= len s -> slice_to s hi = Returns (take (Z.to_nat hi) s).
Proof.
  intros H. unfold slice_to. rewrite slice_ok by lia.
  now rewrite Z.sub_0_r.
Qed.

Lemma slice_from_neg (s : str) (lo : Z) : lo < 0 -> slice_from s lo = Panics.
Proof.
  intros H. unfold slice_from, slice.
  destruct (Z.leb_spec 0 lo); [lia|reflexivity].
Qed.

(** *** Prefixes and [strings.Index] *)

Lemma HasPrefix_take (s p : str) :
  HasPrefix s p = true <-> take (length p) s = p.
Proof.
  revert s. induction p as [|c p IH]; intros s; simpl.
  { destruct s; simpl; tauto. }
  destruct s as [|d s]; simpl; [split; discriminate|].
  rewrite andb_true_iff, IH. destruct (Ascii.eqb_spec d c) as [->|Hne].
  - split; [intros [_ ->]; done|]. intros [= H]. done.
  - split; [intros [[=] _]|]. intros [= H _]. done.
Qed.

Lemma HasPrefix_short (s p : str) :
  (length s < length p)%nat -> HasPrefix s p = false.
Proof.
  intros H. destruct (HasPrefix s p) eqn:Hp; [|done].
  apply HasPrefix_take in Hp. apply (f_equal length) in Hp.
  rewrite length_take in Hp. lia.
Qed.

Lemma Index_spec (s sub : str) :
  (Index s sub = -1 /\
   forall i, (i <= length s)%nat -> HasPrefix (drop i s) sub = false) \/
  (0 <= Index s sub /\ (Z.to_nat (Index s sub) <= length s)%nat /\
   HasPrefix (drop (Z.to_nat (Index s sub)) s) sub = true /\
   forall i, (i < Z.to_nat (Index s sub))%nat -> HasPrefix (drop i s) sub = false).
Proof.
  induction s as [|c s IH].
  - simpl. destruct sub as [|d sub]; simpl.
    + right. repeat split; try lia; try done.
    + left. split; [done|]. intros i _. now destruct i.
  - cbn [Index]. destruct (HasPrefix (c :: s) sub) eqn:Hp.
    + right. change (Z.to_nat 0) with 0%nat. rewrite drop_0.
      repeat split; try lia; try done.
    + destruct IH as [[Hn Hall]|(H0 & Hle & Hhit & Hfirst)].
      * left. rewrite Hn. simpl. split; [done|].
        intros [|i] Hi; simpl; [done|]. apply Hall. simpl in Hi. lia.
      * right. destruct (Z.eqb_spec (Index s sub) (-1)) as [He|_]; [lia|].
        replace (Z.to_nat (Index s sub + 1)) with (S (Z.to_nat (Index s sub))) by lia.
        split; [lia|]. split; [simpl; lia|]. split; [exact Hhit|].
        intros [|i] Hi; simpl; [done|]. apply Hfirst. lia.
Qed.

(** *** The append law *)

Lemma extract_empty_before (after : str) :
  extractNewOutput [] after = Returns after.
Proof. reflexivity. Qed.

Lemma extract_empty_after (before : str) :
  extractNewOutput before [] = Returns [].
Proof. destruct before; reflexivity. Qed.

Lemma extract_append (before x : str) :
  extractNewOutput before (before ++ x) = Returns x.
Proof.
  unfold extractNewOutput.
  destruct (streq before []) eqn:Hb.
  { apply streq_true in Hb. now subst. }
  destruct (streq (before ++ x) []) eqn:Ha.
  { apply streq_true in Ha. apply app_eq_nil in Ha as [-> _].
    now rewrite streq_refl in Hb. }
  assert (Hge : (len (before ++ x) >=? len before) = true).
  { rewrite len_app. pose proof (len_nonneg x). apply Z.geb_le. lia. }
  rewrite Hge, slice_to_app. simpl. rewrite streq_refl.
  apply slice_from_app.
Qed.

(** C5.  For all strings [before] and [x], extracting the new output of
    [before ++ x] against [before] returns exactly [x]; in particular
    extract("foo", "foobar") = "bar".  An empty [before] returns [after],
    and an empty [after] returns the empty string. *)
Theorem extract_append_law :
  (forall before x : str, extractNewOutput before (before ++ x) = Returns x) /\
  extractNewOutput (lit "foo") (lit "foobar") = Returns (lit "bar") /\
  (forall after : str, extractNewOutput [] after = Returns after) /\
  (forall before : str, extractNewOutput before [] = Returns []).
Proof.
  split; [exact extract_append|].
  split; [exact (extract_append (lit "foo") (lit "bar"))|].
  split; [exact extract_empty_before | exact extract_empty_after].
Qed.

(** *** Overlaps *)

(** The last [k] bytes of [before] are the first [k] bytes of [after]. *)
Definition ov (before after : str) (k : nat) : Prop :=
  (k <= length before)%nat /\ (k <= length after)%nat /\
  drop (length before - k) before = take k after.

Lemma overlapAt_ov before after k :
  overlapAt before after k = true <-> ov before after k.
Proof.
  unfold overlapAt, ov.
  rewrite !andb_true_iff, !bool_decide_eq_true, streq_true. tauto.
Qed.

Lemma overlapAt_not_ov before after k :
  overlapAt before after k = false <-> ~ ov before after k.
Proof.
  rewrite <- overlapAt_ov. destruct (overlapAt before after k);
    split; congruence.
Qed.

Lemma longest_skip before after n m :
  (n <= m)%nat ->
  (forall j, (n < j <= m)%nat -> ~ ov before after j) ->
  longestOverlapFrom before after m = longestOverlapFrom before after n.
Proof.
  intros Hnm. induction m as [|m IH]; intros Hno.
  - now replace n with 0%nat by lia.
  - destruct (decide (n = S m)) as [->|Hne]; [done|].
    simpl. assert (Hf : overlapAt before after (S m) = false).
    { apply overlapAt_not_ov. apply Hno. lia. }
    rewrite Hf. apply IH; [lia|]. intros j Hj. apply Hno. lia.
Qed.

Lemma longest_hit before after k :
  ov before after k -> longestOverlapFrom before after k = k.
Proof.
  intros H. destruct k as [|k]; [done|]. simpl.
  apply overlapAt_ov in H. now rewrite H.
Qed.

Lemma longest_is before after k m :
  (k <= m)%nat -> ov before after k ->
  (forall j, (k < j <= m)%nat -> ~ ov before after j) ->
  longestOverlapFrom before after m = k.
Proof.
  intros Hkm Hk Hno. rewrite (longest_skip before after k m) by done.
  now apply longest_hit.
Qed.

(** An overlap of at least [c] bytes starts with the first [c] bytes of
    [after]. *)
Lemma ov_chunk before after k c :
  ov before after k -> (c <= k)%nat ->
  HasPrefix (drop (length before - k) before) (take c after) = true.
Proof.
  intros (Hkb & Hka & Heq) Hc. apply HasPrefix_take.
  rewrite length_take, Heq, take_take.
  replace ((c `min` length after) `min` k)%nat with c by lia. done.
Qed.

(** *** The scan loop *)

Section ScanLoop.
Variables before after : str.
Variable c : nat.
Hypothesis Hc1 : (1 <= c)%nat.
Hypothesis Hca : (c <= length after)%nat.

Let chunk : str := take c after.
Let ss : nat := (length before - length after)%nat.
Let M : nat := (length before - ss)%nat.

(** What the loop answers: [Some r] with the longest overlap of at least [c]
    bytes cut off, or [None] when there is no such overlap. *)
Definition scan_result (res : option str) : Prop :=
  match res with
  | Some r => exists k, (c <= k)%nat /\ ov before after k /\
                        (forall j, (k < j <= M)%nat -> ~ ov before after j) /\
                        r = drop k after
  | None => forall k, (c <= k <= M)%nat -> ~ ov before after k
  end.

Lemma no_chunk_no_ov (pos k : nat) :
  (c <= k)%nat -> (k <= length before)%nat -> pos = (length before - k)%nat ->
  HasPrefix (drop pos before) chunk = false -> ~ ov before after k.
Proof.
  intros Hck Hkb -> Hp Hov.
  pose proof (ov_chunk before after k c Hov Hck) as Ht.
  unfold chunk in Hp. congruence.
Qed.

Lemma scanLoop_spec : forall (fuel off : nat),
  (ss + off <= length before)%nat ->
  (length before - (ss + off) < fuel)%nat ->
  (forall k, (length before - (ss + off) < k <= M)%nat -> (c <= k)%nat ->
             ~ ov before after k) ->
  exists res,
    scanLoop fuel before after chunk (Z.of_nat ss) (drop (ss + off) before)
             (Z.of_nat off) = Returns res /\
    scan_result res.
Proof.
  induction fuel as [|fuel IH]; intros off Hoff Hfuel Hinv; [lia|].
  cbn [scanLoop].
  set (remaining := drop (ss + off) before).
  assert (Hlr : length remaining = (length before - (ss + off))%nat)
    by (unfold remaining; now rewrite length_drop).
  destruct (Index_spec remaining chunk)
    as [[Hn Hall]|(H0 & Hle & Hhit & Hfirst)].
  - rewrite Hn. simpl. exists None. split; [done|].
    intros k [Hck HkM].
    destruct (decide (length before - (ss + off) < k)%nat) as [Hgt|Hle].
    { apply Hinv; [lia|done]. }
    apply (no_chunk_no_ov (length before - k) k); [done|unfold M in HkM; lia|done|].
    specialize (Hall (length remaining - k)%nat ltac:(lia)).
    unfold remaining in Hall. rewrite drop_drop in Hall.
    replace (ss + off + (length (drop (ss + off) before) - k))%nat
      with (length before - k)%nat in Hall; [done|].
    fold remaining. rewrite Hlr. lia.
  - set (idx := Index remaining chunk) in *.
    destruct (Z.eqb_spec idx (-1)) as [He|_]; [lia|].
    set (i := Z.to_nat idx) in *.
    assert (Hidx : idx = Z.of_nat i) by (unfold i; lia).
    assert (Hfit : (c <= length remaining - i)%nat).
    { apply HasPrefix_take in Hhit. apply (f_equal length) in Hhit.
      unfold chunk in Hhit. rewrite !length_take, length_drop in Hhit. lia. }
    set (k := (length before - (ss + off + i))%nat).
    assert (Hk : len before - (Z.of_nat ss + Z.of_nat off + idx) = Z.of_nat k).
    { unfold len, k. lia. }
    rewrite Hk.
    assert (Hka : (k <= length after)%nat) by (unfold k, ss; lia).
    assert (Hge : (len after >=? Z.of_nat k) = true).
    { apply Z.geb_le. unfold len. lia. }
    rewrite Hge.
    rewrite slice_to_ok by (unfold len; lia).
    rewrite slice_from_ok by (unfold len; lia).
    cbn [obind]. rewrite Nat2Z.id.
    replace (Z.to_nat (Z.of_nat ss + Z.of_nat off + idx)) with (ss + off + i)%nat by lia.
    assert (Hpos : (length before - k = ss + off + i)%nat) by (unfold k; lia).
    assert (Hbetween : forall j, (k < j <= length before - (ss + off))%nat ->
                                 ~ ov before after j).
    { intros j Hj.
      apply (no_chunk_no_ov (length before - j) j); [lia|lia|done|].
      specialize (Hfirst (length remaining - j)%nat ltac:(lia)).
      unfold remaining in Hfirst. rewrite drop_drop in Hfirst.
      replace (ss + off + (length (drop (ss + off) before) - j))%nat
        with (length before - j)%nat in Hfirst; [done|].
      fold remaining. rewrite Hlr. lia. }
    destruct (streq (take k after) (drop (ss + off + i) before)) eqn:Heq.
    + rewrite slice_from_ok by (unfold len; lia). cbn [obind]. rewrite Nat2Z.id.
      exists (Some (drop k after)). split; [done|].
      exists k. split; [lia|]. split.
      { apply streq_true in Heq. unfold ov. rewrite Hpos. repeat split; [lia|lia|done]. }
      split; [|done]. intros j Hj.
      destruct (decide (length before - (ss + off) < j)%nat) as [Hgt|Hle'].
      * apply Hinv; lia.
      * apply Hbetween. lia.
    + rewrite slice_from_ok by (unfold len; lia). cbn [obind].
      replace (Z.to_nat (idx + 1)) with (S i) by lia.
      replace (Z.of_nat off + (idx + 1)) with (Z.of_nat (off + S i)) by lia.
      unfold remaining. rewrite drop_drop.
      replace (ss + off + S i)%nat with (ss + (off + S i))%nat by lia.
      apply IH; [lia|lia|].
      intros j Hj Hcj.
      destruct (decide (length before - (ss + off) < j)%nat) as [Hgt|Hle'].
      { apply Hinv; [lia|done]. }
      destruct (decide (j = k)) as [->|Hne].
      { intros (_ & _ & Hov). rewrite Hpos in Hov.
        assert (streq (take k after) (drop (ss + off + i) before) = true)
          by now apply streq_true.
        congruence. }
      apply Hbetween. unfold k in *. lia.
Qed.

End ScanLoop.

(** *** The fallback loop *)

Lemma fallback_spec before after : forall k,
  (k <= length before)%nat -> (k <= length after)%nat ->
  fallbackLoop before after k =
  Returns (let j := longestOverlapFrom before after k in
           if (j =? 0)%nat then None else Some (drop j after)).
Proof.
  induction k as [|k IH]; intros Hkb Hka; [done|].
  cbn [fallbackLoop longestOverlapFrom].
  rewrite slice_from_ok by (unfold len; lia).
  rewrite slice_to_ok by (unfold len; lia). cbn [obind].
  replace (Z.to_nat (len before - Z.of_nat (S k))) with (length before - S k)%nat
    by (unfold len; lia).
  rewrite Nat2Z.id.
  assert (Ho : overlapAt before after (S k)
               = streq (drop (length before - S k) before) (take (S k) after)).
  { unfold overlapAt. rewrite !bool_decide_eq_true_2 by done. done. }
  rewrite Ho. destruct (streq _ _).
  - rewrite slice_from_ok by (unfold len; lia). cbn [obind]. now rewrite Nat2Z.id.
  - apply IH; lia.
Qed.

Lemma fallback_panics before after k :
  (length before < S k)%nat -> fallbackLoop before after (S k) = Panics.
Proof.
  intros H. cbn [fallbackLoop].
  rewrite slice_from_neg by (unfold len; lia). done.
Qed.

(** *** What [extractNewOutput] computes *)

(** [after] starts with [before]: the test of the fast path. *)
Definition appended (before after : str) : bool :=
  (len after >=? len before) && streq (take (length before) after) before.

Lemma nonempty_streq (s : str) : s <> [] -> streq s [] = false.
Proof. intros H. destruct s; [done|reflexivity]. Qed.

Section Scrolled.
Variables before after : str.
Hypothesis Hb : before <> [].
Hypothesis Ha : after <> [].
Hypothesis Hfast : appended before after = false.

Let ss : nat := (length before - length after)%nat.

Lemma extract_unfold :
  extractNewOutput before after =
  let c := Nat.min 40 (length after) in
  let* found := scanLoop (S (length (drop ss before))) before after (take c after)
                         (Z.of_nat ss) (drop ss before) 0 in
  match found with
  | Some r => Returns r
  | None =>
      let* found' := (if len after >? chunkSize
                      then fallbackLoop before after (Z.to_nat (chunkSize - 1))
                      else Returns None) in
      match found' with
      | Some r => Returns r
      | None => Returns after
      end
  end.
Proof.
  unfold extractNewOutput.
  rewrite (nonempty_streq before Hb), (nonempty_streq after Ha).
  assert (Hf : (if len after >=? len before
                then let* p := slice_to after (len before) in Returns (streq p before)
                else Returns false) = Returns false).
  { unfold appended in Hfast. destruct (len after >=? len before) eqn:Hge; [|done].
    rewrite slice_to_ok by (apply Z.geb_le in Hge; unfold len in *; lia).
    cbn [obind]. unfold len at 1. rewrite Nat2Z.id. simpl in Hfast. now rewrite Hfast. }
  rewrite Hf. cbn [obind].
  assert (Hchunk : (if len after >=? chunkSize then slice_to after chunkSize
                    else Returns after)
                   = Returns (take (Nat.min 40 (length after)) after)).
  { unfold chunkSize. destruct (len after >=? 40) eqn:Hge.
    - apply Z.geb_le in Hge. rewrite slice_to_ok by lia.
      replace (40 `min` length after)%nat with (Z.to_nat 40) by (unfold len in Hge; lia).
      done.
    - rewrite Z.geb_leb in Hge. apply Z.leb_gt in Hge.
      replace (40 `min` length after)%nat with (length after) by (unfold len in Hge; lia).
      now rewrite firstn_all. }
  rewrite Hchunk. cbn [obind].
  assert (Hss : (if len before - len after <? 0 then 0 else len before - len after)
                = Z.of_nat ss).
  { unfold ss, len. destruct (Z.ltb_spec (Z.of_nat (length before) - Z.of_nat (length after)) 0); lia. }
  rewrite Hss. rewrite slice_from_ok by (unfold len, ss; lia).
  cbn [obind]. rewrite Nat2Z.id. reflexivity.
Qed.

Lemma scan_from_start (c : nat) :
  (1 <= c)%nat -> (c <= length after)%nat ->
  exists res,
    scanLoop (S (length (drop ss before))) before after (take c after)
             (Z.of_nat ss) (drop ss before) 0 = Returns res /\
    scan_result before after c res.
Proof.
  intros Hc1 Hca.
  pose proof (scanLoop_spec before after c Hc1 Hca (S (length (drop ss before))) 0)
    as H.
  fold ss in H. rewrite Nat.add_0_r in H. apply H.
  - unfold ss. lia.
  - rewrite length_drop. lia.
  - intros k Hk. lia.
Qed.

Lemma min_overlap :
  (length before - ss = Nat.min (length before) (length after))%nat.
Proof. unfold ss. lia. Qed.

(** With more than 40 bytes after and at least 39 before, the longest
    overlap is found. *)
Lemma extract_long :
  (40 < length after)%nat -> (39 <= length before)%nat ->
  extractNewOutput before after = Returns (extract_spec before after).
Proof.
  intros Hla Hlb. rewrite extract_unfold. cbv zeta.
  replace (40 `min` length after)%nat with 40%nat by lia.
  destruct (scan_from_start 40 ltac:(lia) ltac:(lia)) as (res & -> & Hres).
  cbn [obind]. unfold extract_spec, longestOverlap. rewrite <- min_overlap.
  destruct res as [r|].
  - destruct Hres as (k & Hck & Hov & Hno & ->).
    f_equal. f_equal. symmetry. apply longest_is; [|done|done].
    destruct Hov as (? & ? & _). fold ss. unfold ss. lia.
  - assert (Hgt : (len after >? chunkSize) = true).
    { apply Z.gtb_gt. unfold len, chunkSize. lia. }
    rewrite Hgt. change (Z.to_nat (chunkSize - 1)) with 39%nat.
    rewrite fallback_spec by lia. cbn [obind]. cbv zeta.
    rewrite (longest_skip before after 39 (length before - ss))
      by (fold ss; unfold ss; (lia || (intros j Hj; apply Hres; lia))).
    destruct (longestOverlapFrom before after 39 =? 0)%nat eqn:Hz; [|done].
    apply Nat.eqb_eq in Hz. now rewrite Hz.
Qed.

(** With at most 40 bytes after, only an overlap that is all of [after] is
    found; any shorter overlap is missed and [after] is returned whole. *)
Lemma extract_short :
  (length after <= 40)%nat ->
  extractNewOutput before after =
  Returns (if overlapAt before after (length after) then [] else after).
Proof.
  intros Hla. rewrite extract_unfold. cbv zeta.
  replace (40 `min` length after)%nat with (length after) by lia.
  assert (Hpos : (1 <= length after)%nat).
  { destruct after; [done|simpl; lia]. }
  destruct (scan_from_start (length after) Hpos ltac:(lia)) as (res & -> & Hres).
  cbn [obind]. destruct res as [r|].
  - destruct Hres as (k & Hck & Hov & Hno & ->).
    assert (k = length after) as -> by (destruct Hov as (_ & ? & _); lia).
    apply overlapAt_ov in Hov. rewrite Hov. now rewrite drop_all.
  - assert (Hgt : (len after >? chunkSize) = false).
    { rewrite Z.gtb_ltb. apply Z.ltb_ge. unfold len, chunkSize. lia. }
    rewrite Hgt. cbn [obind].
    assert (Hno : overlapAt before after (length after) = false).
    { apply overlapAt_not_ov. intros Hov. apply (Hres (length after)); [|done].
      destruct Hov as (? & _ & _). fold ss. unfold ss. lia. }
    now rewrite Hno.
Qed.

(** With more than 40 bytes after and fewer than 39 before, the fallback
    slices [before] below its start. *)
Lemma extract_panics :
  (40 < length after)%nat -> (length before < 39)%nat ->
  extractNewOutput before after = Panics.
Proof.
  intros Hla Hlb. rewrite extract_unfold. cbv zeta.
  replace (40 `min` length after)%nat with 40%nat by lia.
  destruct (scan_from_start 40 ltac:(lia) ltac:(lia)) as (res & -> & Hres).
  cbn [obind]. destruct res as [r|].
  - destruct Hres as (k & Hck & (Hkb & _) & _). lia.
  - assert (Hgt : (len after >? chunkSize) = true).
    { apply Z.gtb_gt. unfold len, chunkSize. lia. }
    rewrite Hgt. change (Z.to_nat (chunkSize - 1)) with 39%nat.
    now rewrite fallback_panics by lia.
Qed.

End Scrolled.

Lemma extract_appended before after :
  appended before after = true ->
  extractNewOutput before after = Returns (drop (length before) after).
Proof.
  intros H. unfold appended in H. apply andb_true_iff in H as [Hge Heq].
  apply streq_true in Heq.
  rewrite <- (take_drop (length before) after) at 1. rewrite Heq.
  apply extract_append.
Qed.

(** The loop of the model never runs out of fuel. *)
Lemma extract_total before after : extractNewOutput before after <> OutOfFuel.
Proof.
  destruct before as [|b0 before]; [done|].
  destruct after as [|a0 after]; [done|].
  destruct (appended (b0 :: before) (a0 :: after)) eqn:Hf.
  { now rewrite extract_appended. }
  destruct (le_lt_dec (length (a0 :: after)) 40) as [Hs|Hl].
  { now rewrite extract_short. }
  destruct (le_lt_dec 39 (length (b0 :: before))) as [Hb|Hb].
  - now rewrite extract_long.
  - now rewrite extract_panics.
Qed.

(** *** Scrolled output *)

Definition scroll_before : str :=
  lit "LINE1" ++ [LF] ++ lit "LINE2" ++ [LF] ++ lit "LINE3" ++ [LF].
Definition scroll_after : str :=
  lit "LINE2" ++ [LF] ++ lit "LINE3" ++ [LF] ++ lit "LINE4" ++ [LF].

(** A short prompt before, and forty-one bytes of fresh output after. *)
Definition prompt_before : str := lit "$ ".
Definition fresh_after : str := lit "Compiling project: 12 of 57 files done...".

Example no_overlap :
  extractNewOutput (lit "AAAA") (lit "BBBB") = Returns (lit "BBBB") /\
  extract_spec (lit "AAAA") (lit "BBBB") = lit "BBBB".
Proof. vm_compute. split; reflexivity. Qed.

(** C1.  On the scrolled snapshots of the specification the longest suffix
    of [before] that is a prefix of [after] is "LINE2\nLINE3\n", so that
    "LINE4\n" is the new output; [extractNewOutput] returns the whole of
    [after].  With a [before] shorter than 39 bytes that is not a prefix of
    an [after] longer than 40 bytes it does not return at all: the fallback
    slices [before] at a negative index. *)
Theorem scroll_overlap_missed :
  longestOverlap scroll_before scroll_after = 12%nat /\
  extract_spec scroll_before scroll_after = lit "LINE4" ++ [LF] /\
  extractNewOutput scroll_before scroll_after = Returns scroll_after /\
  extract_spec prompt_before fresh_after = fresh_after /\
  extractNewOutput prompt_before fresh_after = Panics.
Proof. vm_compute. repeat split. Qed.

End PipelineProps.

Module DetectorProps.
Import GoStrings Detector.

Lemma contains_idle (scrollback agentType p : str) :
  p ∈ idlePatterns ->
  Contains (TrimSpace (List.last (SplitByte scrollback LF) [])) p = true ->
  determineAgentState scrollback agentType = "idle"%string.
Proof.
  intros Hp Hc. unfold determineAgentState.
  destruct (length _ =? 0)%nat eqn:Hl.
  { apply Nat.eqb_eq in Hl. destruct scrollback as [|c s]; simpl in Hl; [done|].
    destruct (Ascii.eqb c LF); [done|]. now destruct (SplitByte s LF). }
  set (test := fun p => _). assert (He : existsb test idlePatterns = true).
  { apply existsb_exists. exists p. split; [now apply list_elem_of_In|].
    unfold test. rewrite Hc. apply orb_true_r. }
  now rewrite He.
Qed.

(** C2.  A tail that ends in the prompt "user@host:~$ " is classified idle;
    a tail that ends in "cost is $5 for this" is classified idle as well,
    not working: every pattern is also looked for anywhere in the last line
    ([strings.Contains]), so that the "$" in the middle of the line counts
    as a prompt. *)
Theorem inline_dollar_is_idle :
  determineAgentState (lit "user@host:~$ ") (lit "claude") = "idle"%string /\
  determineAgentState (lit "cost is $5 for this") (lit "claude") = "idle"%string /\
  determineAgentState (lit "Thinking..." ++ [LF] ++ lit "cost is $5 for this")
                      (lit "codex") = "idle"%string /\
  determineAgentState (lit "still running command") (lit "claude") = "working"%string.
Proof. vm_compute. repeat split. Qed.

End DetectorProps.

Module CoordinatorProps.
Import Coordinator.
Local Open Scope string_scope.

Section WithPersona.
Context {Persona : Type}.
Variable profileTagBonus : Persona -> string -> float -> float.
Variable focusPatternBonus : Persona -> string -> float -> float.

Abbreviation scoreAssignment' := (scoreAssignment profileTagBonus focusPatternBonus).
Abbreviation candidatesOf' := (candidatesOf profileTagBonus focusPatternBonus).
Abbreviation ScoreAndSelectAssignments' :=
  (ScoreAndSelectAssignments profileTagBonus focusPatternBonus).

Definition agentId (s : ScoredAssignment Persona) : string := PaneID (Agent s).
Definition taskId (s : ScoredAssignment Persona) : string := ID (Recommendation s).

(** *** Sorting keeps every property of the candidates *)

Lemma exchange_Forall (P : ScoredAssignment Persona -> Prop) c i j :
  Forall P c -> Forall P (exchange c i j).
Proof.
  intros HP. unfold exchange.
  destruct (c !! i) as [ci|] eqn:Hi; [|done].
  destruct (c !! j) as [cj|] eqn:Hj; [|done].
  destruct (TotalScore ci <? TotalScore cj)%float; [|done].
  apply Forall_insert; [apply Forall_insert|]; try done.
  - eapply Forall_lookup_1; eauto.
  - eapply Forall_lookup_1; eauto.
Qed.

Lemma sort_Forall (P : ScoredAssignment Persona -> Prop) c :
  Forall P c -> Forall P (sortScoredAssignments c).
Proof.
  unfold sortScoredAssignments. generalize (length c) as n. intros n.
  generalize (seq 0 (n - 1)) as idxs. intros idxs. revert c.
  induction idxs as [|i idxs IH]; intros c HP; simpl; [done|].
  apply IH. generalize (seq (S i) (n - S i)) as js. intros js.
  revert c HP. induction js as [|j js IHj]; intros c HP; simpl; [done|].
  apply IHj. now apply exchange_Forall.
Qed.

(** *** What every candidate satisfies *)

Definition candidate_ok (idleAgents : list (AgentState Persona))
           (recommendations : list TriageRecommendation)
           (config : ScoreConfig) (reservations : gmap string (list string))
           (s : ScoredAssignment Persona) : Prop :=
  (0 <? TotalScore s)%float = true /\
  Status (Recommendation s) <> "blocked" /\
  Recommendation s ∈ recommendations /\
  Agent s ∈ idleAgents /\
  s = scoreAssignment' (Agent s) (Recommendation s) config reservations.

Lemma score_rec agent rec config reservations :
  Recommendation (scoreAssignment' agent rec config reservations) = rec.
Proof.
  unfold scoreAssignment.
  destruct (UseAgentProfiles config), (Profile agent); reflexivity.
Qed.

Lemma score_agent agent rec config reservations :
  Agent (scoreAssignment' agent rec config reservations) = agent.
Proof.
  unfold scoreAssignment.
  destruct (UseAgentProfiles config), (Profile agent); reflexivity.
Qed.

Lemma score_assignment agent rec config reservations :
  let s := scoreAssignment' agent rec config reservations in
  BeadID (Assignment s) = ID rec /\
  AgentPaneID (Assignment s) = PaneID agent /\
  WScore (Assignment s) = TotalScore s.
Proof.
  unfold scoreAssignment.
  destruct (UseAgentProfiles config), (Profile agent); repeat split.
Qed.

Lemma candidatesOf_ok idleAgents recommendations config reservations agent :
  agent ∈ idleAgents ->
  Forall (candidate_ok idleAgents recommendations config reservations)
         (candidatesOf' config reservations recommendations agent).
Proof.
  intros Hagent. unfold candidatesOf.
  set (ok := candidate_ok idleAgents recommendations config reservations).
  set (step := fun candidates rec => _).
  assert (Haux : forall recs acc,
             Forall (fun r => r ∈ recommendations) recs ->
             Forall ok acc -> Forall ok (foldl step acc recs)).
  { induction recs as [|rec recs IH]; intros acc Hsub Hacc; simpl; [done|].
    apply Forall_cons in Hsub as [Hin Hsub].
    apply IH; [done|]. unfold step.
    destruct (String.eqb_spec (Status rec) "blocked") as [Hb|Hb]; [done|].
    destruct (0 <? TotalScore (scoreAssignment' agent rec config reservations))%float
      eqn:Hpos; [|done].
    apply Forall_app; split; [done|].
    apply Forall_singleton. unfold ok, candidate_ok.
    rewrite !score_rec, !score_agent. repeat split; auto. }
  apply Haux; [|apply Forall_nil_2]. apply Forall_forall; auto.
Qed.

Lemma candidates_ok idleAgents recommendations config reservations :
  Forall (candidate_ok idleAgents recommendations config reservations)
         (foldl (fun candidates agent =>
                   (candidates ++
                    candidatesOf' config reservations recommendations agent)%list)
                [] idleAgents).
Proof.
  set (ok := candidate_ok idleAgents recommendations config reservations).
  set (step := fun candidates agent => _).
  assert (Haux : forall agents acc,
             Forall (fun a => a ∈ idleAgents) agents ->
             Forall ok acc -> Forall ok (foldl step acc agents)).
  { induction agents as [|agent agents IH]; intros acc Hsub Hacc; simpl; [done|].
    apply Forall_cons in Hsub as [Hin Hsub].
    apply IH; [done|]. unfold step.
    apply Forall_app; split; [done|]. now apply candidatesOf_ok. }
  apply Haux; [|apply Forall_nil_2]. apply Forall_forall; auto.
Qed.

(** *** The selection loop *)

Definition select_inv (P : ScoredAssignment Persona -> Prop)
  (st : list (ScoredAssignment Persona) * gmap string bool * gmap string bool)
  : Prop :=
  let '(selected, assignedAgents, assignedTasks) := st in
  NoDup (map agentId selected) /\
  NoDup (map taskId selected) /\
  (forall k, default false (assignedAgents !! k) = true <-> k ∈ map agentId selected) /\
  (forall k, default false (assignedTasks !! k) = true <-> k ∈ map taskId selected) /\
  Forall P selected.

Lemma mark_lookup (m : gmap string bool) (k k' : string) :
  default false (<[k := true]> m !! k') = true <->
  k' = k \/ default false (m !! k') = true.
Proof.
  destruct (decide (k' = k)) as [->|Hne].
  - rewrite lookup_insert_eq. simpl. tauto.
  - rewrite lookup_insert_ne by done. split; [tauto|]. intros [?|?]; done.
Qed.

Lemma selectStep_inv P st candidate :
  P candidate -> select_inv P st -> select_inv P (selectStep st candidate).
Proof.
  destruct st as [[selected ma] mt]. intros HP (Ha & Ht & Hma & Hmt & Hsel).
  unfold selectStep. fold (agentId candidate). fold (taskId candidate).
  destruct (default false (ma !! agentId candidate)) eqn:Hca; simpl.
  { repeat split; auto; apply Hma || apply Hmt. }
  destruct (default false (mt !! taskId candidate)) eqn:Hct; simpl.
  { repeat split; auto; apply Hma || apply Hmt. }
  assert (Hna : agentId candidate ∉ map agentId selected).
  { intros Hin. apply Hma in Hin. congruence. }
  assert (Hnt : taskId candidate ∉ map taskId selected).
  { intros Hin. apply Hmt in Hin. congruence. }
  rewrite !map_app. simpl. repeat split.
  - apply NoDup_app. repeat split; [done| |apply NoDup_singleton].
    intros x Hx Hx'. apply list_elem_of_singleton in Hx'. now subst.
  - apply NoDup_app. repeat split; [done| |apply NoDup_singleton].
    intros x Hx Hx'. apply list_elem_of_singleton in Hx'. now subst.
  - rewrite mark_lookup, elem_of_app, list_elem_of_singleton, Hma. tauto.
  - rewrite elem_of_app, list_elem_of_singleton, <- Hma.
    intros H. apply mark_lookup. tauto.
  - rewrite mark_lookup, elem_of_app, list_elem_of_singleton, Hmt. tauto.
  - rewrite elem_of_app, list_elem_of_singleton, <- Hmt.
    intros H. apply mark_lookup. tauto.
  - apply Forall_app. split; [done|]. now apply Forall_singleton.
Qed.

Lemma select_loop_inv P candidates st :
  Forall P candidates -> select_inv P st ->
  select_inv P (foldl selectStep st candidates).
Proof.
  revert st. induction candidates as [|c cs IH]; intros st HP Hinv; simpl; [done|].
  apply Forall_cons in HP as [Hc Hcs].
  apply IH; [done|]. now apply selectStep_inv.
Qed.

Lemma select_inv_init P : select_inv P ([], ∅, ∅).
Proof.
  repeat split; simpl; try apply NoDup_nil_2; try apply Forall_nil_2;
    try (rewrite lookup_empty; simpl; discriminate);
    try (intros H; now apply elem_of_nil in H).
Qed.

Lemma selected_ok idleAgents triage config reservations :
  let selected := ScoreAndSelectAssignments' idleAgents triage config reservations in
  NoDup (map agentId selected) /\
  NoDup (map taskId selected) /\
  forall recommendations, triage = Some recommendations ->
    Forall (candidate_ok idleAgents recommendations config reservations) selected.
Proof.
  unfold ScoreAndSelectAssignments.
  destruct triage as [recommendations|]; simpl.
  2:{ repeat split; try apply NoDup_nil_2. intros ? [=]. }
  destruct ((length idleAgents =? 0)%nat || (length recommendations =? 0)%nat).
  { repeat split; try apply NoDup_nil_2. intros ? _. apply Forall_nil_2. }
  pose proof (candidates_ok idleAgents recommendations config reservations) as Hc.
  apply sort_Forall in Hc.
  pose proof (select_loop_inv _ _ _ Hc (select_inv_init _)) as Hinv.
  destruct (foldl selectStep _ _) as [[selected ma] mt].
  destruct Hinv as (Ha & Ht & _ & _ & Hsel).
  repeat split; auto. intros ? [= <-]. done.
Qed.

(** C3.  Whatever the idle agents, the triage response, the configuration
    and the reservation map, [ScoreAndSelectAssignments] returns at most one
    assignment per agent pane id and at most one per work-item id, and the
    total score of every selected assignment is strictly positive. *)
Theorem select_one_per_agent_and_task
        (idleAgents : list (AgentState Persona))
        (triage : option (list TriageRecommendation))
        (config : ScoreConfig) (reservations : gmap string (list string)) :
  let selected := ScoreAndSelectAssignments' idleAgents triage config reservations in
  NoDup (map (fun s => PaneID (Agent s)) selected) /\
  NoDup (map (fun s => ID (Recommendation s)) selected) /\
  NoDup (map (fun s => AgentPaneID (Assignment s)) selected) /\
  NoDup (map (fun s => BeadID (Assignment s)) selected) /\
  Forall (fun s => (0 <? TotalScore s)%float = true /\
                   WScore (Assignment s) = TotalScore s) selected.
Proof.
  intros selected.
  destruct (selected_ok idleAgents triage config reservations) as (Ha & Ht & Hok).
  fold selected in Ha, Ht, Hok.
  assert (Hall : Forall (fun s =>
             (0 <? TotalScore s)%float = true /\
             BeadID (Assignment s) = ID (Recommendation s) /\
             AgentPaneID (Assignment s) = PaneID (Agent s) /\
             WScore (Assignment s) = TotalScore s) selected).
  { destruct triage as [recommendations|]; [|apply Forall_nil_2].
    eapply Forall_impl; [exact (Hok _ eq_refl)|].
    intros s (Hpos & _ & _ & _ & Hs). split; [done|].
    pose proof (score_assignment (Agent s) (Recommendation s) config reservations)
      as H.
    cbv zeta in H. rewrite <- Hs in H. exact H. }
  assert (Hag : map (fun s => AgentPaneID (Assignment s)) selected
                = map agentId selected).
  { apply Forall_fmap_ext_1. eapply Forall_impl; [exact Hall|].
    intros s (_ & _ & H & _). exact H. }
  assert (Htk : map (fun s => BeadID (Assignment s)) selected
                = map taskId selected).
  { apply Forall_fmap_ext_1. eapply Forall_impl; [exact Hall|].
    intros s (_ & H & _ & _). exact H. }
  rewrite Hag, Htk. repeat split; try done.
  eapply Forall_impl; [exact Hall|]. intros s (? & _ & _ & ?). done.
Qed.

(** *** findBestMatch *)

Definition unblocked (r : TriageRecommendation) : bool :=
  negb (String.eqb (Status r) "blocked").

Definition firstUnblocked (recs : list TriageRecommendation)
  : option TriageRecommendation := List.find unblocked recs.

Definition assignmentFor (agent : AgentState Persona) (r : TriageRecommendation)
  : WorkAssignment :=
  {| BeadID := ID r;
     BeadTitle := Title r;
     AgentPaneID := PaneID agent;
     AgentMailName := AMailName agent;
     AgentType := AAgentType agent;
     WPriority := Priority r;
     WScore := Score r |}.

Lemma findBestMatch_first (agent : AgentState Persona) recs :
  findBestMatch agent recs =
  option_map (fun r => (assignmentFor agent r, r)) (firstUnblocked recs).
Proof.
  unfold findBestMatch, firstUnblocked.
  induction recs as [|r recs IH]; simpl; [done|].
  unfold unblocked at 1.
  destruct (String.eqb (Status r) "blocked"); simpl; [exact IH|].
  unfold assignmentFor.
  destruct (String.eqb_spec (AMailName agent) "") as [He|He]; simpl; [|done].
  now rewrite He.
Qed.

Lemma firstUnblocked_Some recs r :
  firstUnblocked recs = Some r -> r ∈ recs /\ Status r <> "blocked".
Proof.
  intros H. apply find_some in H as [Hin Hu].
  split; [now apply list_elem_of_In|].
  unfold unblocked in Hu. intros Hb. rewrite Hb in Hu. discriminate.
Qed.

Lemma firstUnblocked_None recs :
  firstUnblocked recs = None -> Forall (fun r => Status r = "blocked") recs.
Proof.
  intros H. apply Forall_forall. intros r Hin.
  apply list_elem_of_In in Hin. pose proof (find_none _ _ H r Hin) as Hu.
  unfold unblocked in Hu. apply negb_false_iff in Hu.
  now apply String.eqb_eq.
Qed.

(** C4.  A recommendation whose status is "blocked" is never selected:
    no assignment returned by [ScoreAndSelectAssignments] is for a blocked
    work item, and the recommendation that [findBestMatch] returns is a
    member of the list that is not blocked ([findBestMatch] returning nothing
    exactly when every recommendation is blocked). *)
Theorem blocked_never_selected :
  (forall (idleAgents : list (AgentState Persona))
          (triage : option (list TriageRecommendation))
          (config : ScoreConfig) (reservations : gmap string (list string)),
      Forall (fun s => Status (Recommendation s) <> "blocked" /\
                       Recommendation s ∈ default [] triage)
             (ScoreAndSelectAssignments' idleAgents triage config reservations)) /\
  (forall (agent : AgentState Persona) (recs : list TriageRecommendation),
      match findBestMatch agent recs with
      | Some (assignment, rec) =>
          Status rec <> "blocked" /\ rec ∈ recs /\ BeadID assignment = ID rec
      | None => Forall (fun r => Status r = "blocked") recs
      end).
Proof.
  split.
  - intros idleAgents triage config reservations.
    destruct (selected_ok idleAgents triage config reservations) as (_ & _ & Hok).
    destruct triage as [recommendations|]; [|apply Forall_nil_2].
    eapply Forall_impl; [exact (Hok _ eq_refl)|].
    intros s (_ & Hb & Hin & _). split; done.
  - intros agent recs. rewrite findBestMatch_first.
    destruct (firstUnblocked recs) as [r|] eqn:Hf; simpl.
    + apply firstUnblocked_Some in Hf as [Hin Hb]. done.
    + now apply firstUnblocked_None.
Qed.

(** *** AssignWork *)

Lemma attemptAssignment_assignment mailClient assignment rec :
  RAssignment (attemptAssignment mailClient assignment rec) = assignment.
Proof.
  unfold attemptAssignment. destruct mailClient as [send|]; [|done].
  destruct (negb _); [|done]. now destruct (send assignment rec).
Qed.

Lemma removeRecommendation_sublist recs id :
  removeRecommendation recs id `sublist_of` recs.
Proof.
  unfold removeRecommendation. induction recs as [|r recs IH]; simpl; [done|].
  destruct (negb _); [now apply sublist_skip | now apply sublist_cons].
Qed.

(** A result of the auto-assignment path: the assignment built, for one of
    the idle agents, from the first recommendation in list order that is not
    blocked, of what is left of the recommendation list. *)
Definition first_unblocked_result (idleAgents : list (AgentState Persona))
           (recommendations : list TriageRecommendation)
           (result : AssignmentResult) : Prop :=
  exists agent remaining rec,
    agent ∈ idleAgents /\
    remaining `sublist_of` recommendations /\
    firstUnblocked remaining = Some rec /\
    RAssignment result = assignmentFor agent rec /\
    WScore (RAssignment result) = Score rec.

Lemma assignLoop_first_unblocked mailClient idleAgents recommendations :
  forall agents remaining results,
    Forall (fun a => a ∈ idleAgents) agents ->
    remaining `sublist_of` recommendations ->
    Forall (first_unblocked_result idleAgents recommendations) results ->
    Forall (first_unblocked_result idleAgents recommendations)
           (assignLoop mailClient agents remaining results).
Proof.
  induction agents as [|agent agents IH]; intros remaining results Hag Hsub Hres;
    simpl; [done|].
  apply Forall_cons in Hag as [Hin Hag].
  destruct (length remaining =? 0)%nat; [done|].
  rewrite findBestMatch_first.
  destruct (firstUnblocked remaining) as [rec|] eqn:Hf; simpl; [|now apply IH].
  assert (Hnew : Forall (first_unblocked_result idleAgents recommendations)
                   (results ++ [attemptAssignment mailClient
                                  (assignmentFor agent rec) rec])).
  { apply Forall_app. split; [done|]. apply Forall_singleton.
    exists agent, remaining, rec.
    rewrite attemptAssignment_assignment. done. }
  destruct (Success _); apply IH; try done.
  etransitivity; [apply removeRecommendation_sublist|done].
Qed.


End WithPersona.

(** *** The context penalty *)

(** The smallest positive [float64] values, 2^-1073 and 2^-1074. *)
Definition tinyUsage : float := 0x1p-1073%float.
Definition tinyThreshold : float := 0x1p-1074%float.

(** A whole percentage as a [float64]. *)
Definition pct (n : nat) : float := PrimFloat.of_uint63 (Uint63.of_Z (Z.of_nat n)).

Example context_penalty_tests :
  computeContextPenalty 50 80 = 0%float /\
  computeContextPenalty 80 80 = 0%float /\
  computeContextPenalty 90 80 = (10 / 100 * 0.5)%float /\
  (0.04 <? computeContextPenalty 90 80)%float = true /\
  (computeContextPenalty 90 80 <? 0.06)%float = true /\
  (0.09 <? computeContextPenalty 100 80)%float = true /\
  (computeContextPenalty 100 80 <? 0.11)%float = true.
Proof. vm_compute. repeat split. Qed.


Definition penalty_grid : bool :=
  forallb (fun u =>
             forallb (fun t =>
                        if (t <? u)%nat
                        then (0 <? computeContextPenalty (pct u) (pct t))%float
                             && negb (computeContextPenalty (pct u) (pct t) =? 0)%float
                        else (computeContextPenalty (pct u) (pct t) =? 0)%float)
                     (seq 0 101))
          (seq 0 101).

Lemma penalty_grid_ok : penalty_grid = true.
Proof. vm_compute. reflexivity. Qed.



(** *** The scorer on the scenario of the specification *)

Definition noBonus : Empty_set -> string -> float -> float := fun _ _ _ => 0%float.

Definition agentA : AgentState Empty_set :=
  mkAgent "%1" "cc" "" 30%float [] None.
Definition agentB : AgentState Empty_set :=
  mkAgent "%2" "cod" "" 50%float [] None.
Definition W1 : TriageRecommendation :=
  mkRec "W1" "Epic task" "epic" "open" 2 0.8%float None [] [].
Definition W2 : TriageRecommendation :=
  mkRec "W2" "Quick fix" "chore" "open" 2 0.6%float None [] [].
Definition W3 : TriageRecommendation :=
  mkRec "W3" "Blocked" "task" "blocked" 2 0.9%float None [] [].

Example scorer_scenario :
  map (fun s => (ID (Recommendation s), PaneID (Agent s)))
      (ScoreAndSelectAssignments noBonus noBonus [agentA; agentB]
         (Some [W1; W2; W3]) DefaultScoreConfig ∅)
  = [("W1", "%1"); ("W2", "%2")].
Proof. vm_compute. reflexivity. Qed.

(** The two paths disagree: for a codex agent and two open items of equal
    base score, the auto-assignment path takes the first one, the epic, at
    its base score; the scorer takes the chore. *)
Definition E1 : TriageRecommendation :=
  mkRec "E1" "Big epic" "epic" "open" 2 0.5%float None [] [].
Definition Q1 : TriageRecommendation :=
  mkRec "Q1" "Quick chore" "chore" "open" 2 0.5%float None [] [].

Example paths_disagree :
  option_map (fun ar => (BeadID (fst ar), WScore (fst ar)))
             (findBestMatch agentB [E1; Q1]) = Some ("E1", 0.5%float) /\
  map (fun s => ID (Recommendation s))
      (ScoreAndSelectAssignments noBonus noBonus [agentB]
         (Some [E1; Q1]) DefaultScoreConfig ∅) = ["Q1"].
Proof. vm_compute. split; reflexivity. Qed.

Example assign_work_scenario :
  match AssignWork true None [agentA; agentB] (TriageOk [W3; W2; W1]) with
  | inl results => map (fun r => (BeadID (RAssignment r), AgentPaneID (RAssignment r),
                                  WScore (RAssignment r))) results
  | inr _ => []
  end = [("W2", "%1", 0.6%float); ("W1", "%2", 0.8%float)].
Proof. vm_compute. reflexivity. Qed.

End CoordinatorProps.

Module RedactionProps.
Import GoStrings Redaction.

(** *** SHA-256 on the test vectors of FIPS 180-4 *)

Example sha256_abc :
  Sha256.EncodeToString (Sha256.Sum256 (lit "abc")) =
  lit "ba7816bf8f01cfea414140de5dae2223b00361a396177a9cb410ff61f20015ad".
Proof. vm_compute. reflexivity. Qed.

Example sha256_two_blocks :
  Sha256.EncodeToString
    (Sha256.Sum256 (lit "abcdbcdecdefdefgefghfghighijhijkijkljklmklmnlmnomnopnopq")) =
  lit "248d6a61d20638b8e5c026930c3e6039a33ce45964ff2167f6ecedd419db06c1".
Proof. vm_compute. reflexivity. Qed.

(** *** The digest has 32 bytes, its hexadecimal form two characters a byte *)

Lemma round_length s kw : length s = 8%nat -> length (Sha256.round s kw) = 8%nat.
Proof.
  intros H. do 9 (destruct s as [|? s]; try discriminate H). reflexivity.
Qed.

Lemma rounds_length kws : forall s,
  length s = 8%nat -> length (fold_left Sha256.round kws s) = 8%nat.
Proof.
  induction kws as [|kw kws IH]; intros s H; simpl; [done|].
  apply IH. now apply round_length.
Qed.

Lemma compress_length h block :
  length h = 8%nat -> length (Sha256.compress h block) = 8%nat.
Proof.
  intros H. unfold Sha256.compress.
  rewrite length_map, length_combine, rounds_length by done. lia.
Qed.

Lemma blocks_length n : forall h bs,
  length h = 8%nat -> length (Sha256.blocks n h bs) = 8%nat.
Proof.
  induction n as [|n IH]; intros h bs H; simpl; [done|].
  apply IH. now apply compress_length.
Qed.

Lemma Sum256_length data : length (Sha256.Sum256 data) = 32%nat.
Proof.
  unfold Sha256.Sum256.
  pose proof (blocks_length
                (length (Sha256.pad (map (fun c => Z.of_nat (nat_of_ascii c)) data)) / 64)
                Sha256.H0
                (Sha256.pad (map (fun c => Z.of_nat (nat_of_ascii c)) data))
                eq_refl) as H.
  destruct (Sha256.blocks _ _ _) as [|a l]; [discriminate H|].
  do 8 (destruct l as [|? l]; try discriminate H). reflexivity.
Qed.

Lemma EncodeToString_take n : forall bs,
  Sha256.EncodeToString (take n bs) = take (2 * n) (Sha256.EncodeToString bs).
Proof.
  induction n as [|n IH]; intros bs; [done|].
  destruct bs as [|b bs]; [done|].
  replace (2 * S n)%nat with (S (S (2 * n))) by lia.
  simpl. f_equal. f_equal. apply IH.
Qed.

Lemma EncodeToString_length bs :
  length (Sha256.EncodeToString bs) = (2 * length bs)%nat.
Proof.
  induction bs as [|b bs IH]; [done|].
  change (Sha256.EncodeToString (b :: bs))
    with (Sha256.hexdigit (b / 16) :: Sha256.hexdigit (b mod 16)
            :: Sha256.EncodeToString bs).
  simpl length. rewrite IH. lia.
Qed.

(** The first eight hexadecimal characters of the digest of
    ["CATEGORY:" + content]. *)
Definition hash8 (cat : Category) (content : str) : str :=
  take 8 (Sha256.EncodeToString (Sha256.Sum256 (cat ++ lit ":" ++ content))).

Lemma generatePlaceholder_form cat content :
  generatePlaceholder cat content =
  lit "[REDACTED:" ++ cat ++ lit ":" ++ hash8 cat content ++ lit "]".
Proof.
  unfold generatePlaceholder, hash8. now rewrite EncodeToString_take.
Qed.

Lemma hash8_length cat content : length (hash8 cat content) = 8%nat.
Proof.
  unfold hash8. rewrite length_take, EncodeToString_length, Sum256_length. lia.
Qed.

Example placeholder_jwt :
  generatePlaceholder (lit "JWT") (lit "eyJtest") = lit "[REDACTED:JWT:134bd67e]".
Proof. vm_compute. reflexivity. Qed.

(** *** Sorting *)

Lemma insertSorted_Forall {A} (P : A -> Prop) less x l :
  P x -> Forall P l -> Forall P (insertSorted less x l).
Proof.
  intros Hx. induction 1 as [|y l Hy Hl IH]; simpl.
  - now apply Forall_singleton.
  - destruct (less y x); repeat constructor; auto.
Qed.

Lemma sortSlice_Forall {A} (P : A -> Prop) less l :
  Forall P l -> Forall P (sortSlice less l).
Proof.
  induction 1 as [|x l Hx Hl IH]; simpl; [constructor|].
  now apply insertSorted_Forall.
Qed.

Lemma insertSorted_last {A} (less : A -> A -> bool) x l :
  Forall (fun y => less y x = true) l -> insertSorted less x l = l ++ [x].
Proof.
  induction 1 as [|y l Hy Hl IH]; simpl; [done|]. now rewrite Hy, IH.
Qed.

(** *** Overlapping matches *)

Definition generic : rmatch :=
  mkMatch (lit "GENERIC_SECRET") (lit "token=sk-abc123defghijklmnop") 0 28 10.
Definition openai : rmatch :=
  mkMatch (lit "OPENAI_KEY") (lit "sk-abc123defghijklmnop") 6 28 100.

Lemma earlier_start_wins (a b : rmatch) :
  0 <= m_start a -> m_start a < m_start b -> m_start b < m_end a ->
  deduplicateMatches [a; b] = [a] /\ deduplicateMatches [b; a] = [a].
Proof.
  intros H0 Hab Hov.
  assert (Hne : (m_start b =? m_start a) = false) by (apply Z.eqb_neq; lia).
  assert (Hne' : (m_start a =? m_start b) = false) by (apply Z.eqb_neq; lia).
  assert (Hlt : (m_start a <? m_start b) = true) by (apply Z.ltb_lt; lia).
  assert (Hlt' : (m_start b <? m_start a) = false) by (apply Z.ltb_ge; lia).
  assert (Hk : (m_start a <? -1) = false) by (apply Z.ltb_ge; lia).
  assert (Hd : (m_start b <? m_end a) = true) by (apply Z.ltb_lt; lia).
  unfold deduplicateMatches, sortSlice, lessMatch; simpl.
  unfold lessMatch. rewrite Hne, Hne', Hlt, Hlt'. simpl.
  now rewrite Hk, Hd.
Qed.

Lemma same_start_priority_wins (a b : rmatch) :
  0 <= m_start a -> m_start a = m_start b -> m_start a < m_end a ->
  m_priority b < m_priority a ->
  deduplicateMatches [a; b] = [a] /\ deduplicateMatches [b; a] = [a].
Proof.
  intros H0 Hab Hne Hp.
  assert (He : (m_start b =? m_start a) = true) by (apply Z.eqb_eq; lia).
  assert (He' : (m_start a =? m_start b) = true) by (apply Z.eqb_eq; lia).
  assert (Hgt : (m_priority a >? m_priority b) = true) by (apply Z.gtb_gt; lia).
  assert (Hgt' : (m_priority b >? m_priority a) = false).
  { rewrite Z.gtb_ltb. apply Z.ltb_ge. lia. }
  assert (Hk : (m_start a <? -1) = false) by (apply Z.ltb_ge; lia).
  assert (Hd : (m_start b <? m_end a) = true) by (apply Z.ltb_lt; lia).
  unfold deduplicateMatches, sortSlice, lessMatch; simpl.
  unfold lessMatch. rewrite He, He', Hgt, Hgt'. simpl.
  now rewrite Hk, Hd.
Qed.

(** The order in which [sort.Slice] leaves the two matches is forced: it
    does not depend on how the sort treats ties. *)
Lemma sorted_order_forced (l : list rmatch) :
  Permutation [generic; openai] l ->
  (forall i j x y, (i < j)%nat -> l !! i = Some x -> l !! j = Some y ->
                   lessMatch y x = false) ->
  l = [generic; openai].
Proof.
  intros Hp Hs. apply Permutation_length_2_inv in Hp as [->| ->]; [done|].
  specialize (Hs 0%nat 1%nat openai generic). discriminate Hs; auto.
Qed.

(** C7.  Two overlapping matches, the later one of the higher priority:
    the scanner keeps the one that starts earlier and drops the one of
    higher priority, in whichever order the patterns produced them. *)
Theorem overlap_keeps_earlier_start :
  (m_priority generic <? m_priority openai) = true /\
  (m_start openai <? m_end generic) = true /\
  deduplicateMatches [generic; openai] = [generic] /\
  deduplicateMatches [openai; generic] = [generic].
Proof. repeat split. Qed.

(** *** Redaction replaces every match *)

(** The findings lie one after the other from [pos] on, none empty, within
    a text of [bound] bytes. *)
Fixpoint chain (bound pos : Z) (fs : list Finding) : Prop :=
  match fs with
  | [] => pos <= bound
  | f :: fs' => pos <= FStart f /\ FStart f < FEnd f /\ chain bound (FEnd f) fs'
  end.

(** The text from [pos] on with every finding replaced by its placeholder. *)
Fixpoint splice (input : str) (pos : Z) (fs : list Finding) : str :=
  match fs with
  | [] => drop (Z.to_nat pos) input
  | f :: fs' =>
      substring input pos (FStart f) ++ FRedacted f ++ splice input (FEnd f) fs'
  end.

Lemma chain_bounds bound fs : forall pos,
  chain bound pos fs ->
  pos <= bound /\ Forall (fun g => pos <= FStart g /\ FEnd g <= bound) fs.
Proof.
  induction fs as [|f fs IH]; intros pos H; simpl in H.
  - split; [done|constructor].
  - destruct H as (H1 & H2 & H3). apply IH in H3 as [Hb Hall].
    split; [lia|]. constructor; [lia|].
    eapply Forall_impl; [exact Hall|]. simpl. intros g ?. lia.
Qed.

Lemma sort_chain bound fs : forall pos,
  chain bound pos fs -> sortSlice lessFinding fs = rev fs.
Proof.
  induction fs as [|f fs IH]; intros pos H; [done|].
  destruct H as (H1 & H2 & H3). simpl. rewrite (IH _ H3).
  apply insertSorted_last. apply Forall_rev.
  apply chain_bounds in H3 as [_ Hall].
  eapply Forall_impl; [exact Hall|]. simpl. intros g [Hg _].
  unfold lessFinding. apply Z.gtb_gt. lia.
Qed.

Lemma take_split (input : str) (pos s : Z) :
  0 <= pos <= s ->
  take (Z.to_nat s) input = take (Z.to_nat pos) input ++ substring input pos s.
Proof.
  intros H. unfold substring.
  rewrite <- (take_drop (Z.to_nat pos) (take (Z.to_nat s) input)).
  rewrite take_take, skipn_firstn_comm.
  replace (Z.to_nat pos `min` Z.to_nat s)%nat with (Z.to_nat pos) by lia.
  do 2 f_equal. lia.
Qed.

Lemma redact_chain input fs : forall pos,
  0 <= pos -> chain (len input) pos fs ->
  foldl redactStep input (rev fs) = take (Z.to_nat pos) input ++ splice input pos fs.
Proof.
  induction fs as [|f fs IH]; intros pos Hpos H.
  - simpl. now rewrite take_drop.
  - destruct H as (H1 & H2 & H3). simpl rev. rewrite foldl_app. simpl foldl.
    rewrite (IH (FEnd f)) by (done || lia).
    apply chain_bounds in H3 as [Hb _].
    unfold redactStep.
    assert (Hlen : FEnd f <= len (take (Z.to_nat (FEnd f)) input
                                   ++ splice input (FEnd f) fs)).
    { unfold len in *. rewrite length_app, length_take. lia. }
    assert (Hg : (FStart f >=? 0) && (FEnd f <=? len (take (Z.to_nat (FEnd f)) input
                       ++ splice input (FEnd f) fs)) && (FStart f <? FEnd f) = true).
    { rewrite !andb_true_iff, Z.geb_le, Z.leb_le, Z.ltb_lt. lia. }
    rewrite Hg. clear Hg Hlen.
    assert (Htl : length (take (Z.to_nat (FEnd f)) input) = Z.to_nat (FEnd f)).
    { rewrite length_take. unfold len in Hb. lia. }
    rewrite take_app_le by lia. rewrite take_take.
    replace (Z.to_nat (FStart f) `min` Z.to_nat (FEnd f))%nat
      with (Z.to_nat (FStart f)) by lia.
    rewrite drop_app_length' by done.
    simpl splice. rewrite (take_split input pos (FStart f)) by lia.
    now rewrite <- !app_assoc.
Qed.

Lemma applyRedactions_chain input fs :
  chain (len input) 0 fs -> applyRedactions input fs = splice input 0 fs.
Proof.
  intros H. unfold applyRedactions.
  destruct fs as [|f fs]; [done|].
  change (length (f :: fs) =? 0)%nat with false. cbv iota.
  rewrite (sort_chain _ _ _ H). now rewrite (redact_chain input _ 0).
Qed.

Lemma removeOverlaps_Forall (P : rmatch -> Prop) ms : forall lastEnd,
  Forall P ms -> Forall P (removeOverlaps ms lastEnd).
Proof.
  induction ms as [|m ms IH]; intros lastEnd H; simpl; [constructor|].
  apply Forall_cons in H as [Hm Hms].
  destruct (m_start m <? lastEnd); [now apply IH|].
  constructor; [done|now apply IH].
Qed.

Section Scanner.
Variable getPatterns : list pattern.
Variable isAllowlisted : str -> list str -> bool.
Variable isCategoryDisabled : Category -> list Category -> bool.

Abbreviation scan' := (scan getPatterns isAllowlisted isCategoryDisabled).
Abbreviation ScanAndRedact' :=
  (ScanAndRedact getPatterns isAllowlisted isCategoryDisabled).

(** A match at positions inside the input, not empty, with the text found
    there. *)
Definition match_ok (input : str) (m : rmatch) : Prop :=
  0 <= m_start m /\ m_start m < m_end m /\ m_end m <= len input /\
  m_match m = substring input (m_start m) (m_end m).

(** What Go's [regexp] promises of [FindAllStringIndex] on [input], for a
    pattern that does not match the empty string. *)
Definition locations_ok (input : str) : Prop :=
  forall p, p ∈ getPatterns ->
    Forall (fun loc : Z * Z => 0 <= fst loc /\ fst loc < snd loc /\ snd loc <= len input)
           (FindAllStringIndex p input).

Lemma matchesOf_ok input allowlist p :
  Forall (fun loc : Z * Z => 0 <= fst loc /\ fst loc < snd loc /\ snd loc <= len input)
         (FindAllStringIndex p input) ->
  forall acc, Forall (match_ok input) acc ->
              Forall (match_ok input) (matchesOf isAllowlisted input allowlist p acc).
Proof.
  unfold matchesOf. induction 1 as [|loc locs Hloc Hl IH]; intros acc Hacc; simpl; [done|].
  apply IH. destruct (isAllowlisted _ _); [done|].
  apply Forall_app. split; [done|]. apply Forall_singleton.
  unfold match_ok; simpl. tauto.
Qed.

Lemma allMatchesOf_ok input allowlist disabled :
  locations_ok input ->
  Forall (match_ok input)
         (allMatchesOf getPatterns isAllowlisted isCategoryDisabled
                       input allowlist disabled).
Proof.
  intros Hre. unfold allMatchesOf.
  assert (Hout : forall ps acc,
             Forall (fun p => p ∈ getPatterns) ps ->
             Forall (match_ok input) acc ->
             Forall (match_ok input)
               (foldl (fun allMatches p =>
                         if isCategoryDisabled (p_category p) disabled then allMatches
                         else matchesOf isAllowlisted input allowlist p allMatches)
                      acc ps)).
  { induction ps as [|p ps IH]; intros acc Hps Hacc; simpl; [done|].
    apply Forall_cons in Hps as [Hp Hps]. apply IH; [done|].
    destruct (isCategoryDisabled _ _); [done|].
    apply matchesOf_ok; [now apply Hre|done]. }
  apply Hout; [|constructor]. apply Forall_forall. auto.
Qed.

Lemma removeOverlaps_chain input ms : forall lastEnd,
  Forall (match_ok input) ms -> lastEnd <= len input ->
  chain (len input) (Z.max lastEnd 0) (map toFinding (removeOverlaps ms lastEnd)).
Proof.
  induction ms as [|m ms IH]; intros lastEnd H Hle; simpl.
  - pose proof (PipelineProps.len_nonneg input). lia.
  - apply Forall_cons in H as [(H0 & H1 & H2 & _) Hms].
    destruct (Z.ltb_spec (m_start m) lastEnd) as [Hlt|Hge]; [now apply IH|].
    simpl. repeat split; [lia|lia|].
    replace (m_end m) with (Z.max (m_end m) 0) at 1 by lia. now apply IH.
Qed.

Lemma deduplicate_ok input ms :
  Forall (match_ok input) ms ->
  Forall (match_ok input) (deduplicateMatches ms) /\
  chain (len input) 0 (map toFinding (deduplicateMatches ms)).
Proof.
  intros H. pose proof (PipelineProps.len_nonneg input) as Hn.
  unfold deduplicateMatches. destruct ms as [|m ms]; [simpl; split; [constructor|lia]|].
  change (length (m :: ms) =? 0)%nat with false. cbv iota. split.
  - apply removeOverlaps_Forall. now apply sortSlice_Forall.
  - change 0 with (Z.max (-1) 0).
    apply removeOverlaps_chain; [|lia]. now apply sortSlice_Forall.
Qed.

Lemma toFinding_ok input m :
  match_ok input m ->
  FRedacted (toFinding m) =
    lit "[REDACTED:" ++ FCategory (toFinding m) ++ lit ":"
      ++ hash8 (FCategory (toFinding m)) (FMatch (toFinding m)) ++ lit "]" /\
  FMatch (toFinding m) =
    substring input (FStart (toFinding m)) (FEnd (toFinding m)) /\
  FStart (toFinding m) < FEnd (toFinding m).
Proof.
  intros (H0 & H1 & H2 & H3). simpl.
  split; [apply generatePlaceholder_form|]. split; [exact H3|exact H1].
Qed.

Lemma redact_mode_output (input : str) (cfg : Config) :
  CMode cfg = ModeRedact ->
  locations_ok input ->
  let r := ScanAndRedact' input cfg in
  Output r = splice input 0 (Findings r) /\
  Forall (fun f =>
            FRedacted f =
              lit "[REDACTED:" ++ FCategory f ++ lit ":"
                ++ hash8 (FCategory f) (FMatch f) ++ lit "]" /\
            FMatch f = substring input (FStart f) (FEnd f) /\
            FStart f < FEnd f) (Findings r).
Proof.
  intros Hmode Hre. unfold ScanAndRedact. rewrite Hmode.
  pose proof (allMatchesOf_ok input (Allowlist cfg) (DisabledCategories cfg) Hre)
    as Hall.
  apply deduplicate_ok in Hall as [Hok Hchain].
  fold (scan' input (Allowlist cfg) (DisabledCategories cfg)) in Hok, Hchain.
  assert (Hf : Forall (fun f =>
            FRedacted f =
              lit "[REDACTED:" ++ FCategory f ++ lit ":"
                ++ hash8 (FCategory f) (FMatch f) ++ lit "]" /\
            FMatch f = substring input (FStart f) (FEnd f) /\
            FStart f < FEnd f)
          (map toFinding (scan' input (Allowlist cfg) (DisabledCategories cfg)))).
  { apply Forall_fmap. eapply Forall_impl; [exact Hok|].
    intros m' Hm'. now apply toFinding_ok. }
  destruct (scan' input (Allowlist cfg) (DisabledCategories cfg)) as [|m ms] eqn:Hs.
  - simpl. split; [done|constructor].
  - change (length (m :: ms) =? 0)%nat with false. cbv iota. cbv zeta.
    split; [|exact Hf]. now apply applyRedactions_chain.
Qed.

End Scanner.

(** A one-pattern scanner for the key of the redaction scenario. *)
Definition keyInput : str := lit "key: sk-abc123defghijklmnopT3BlbkFJxyz789abcdefghijklmnop".
Definition keyPattern : pattern :=
  mkPattern (lit "OPENAI_KEY") 100 (fun _ => [(5, 57)]).
Definition redactCfg : Config := mkConfig ModeRedact [] [].



Example redact_scenario :
  Output (ScanAndRedact [keyPattern] (fun _ _ => false) (fun _ _ => false)
                        keyInput redactCfg)
  = lit "key: [REDACTED:OPENAI_KEY:47c5ebf7]".
Proof. vm_compute. reflexivity. Qed.



End RedactionProps.

Module AgentMailProps.
Import GoStrings AgentMail.

Definition linux : OS := mkOS (Some (lit "/home/dev/.config")) (lit "/home/dev") (fun _ => None).
Definition noHome : OS := mkOS None (lit "/home/dev") (fun _ => None).

Example path_example :
  sessionAgentPath linux (lit "myproject") =
  lit "/home/dev/.config/ntm/sessions/myproject/agent.json".
Proof. vm_compute. reflexivity. Qed.

Example path_fallback :
  sessionAgentPath noHome (lit "myproject") =
  lit "/home/dev/.config/ntm/sessions/myproject/agent.json".
Proof. vm_compute. reflexivity. Qed.

Example dir_example :
  Filepath.Dir (lit "/home/dev/.config/ntm/sessions/myproject/agent.json") =
  lit "/home/dev/.config/ntm/sessions/myproject".
Proof. vm_compute. reflexivity. Qed.

Example clean_examples :
  map Filepath.Clean [lit "a//b/./c/.."; lit "/../a"; lit "../../x"; lit ""; lit "/"; lit "a/.."; lit "a/b/"]
  = [lit "a/b"; lit "/a"; lit "../../x"; lit "."; lit "/"; lit "."; lit "a/b"].
Proof. vm_compute. reflexivity. Qed.

Example dir_examples :
  map Filepath.Dir [lit "/a/b"; lit "a"; lit "/a"; lit "a/b/"; lit ""; lit "/"]
  = [lit "/a"; lit "."; lit "/"; lit "a/b"; lit "."; lit "/"].
Proof. vm_compute. reflexivity. Qed.

(** *** The path of the record *)

(** A path element that [Clean] leaves alone: not empty, not "." or "..",
    and without a slash. *)
Definition plain (e : str) : Prop :=
  e <> [] /\ e <> Filepath.dot /\ e <> Filepath.dotdot /\ Filepath.slash ∉ e.

Lemma SplitByte_app_sep (e t : str) :
  Filepath.slash ∉ e ->
  SplitByte (e ++ Filepath.slash :: t) Filepath.slash
  = e :: SplitByte t Filepath.slash.
Proof.
  induction e as [|c e IH]; intros Hno; simpl.
  - reflexivity.
  - apply not_elem_of_cons in Hno as [Hc He].
    destruct (Ascii.eqb_spec c Filepath.slash) as [->|_]; [done|].
    now rewrite IH.
Qed.

Lemma SplitByte_plain (e : str) :
  Filepath.slash ∉ e -> SplitByte e Filepath.slash = [e].
Proof.
  induction e as [|c e IH]; intros Hno; simpl; [done|].
  apply not_elem_of_cons in Hno as [Hc He].
  destruct (Ascii.eqb_spec c Filepath.slash) as [->|_]; [done|].
  now rewrite IH.
Qed.

Lemma SplitByte_join (elems : list str) :
  elems <> [] -> Forall (fun e => Filepath.slash ∉ e) elems ->
  SplitByte (Filepath.joinSlash elems) Filepath.slash = elems.
Proof.
  induction elems as [|e elems IH]; intros Hne Hall; [done|].
  apply Forall_cons in Hall as [He Hall].
  destruct elems as [|e' elems].
  - simpl. now apply SplitByte_plain.
  - change (Filepath.joinSlash (e :: e' :: elems))
      with (e ++ Filepath.slash :: Filepath.joinSlash (e' :: elems)).
    rewrite SplitByte_app_sep by done. f_equal. now apply IH.
Qed.

Lemma plain_no_slash (elems : list str) :
  Forall plain elems -> Forall (fun e => Filepath.slash ∉ e) elems.
Proof. intros H. eapply Forall_impl; [exact H|]. now intros e (_ & _ & _ & He). Qed.

Lemma cleanStep_plain rooted kept e :
  plain e -> Filepath.cleanStep rooted kept e = kept ++ [e].
Proof.
  intros (H1 & H2 & H3 & _). unfold Filepath.cleanStep, streq.
  rewrite !bool_decide_eq_false_2 by done. reflexivity.
Qed.

Lemma clean_steps_plain rooted elems : forall kept,
  Forall plain elems ->
  foldl (Filepath.cleanStep rooted) kept elems = kept ++ elems.
Proof.
  induction elems as [|e elems IH]; intros kept Hall; simpl.
  - now rewrite app_nil_r.
  - apply Forall_cons in Hall as [He Hall].
    rewrite cleanStep_plain by done. rewrite IH by done.
    now rewrite <- app_assoc.
Qed.

Lemma joinSlash_app (xs ys : list str) :
  xs <> [] -> ys <> [] ->
  Filepath.joinSlash (xs ++ ys)
  = Filepath.joinSlash xs ++ Filepath.slash :: Filepath.joinSlash ys.
Proof.
  intros Hx Hy. induction xs as [|x xs IH]; [done|].
  destruct xs as [|x' xs].
  - simpl. destruct ys; [done|reflexivity].
  - change (Filepath.joinSlash ((x :: x' :: xs) ++ ys))
      with (x ++ Filepath.slash :: Filepath.joinSlash ((x' :: xs) ++ ys)).
    rewrite IH by done. simpl. now rewrite <- app_assoc.
Qed.

Lemma Clean_rooted (elems : list str) :
  elems <> [] -> Forall plain elems ->
  Filepath.Clean (Filepath.slash :: Filepath.joinSlash elems)
  = Filepath.slash :: Filepath.joinSlash elems.
Proof.
  intros Hne Hall. unfold Filepath.Clean.
  change (streq (Filepath.slash :: Filepath.joinSlash elems) []) with false.
  cbv iota.
  assert (Hr : HasPrefix (Filepath.slash :: Filepath.joinSlash elems)
                         [Filepath.slash] = true).
  { simpl. now destruct (Filepath.joinSlash elems). }
  rewrite Hr. cbv iota.
  change (SplitByte (Filepath.slash :: Filepath.joinSlash elems) Filepath.slash)
    with ([] :: SplitByte (Filepath.joinSlash elems) Filepath.slash).
  rewrite SplitByte_join by (done || now apply plain_no_slash). simpl foldl.
  change (Filepath.cleanStep true [] []) with (@nil str).
  rewrite clean_steps_plain by done. reflexivity.
Qed.

Lemma Clean_rooted_dir (elems : list str) :
  elems <> [] -> Forall plain elems ->
  Filepath.Clean ((Filepath.slash :: Filepath.joinSlash elems) ++ [Filepath.slash])
  = Filepath.slash :: Filepath.joinSlash elems.
Proof.
  intros Hne Hall. unfold Filepath.Clean.
  change (streq ((Filepath.slash :: Filepath.joinSlash elems) ++ [Filepath.slash]) [])
    with false. cbv iota.
  assert (Hr : HasPrefix ((Filepath.slash :: Filepath.joinSlash elems)
                            ++ [Filepath.slash]) [Filepath.slash] = true).
  { simpl. now destruct (Filepath.joinSlash elems ++ [Filepath.slash]). }
  rewrite Hr. cbv iota.
  change ((Filepath.slash :: Filepath.joinSlash elems) ++ [Filepath.slash])
    with (Filepath.slash :: (Filepath.joinSlash elems
                               ++ Filepath.slash :: Filepath.joinSlash [[]])).
  rewrite <- joinSlash_app by done.
  change (SplitByte (Filepath.slash :: Filepath.joinSlash (elems ++ [[]])) Filepath.slash)
    with ([] :: SplitByte (Filepath.joinSlash (elems ++ [[]])) Filepath.slash).
  rewrite SplitByte_join.
  - simpl foldl. change (Filepath.cleanStep true [] []) with (@nil str).
    rewrite foldl_app. rewrite (clean_steps_plain true elems []) by done.
    reflexivity.
  - now destruct elems.
  - apply Forall_app. split; [now apply plain_no_slash|].
    apply Forall_singleton. apply not_elem_of_nil.
Qed.

Lemma Dir_rooted (elems : list str) (e : str) :
  elems <> [] -> Forall plain elems -> plain e ->
  Filepath.Dir (Filepath.slash :: Filepath.joinSlash (elems ++ [e]))
  = Filepath.slash :: Filepath.joinSlash elems.
Proof.
  intros Hne Hall He. unfold Filepath.Dir.
  change (SplitByte (Filepath.slash :: Filepath.joinSlash (elems ++ [e])) Filepath.slash)
    with ([] :: SplitByte (Filepath.joinSlash (elems ++ [e])) Filepath.slash).
  rewrite SplitByte_join.
  - assert (Hlen : (length ([] :: elems ++ [e]) <=? 1)%nat = false).
    { apply Nat.leb_gt. simpl. rewrite length_app. simpl. lia. }
    rewrite Hlen.
    change ([] :: elems ++ [e]) with (([] :: elems) ++ [e]).
    rewrite removelast_last.
    destruct elems as [|x xs]; [done|].
    change (Filepath.joinSlash ([] :: x :: xs))
      with (Filepath.slash :: Filepath.joinSlash (x :: xs)).
    now apply Clean_rooted_dir.
  - now destruct elems.
  - apply plain_no_slash. apply Forall_app. split; [done|now apply Forall_singleton].
Qed.

Lemma plain_literals (e : str) :
  In e [lit "ntm"; lit "sessions"; lit "agent.json"] -> plain e.
Proof.
  intros He. simpl in He. unfold plain.
  destruct He as [<-|[<-|[<-|[]]]]; repeat split; try discriminate;
    intros Hin; apply list_elem_of_In in Hin; simpl in Hin;
    intuition discriminate.
Qed.

Lemma session_path_elems (os : OS) (dirs : list str) (sessionName : str) :
  UserConfigDir os = Some (Filepath.slash :: Filepath.joinSlash dirs) ->
  dirs <> [] -> Forall plain dirs -> plain sessionName ->
  sessionAgentPath os sessionName
  = Filepath.slash
      :: Filepath.joinSlash ((dirs ++ [lit "ntm"; lit "sessions"; sessionName])
                               ++ [lit "agent.json"]).
Proof.
  intros Hcfg Hne Hdirs Hs. unfold sessionAgentPath. rewrite Hcfg.
  set (tail := [lit "ntm"; lit "sessions"; sessionName; lit "agent.json"]).
  assert (Htail : Forall plain tail).
  { unfold tail. repeat (apply Forall_cons; split); try apply Forall_nil_2;
      try exact Hs; apply plain_literals; simpl; auto. }
  change (Filepath.Join ((Filepath.slash :: Filepath.joinSlash dirs) :: tail))
    with (Filepath.Clean (Filepath.joinSlash
            ((Filepath.slash :: Filepath.joinSlash dirs) :: tail))).
  change (Filepath.joinSlash ((Filepath.slash :: Filepath.joinSlash dirs) :: tail))
    with (Filepath.slash :: (Filepath.joinSlash dirs ++ Filepath.slash
                               :: Filepath.joinSlash tail)).
  rewrite <- joinSlash_app by done.
  rewrite Clean_rooted.
  - rewrite <- app_assoc. reflexivity.
  - now destruct dirs.
  - apply Forall_app. now split.
Qed.

(** With an absolute, clean configuration directory and a session name that
    is a plain path element, the record is at
    [<user-config>/ntm/sessions/<session>/agent.json], in the directory
    [<user-config>/ntm/sessions/<session>]. *)
Lemma session_path_form (os : OS) (dirs : list str) (sessionName : str) :
  UserConfigDir os = Some (Filepath.slash :: Filepath.joinSlash dirs) ->
  dirs <> [] -> Forall plain dirs -> plain sessionName ->
  sessionAgentPath os sessionName
  = (Filepath.slash :: Filepath.joinSlash dirs)
      ++ lit "/ntm/sessions/" ++ sessionName ++ lit "/agent.json" /\
  Filepath.Dir (sessionAgentPath os sessionName)
  = (Filepath.slash :: Filepath.joinSlash dirs)
      ++ lit "/ntm/sessions/" ++ sessionName.
Proof.
  intros Hcfg Hne Hdirs Hs.
  rewrite (session_path_elems os dirs sessionName) by done.
  assert (Hmid : Forall plain (dirs ++ [lit "ntm"; lit "sessions"; sessionName])).
  { apply Forall_app. split; [done|].
    repeat (apply Forall_cons; split); try apply Forall_nil_2;
      try exact Hs; apply plain_literals; simpl; auto. }
  split.
  - rewrite <- app_assoc. rewrite joinSlash_app by done. simpl.
    rewrite <- ?app_assoc. reflexivity.
  - rewrite Dir_rooted; [|now destruct dirs|done|apply plain_literals; simpl; auto].
    rewrite joinSlash_app by done. simpl. reflexivity.
Qed.

(** *** How the record is written *)

(** What the specification calls an atomic write of [path]: the bytes go to
    a temporary file, which is then renamed to [path]. *)
Definition written_atomically (trace : list fsop) (path : str) : Prop :=
  exists tmp data perm before between after,
    tmp <> path /\
    trace = before ++ [WriteFile tmp data perm] ++ between
                   ++ [Rename tmp path] ++ after.

Definition isRename (op : fsop) : bool :=
  match op with Rename _ _ => true | _ => false end.

Lemma atomic_has_rename trace path :
  written_atomically trace path -> existsb isRename trace = true.
Proof.
  intros (tmp & data & perm & l1 & l2 & l3 & _ & ->).
  rewrite !existsb_app. simpl. now rewrite !orb_true_r.
Qed.

Definition info0 : SessionAgentInfo :=
  mkInfo (lit "ntm_myproject") (lit "/data/projects/myproject") 1700000000 1700000000.

(** A stand-in for [json.MarshalIndent] that succeeds. *)
Definition marshal0 (info : SessionAgentInfo) : str + str :=
  inl (lit "{ agent_name: " ++ AgentName info ++ lit ", project_key: "
         ++ ProjectKey info ++ lit " }").

Example save_example :
  SaveSessionAgent linux marshal0 (lit "myproject") info0 =
  ([ MkdirAll (lit "/home/dev/.config/ntm/sessions/myproject") 493;
     WriteFile (lit "/home/dev/.config/ntm/sessions/myproject/agent.json")
               (lit "{ agent_name: ntm_myproject, project_key: /data/projects/myproject }")
               420 ],
   None).
Proof. vm_compute. reflexivity. Qed.

(** The save of the example is not a write to a temporary file followed by
    a rename: the only write goes straight to agent.json. *)
Lemma save_not_atomic :
  ~ written_atomically
      (fst (SaveSessionAgent linux marshal0 (lit "myproject") info0))
      (sessionAgentPath linux (lit "myproject")).
Proof.
  intros H. apply atomic_has_rename in H. vm_compute in H. discriminate H.
Qed.

(** C9 (as the code has it).  [SaveSessionAgent] first creates the
    directory of [<user-config>/ntm/sessions/<session>/agent.json] with
    permissions 0755 and then writes the JSON record to that very path with
    [os.WriteFile] and permissions 0644; a save that returns no error made
    exactly these two calls.  No temporary file is written and nothing is
    renamed. *)
Theorem save_session_agent_direct
        (os : OS) (MarshalIndent : SessionAgentInfo -> str + str)
        (sessionName : str) (info : SessionAgentInfo) :
  let path := sessionAgentPath os sessionName in
  let mkdir := MkdirAll (Filepath.Dir path) perm0755 in
  perm0755 = 493 /\ perm0644 = 420 /\
  path = Filepath.Join [ default (Filepath.Join [HOME os; lit ".config"])
                                 (UserConfigDir os);
                         lit "ntm"; lit "sessions"; sessionName; lit "agent.json" ] /\
  match SaveSessionAgent os MarshalIndent sessionName info with
  | (trace, None) =>
      exists data, MarshalIndent info = inl data /\
                   trace = [mkdir; WriteFile path data perm0644]
  | (trace, Some err) =>
      trace = [mkdir] \/
      exists data, MarshalIndent info = inl data /\
                   trace = [mkdir; WriteFile path data perm0644]
  end /\
  existsb isRename (fst (SaveSessionAgent os MarshalIndent sessionName info)) = false /\
  (forall target,
    ~ written_atomically (fst (SaveSessionAgent os MarshalIndent sessionName info))
                         target) /\
  (forall dirs : list str,
      UserConfigDir os = Some (Filepath.slash :: Filepath.joinSlash dirs) ->
      dirs <> [] -> Forall plain dirs -> plain sessionName ->
      path = (Filepath.slash :: Filepath.joinSlash dirs)
               ++ lit "/ntm/sessions/" ++ sessionName ++ lit "/agent.json" /\
      Filepath.Dir path = (Filepath.slash :: Filepath.joinSlash dirs)
                            ++ lit "/ntm/sessions/" ++ sessionName).
Proof.
  intros path mkdir.
  assert (Hren : existsb isRename
                   (fst (SaveSessionAgent os MarshalIndent sessionName info)) = false).
  { unfold SaveSessionAgent. fold path. fold mkdir.
    destruct (failure os mkdir); [done|].
    destruct (MarshalIndent info) as [data|err]; [|done].
    destruct (failure os _); done. }
  split; [done|]. split; [done|]. split.
  { unfold path, sessionAgentPath. now destruct (UserConfigDir os). }
  split; [|split; [exact Hren|split]].
  - unfold SaveSessionAgent. fold path. fold mkdir.
    destruct (failure os mkdir); [now left|].
    destruct (MarshalIndent info) as [data|err]; [|now left].
    destruct (failure os _); [right|]; now exists data.
  - intros target H. apply atomic_has_rename in H. congruence.
  - intros dirs Hcfg Hne Hdirs Hs. now apply session_path_form.
Qed.

Lemma save_session_agent_direct_witness :
  sessionAgentPath linux (lit "myproject")
  = lit "/home/dev/.config" ++ lit "/ntm/sessions/" ++ lit "myproject"
      ++ lit "/agent.json" /\
  Filepath.Dir (sessionAgentPath linux (lit "myproject"))
  = lit "/home/dev/.config" ++ lit "/ntm/sessions/" ++ lit "myproject".
Proof.
  assert (Hplain : forall e, In e [lit "home"; lit "dev"; lit ".config"; lit "myproject"] ->
                             plain e).
  { intros e He. simpl in He. unfold plain.
    destruct He as [<-|[<-|[<-|[<-|[]]]]]; repeat split; try discriminate;
      intros Hin; apply list_elem_of_In in Hin; simpl in Hin;
      intuition discriminate. }
  refine (proj2 (proj2 (proj2 (proj2 (proj2 (proj2
            (save_session_agent_direct linux marshal0 (lit "myproject") info0))))))
            [lit "home"; lit "dev"; lit ".config"] eq_refl _ _ _).
  - discriminate.
  - repeat (apply Forall_cons; split); try apply Forall_nil_2;
      apply Hplain; simpl; auto.
  - apply Hplain; simpl; auto.
Defined.

End AgentMailProps.

(* ===================================================================== *)
(** * Part III -- further properties of the same code *)
(* ===================================================================== *)

Module PipelineMore.
Import GoStrings Pipeline PipelineProps.

Lemma ov_zero before after : ov before after 0.
Proof.
  unfold ov. repeat split; try lia.
  rewrite Nat.sub_0_r, drop_all. reflexivity.
Qed.

Lemma longestFrom_ov before after n :
  ov before after (longestOverlapFrom before after n).
Proof.
  induction n as [|n IH]; simpl; [apply ov_zero|].
  destruct (overlapAt before after (S n)) eqn:Ho; [|exact IH].
  now apply overlapAt_ov.
Qed.

Lemma longestFrom_max before after n j :
  (j <= n)%nat -> ov before after j -> (j <= longestOverlapFrom before after n)%nat.
Proof.
  induction n as [|n IH]; intros Hj Hov; simpl; [lia|].
  destruct (overlapAt before after (S n)) eqn:Ho; [lia|].
  apply IH; [|done].
  destruct (decide (j = S n)) as [->|]; [|lia].
  apply overlapAt_ov in Hov. congruence.
Qed.

Lemma longest_ov before after : ov before after (longestOverlap before after).
Proof. apply longestFrom_ov. Qed.

Lemma longest_max before after j :
  ov before after j -> (j <= longestOverlap before after)%nat.
Proof.
  intros Hov. apply longestFrom_max; [|done].
  destruct Hov as (? & ? & _). lia.
Qed.

Lemma HasSuffix_drop (s t : str) :
  HasSuffix s t = true <->
  ((length t <= length s)%nat /\ (length t <= length t)%nat /\
   drop (length s - length t) s = take (length t) t).
Proof.
  unfold HasSuffix. rewrite HasPrefix_take, length_rev, firstn_rev, firstn_all.
  split.
  - intros Ht. apply rev_inj in Ht.
    assert (Hle : (length t <= length s)%nat).
    { apply (f_equal length) in Ht. rewrite length_drop in Ht.
      destruct (le_lt_dec (length t) (length s)); [done|].
      destruct t; simpl in *; lia. }
    done.
  - intros (_ & _ & ->). done.
Qed.

Lemma appended_ov before after :
  appended before after = true -> ov before after (length before).
Proof.
  unfold appended. rewrite andb_true_iff, streq_true, Z.geb_le.
  intros [Hge Heq]. unfold ov, len in *. repeat split; try lia.
  now rewrite Nat.sub_diag, drop_0.
Qed.

(** Every outcome of the extractor, by cases on its input. *)
Lemma extract_cases before after :
  (exists k, ov before after k /\ extractNewOutput before after = Returns (drop k after)) \/
  (before <> [] /\ appended before after = false /\
   (40 < length after)%nat /\ (length before < 39)%nat /\
   extractNewOutput before after = Panics).
Proof.
  destruct before as [|b0 before].
  { left. exists 0%nat. split; [apply ov_zero|done]. }
  destruct after as [|a0 after].
  { left. exists 0%nat. split; [apply ov_zero|done]. }
  destruct (appended (b0 :: before) (a0 :: after)) eqn:Hf.
  { left. exists (length (b0 :: before)).
    split; [now apply appended_ov|now apply extract_appended]. }
  destruct (le_lt_dec (length (a0 :: after)) 40) as [Hs|Hl].
  { left. rewrite extract_short by done.
    destruct (overlapAt (b0 :: before) (a0 :: after) (length (a0 :: after))) eqn:Ho.
    - exists (length (a0 :: after)). split; [now apply overlapAt_ov|].
      now rewrite drop_all.
    - exists 0%nat. split; [apply ov_zero|done]. }
  destruct (le_lt_dec 39 (length (b0 :: before))) as [Hb|Hb].
  - left. exists (longestOverlap (b0 :: before) (a0 :: after)).
    split; [apply longest_ov|]. now apply extract_long.
  - right. repeat split; try done. now apply extract_panics.
Qed.



(** X2.  With more than 40 bytes after and at least 39 before (and [after]
    not a mere extension of [before]) the extractor cuts off the longest
    suffix of [before] that is a prefix of [after]: the overlap it removes
    is an overlap, and no overlap is longer. *)
Theorem extract_longest_overlap (before after : str) :
  appended before after = false ->
  (40 < length after)%nat -> (39 <= length before)%nat ->
  exists k, extractNewOutput before after = Returns (drop k after) /\
            ov before after k /\
            forall j, ov before after j -> (j <= k)%nat.
Proof.
  intros Hf Hla Hlb. exists (longestOverlap before after).
  split; [|split; [apply longest_ov|apply longest_max]].
  apply extract_long; try done.
  - intros ->. simpl in Hlb. lia.
  - intros ->. simpl in Hla. lia.
Qed.

Definition long_before : str :=
  lit "line one of the old screen" ++ [LF] ++ lit "line two, still visible" ++ [LF].
Definition long_after : str :=
  lit "line two, still visible" ++ [LF] ++ lit "and the new answer of the agent" ++ [LF].

Lemma extract_longest_overlap_witness :
  exists k, extractNewOutput long_before long_after = Returns (drop k long_after) /\
            ov long_before long_after k /\
            forall j, ov long_before long_after j -> (j <= k)%nat.
Proof.
  apply (extract_longest_overlap long_before long_after).
  - vm_compute. reflexivity.
  - vm_compute. lia.
  - vm_compute. lia.
Defined.

Example extract_long_example :
  extractNewOutput long_before long_after
  = Returns (lit "and the new answer of the agent" ++ [LF]).
Proof. vm_compute. reflexivity. Qed.

(** X3.  With at most 40 bytes after (and [after] not a mere extension of
    [before]) the extractor returns the empty string when [before] ends with
    the whole of [after], and otherwise all of [after]: an overlap shorter
    than [after] is never removed. *)
Theorem extract_short_after (before after : str) :
  before <> [] -> after <> [] -> appended before after = false ->
  (length after <= 40)%nat ->
  extractNewOutput before after =
  Returns (if HasSuffix before after then [] else after).
Proof.
  intros Hb Ha Hf Hla. rewrite extract_short by done.
  assert (Heq : overlapAt before after (length after) = HasSuffix before after).
  { apply eq_true_iff_eq. rewrite overlapAt_ov. symmetry. apply HasSuffix_drop. }
  now rewrite Heq.
Qed.

Lemma extract_short_after_witness :
  extractNewOutput scroll_before scroll_after =
  Returns (if HasSuffix scroll_before scroll_after then [] else scroll_after).
Proof.
  apply (extract_short_after scroll_before scroll_after);
    try discriminate; vm_compute; (reflexivity || lia).
Defined.

(** X4.  [extractNewOutput] panics exactly when [before] is not empty and
    shorter than 39 bytes, [after] is longer than 40 bytes and does not
    start with [before]; on every other input it returns. *)
Theorem extract_panics_iff (before after : str) :
  extractNewOutput before after = Panics <->
  (before <> [] /\ appended before after = false /\
   (40 < length after)%nat /\ (length before < 39)%nat).
Proof.
  split.
  - intros Hp. destruct (extract_cases before after)
      as [(k & _ & Hk)|(H1 & H2 & H3 & H4 & _)]; [congruence|done].
  - intros (Hb & Hf & Hla & Hlb). apply extract_panics; try done.
    intros ->. simpl in Hla. lia.
Qed.

End PipelineMore.

Module DetectorMore.
Import GoStrings Detector.

Lemma SplitByte_nonempty (s : str) (sep : ascii) : SplitByte s sep <> [].
Proof.
  destruct s as [|c s]; simpl; [done|].
  destruct (Ascii.eqb c sep); [done|]. now destruct (SplitByte s sep).
Qed.

Lemma SplitByte_two (s t : str) (sep : ascii) :
  (2 <= length (SplitByte (s ++ sep :: t) sep))%nat.
Proof.
  induction s as [|c s IH]; simpl.
  - rewrite Ascii.eqb_refl. simpl.
    pose proof (SplitByte_nonempty t sep). destruct (SplitByte t sep); [done|simpl; lia].
  - destruct (Ascii.eqb c sep); [simpl; lia|].
    destruct (SplitByte (s ++ sep :: t) sep); simpl in *; lia.
Qed.

Lemma last_SplitByte (s t : str) (sep : ascii) :
  List.last (SplitByte (s ++ sep :: t) sep) [] = List.last (SplitByte t sep) [].
Proof.
  induction s as [|c s IH]; simpl.
  - rewrite Ascii.eqb_refl.
    pose proof (SplitByte_nonempty t sep). now destruct (SplitByte t sep).
  - pose proof (SplitByte_two s t sep) as H2.
    destruct (Ascii.eqb c sep).
    + rewrite <- IH. destruct (SplitByte (s ++ sep :: t) sep); [simpl in H2; lia|done].
    + rewrite <- IH.
      destruct (SplitByte (s ++ sep :: t) sep) as [|p [|q ps]]; simpl in H2; try lia.
      done.
Qed.

Lemma SplitByte_Forall (P : ascii -> Prop) (s : str) (sep : ascii) :
  Forall P s -> Forall (Forall P) (SplitByte s sep).
Proof.
  induction 1 as [|c s Hc Hs IH]; simpl; [repeat constructor|].
  destruct (Ascii.eqb c sep); [constructor; [constructor|done]|].
  destruct (SplitByte s sep) as [|p ps]; [repeat constructor; done|].
  apply Forall_cons in IH as [Hp Hps]. constructor; [now constructor|done].
Qed.

Lemma TrimLeft_spaces (s : str) :
  Forall (fun c => isSpace c = true) s -> TrimLeft s = [].
Proof. induction 1 as [|c s Hc Hs IH]; simpl; [done|]. now rewrite Hc. Qed.

Lemma last_Forall {A} (P : A -> Prop) (l : list A) (d : A) :
  P d -> Forall P l -> P (List.last l d).
Proof.
  intros Hd. induction 1 as [|x l Hx Hl IH]; simpl; [done|].
  destruct l; [done|exact IH].
Qed.

Lemma state_of_last_line (earlier lastLine agentType agentType' : str) :
  determineAgentState (earlier ++ LF :: lastLine) agentType
  = determineAgentState lastLine agentType'.
Proof.
  unfold determineAgentState. rewrite last_SplitByte.
  pose proof (SplitByte_nonempty (earlier ++ LF :: lastLine) LF) as H1.
  pose proof (SplitByte_nonempty lastLine LF) as H2.
  destruct (SplitByte (earlier ++ LF :: lastLine) LF); [done|].
  destruct (SplitByte lastLine LF); [done|]. reflexivity.
Qed.

(** X5.  Only the text after the last line feed of the scrollback decides
    the state, the agent type plays no part, and the answer is always
    "idle" or "working", never "unknown". *)
Theorem last_line_decides :
  (forall (earlier lastLine agentType agentType' : str),
      determineAgentState (earlier ++ LF :: lastLine) agentType
      = determineAgentState lastLine agentType') /\
  (forall scrollback agentType : str,
      determineAgentState scrollback agentType = "idle"%string \/
      determineAgentState scrollback agentType = "working"%string).
Proof.
  split; [exact state_of_last_line|].
  - intros s t. unfold determineAgentState.
    pose proof (SplitByte_nonempty s LF) as H1.
    destruct (SplitByte s LF) as [|p ps]; [done|].
    change (length (p :: ps) =? 0)%nat with false. cbv iota.
    destruct (existsb _ idlePatterns); auto.
Qed.

(** X6.  A scrollback whose last line is empty or blank (in particular one
    that ends in a line feed) is classified working, whatever precedes: a
    prompt on the line before is not seen. *)
Theorem blank_last_line_is_working (earlier blank agentType : str) :
  Forall (fun c => isSpace c = true) blank ->
  determineAgentState (earlier ++ LF :: blank) agentType = "working"%string.
Proof.
  intros Hb. rewrite (state_of_last_line earlier blank agentType agentType).
  unfold determineAgentState.
  pose proof (SplitByte_nonempty blank LF) as H1.
  destruct (SplitByte blank LF) as [|p ps] eqn:Hs; [done|].
  change (length (p :: ps) =? 0)%nat with false. cbv iota.
  assert (Hlast : Forall (fun c => isSpace c = true) (List.last (p :: ps) [])).
  { apply last_Forall; [constructor|]. rewrite <- Hs. now apply SplitByte_Forall. }
  unfold TrimSpace. rewrite (TrimLeft_spaces _ Hlast). reflexivity.
Qed.

Lemma blank_last_line_is_working_witness :
  determineAgentState (lit "user@host:~$ " ++ LF :: lit "  ") (lit "claude")
  = "working"%string.
Proof.
  apply (blank_last_line_is_working (lit "user@host:~$ ") (lit "  ") (lit "claude")).
  repeat constructor.
Defined.

End DetectorMore.

(** ** The order of [float64] *)

Module FloatOrder.
Import SpecFloat.

Lemma cont_Eq (m1 m2 : positive) : Pos.compare_cont Eq m1 m2 = Pos.compare m1 m2.
Proof. reflexivity. Qed.

Ltac cmp_solve :=
  repeat match goal with
  | |- context [Z.compare ?a ?b] => destruct (Z.compare_spec a b); subst
  | |- context [Pos.compare_cont Eq ?a ?b] =>
      rewrite (cont_Eq a b); destruct (Pos.compare_spec a b); subst
  | H : context [Z.compare ?a ?b] |- _ => destruct (Z.compare_spec a b); subst
  | H : context [Pos.compare_cont Eq ?a ?b] |- _ =>
      rewrite (cont_Eq a b) in H; destruct (Pos.compare_spec a b); subst
  end; simpl in *; try congruence; try lia.

Lemma SFltb_trans (a b c : spec_float) :
  SFltb a b = true -> SFltb b c = true -> SFltb a c = true.
Proof.
  unfold SFltb, SFcompare.
  destruct a as [sa|sa| |sa ma ea], b as [sb|sb| |sb mb eb], c as [sc|sc| |sc mc ec];
    try destruct sa; try destruct sb; try destruct sc; simpl; try congruence;
    intros H1 H2; cmp_solve.
Qed.

Lemma SFltb_irrefl (a : spec_float) : SFltb a a = false.
Proof.
  unfold SFltb, SFcompare.
  destruct a as [s|s| |s m e]; try destruct s; simpl; try reflexivity.
  all: rewrite Z.compare_refl, cont_Eq, Pos.compare_refl; reflexivity.
Qed.

(** [<] on [float64] is transitive and irreflexive (a NaN is below and
    above nothing). *)
Lemma ltb_trans (x y z : float) :
  (x <? y)%float = true -> (y <? z)%float = true -> (x <? z)%float = true.
Proof. rewrite !FloatAxioms.ltb_spec. apply SFltb_trans. Qed.

Lemma ltb_irrefl (x : float) : (x <? x)%float = false.
Proof. rewrite FloatAxioms.ltb_spec. apply SFltb_irrefl. Qed.

Lemma ltb_asym (x y : float) :
  (x <? y)%float = true -> (y <? x)%float = false.
Proof.
  intros H. destruct (y <? x)%float eqn:H'; [|done].
  pose proof (ltb_trans x y x H H') as Hxx. rewrite ltb_irrefl in Hxx. done.
Qed.

End FloatOrder.

Module CoordinatorMore.
Import Coordinator CoordinatorProps.
Local Open Scope string_scope.

Section WithPersona.
Context {Persona : Type}.
Variable profileTagBonus : Persona -> string -> float -> float.
Variable focusPatternBonus : Persona -> string -> float -> float.

Abbreviation scoreAssignment' := (scoreAssignment profileTagBonus focusPatternBonus).
Abbreviation candidatesOf' := (candidatesOf profileTagBonus focusPatternBonus).
Abbreviation ScoreAndSelectAssignments' :=
  (ScoreAndSelectAssignments profileTagBonus focusPatternBonus).

(** *** Sorting rearranges the candidates *)

Lemma swap_Permutation {A} (l : list A) (i j : nat) (x y : A) :
  (i < j)%nat -> l !! i = Some x -> l !! j = Some y ->
  <[j := x]> (<[i := y]> l) ≡ₚ l.
Proof.
  intros Hij Hi Hj.
  pose proof (take_drop_middle l i x Hi) as Hl.
  set (A1 := take i l) in *. set (D := drop (S i) l) in *.
  assert (HA : length A1 = i).
  { unfold A1. rewrite length_take. apply lookup_lt_Some in Hi. lia. }
  assert (HD : D !! (j - S i)%nat = Some y).
  { unfold D. rewrite lookup_drop. rewrite <- Hj. f_equal. lia. }
  pose proof (take_drop_middle D (j - S i) y HD) as HDl.
  set (B := take (j - S i) D) in *. set (C := drop (S (j - S i)) D) in *.
  assert (HB : length B = (j - S i)%nat).
  { unfold B. rewrite length_take. apply lookup_lt_Some in HD. lia. }
  rewrite <- Hl, <- HDl.
  rewrite (insert_app_r_alt A1 _ i) by lia.
  replace (i - length A1)%nat with 0%nat by lia. simpl.
  rewrite (insert_app_r_alt A1 _ j) by lia.
  replace (j - length A1)%nat with (S (j - S i)) by lia. simpl.
  rewrite (insert_app_r_alt B _ (j - S i)) by lia.
  replace (j - S i - length B)%nat with 0%nat by lia. simpl.
  apply Permutation_app_head.
  rewrite <- !Permutation_middle. apply perm_swap.
Qed.

Lemma exchange_Permutation (c : list (ScoredAssignment Persona)) (i j : nat) :
  (i < j)%nat -> exchange c i j ≡ₚ c.
Proof.
  intros Hij. unfold exchange.
  destruct (c !! i) as [ci|] eqn:Hi; [|done].
  destruct (c !! j) as [cj|] eqn:Hj; [|done].
  destruct (TotalScore ci <? TotalScore cj)%float; [|done].
  now apply swap_Permutation.
Qed.

Lemma inner_Permutation i (js : list nat) : forall c : list (ScoredAssignment Persona),
  Forall (fun j => i < j)%nat js ->
  foldl (fun c j => exchange c i j) c js ≡ₚ c.
Proof.
  induction js as [|j js IH]; intros c Hjs; simpl; [done|].
  apply Forall_cons in Hjs as [Hj Hjs].
  rewrite IH by done. now apply exchange_Permutation.
Qed.

Lemma seq_above (i n : nat) : Forall (fun j => i < j)%nat (seq (S i) n).
Proof. apply Forall_forall. intros j Hj. apply list_elem_of_In, in_seq in Hj. lia. Qed.

Lemma sort_Permutation (c : list (ScoredAssignment Persona)) :
  sortScoredAssignments c ≡ₚ c.
Proof.
  unfold sortScoredAssignments. generalize (length c) as n. intros n.
  generalize (seq 0 (n - 1)) as idxs. intros idxs. revert c.
  induction idxs as [|i idxs IH]; intros c; simpl; [done|].
  rewrite IH. apply inner_Permutation, seq_above.
Qed.

(** *** Sorting puts the higher scores first *)

Definition higher (x y : ScoredAssignment Persona) : bool :=
  (TotalScore x <? TotalScore y)%float.

(** No candidate scores higher than one placed before it. *)
Definition descending (s : list (ScoredAssignment Persona)) : Prop :=
  forall i j x y, (i < j)%nat -> s !! i = Some x -> s !! j = Some y ->
                  higher x y = false.

Definition above (s : list (ScoredAssignment Persona)) (p : nat) : Prop :=
  forall q x y, (p < q)%nat -> s !! p = Some x -> s !! q = Some y ->
                higher x y = false.

Definition upto (s : list (ScoredAssignment Persona)) (i j0 : nat) : Prop :=
  forall q x y, (i < q < j0)%nat -> s !! i = Some x -> s !! q = Some y ->
                higher x y = false.

Lemma exchange_length (s : list (ScoredAssignment Persona)) i j :
  length (exchange s i j) = length s.
Proof.
  unfold exchange. destruct (s !! i); [|done]. destruct (s !! j); [|done].
  destruct (_ <? _)%float; [|done]. now rewrite !length_insert.
Qed.

Lemma exchange_spec (s : list (ScoredAssignment Persona)) i j :
  (i < j)%nat ->
  (exchange s i j = s /\
   forall ci cj, s !! i = Some ci -> s !! j = Some cj -> higher ci cj = false) \/
  (exists ci cj, s !! i = Some ci /\ s !! j = Some cj /\ higher ci cj = true /\
                 exchange s i j !! i = Some cj /\ exchange s i j !! j = Some ci /\
                 forall p, p <> i -> p <> j -> exchange s i j !! p = s !! p).
Proof.
  intros Hij. unfold exchange.
  destruct (s !! i) as [ci|] eqn:Hi; [|left; split; [done|congruence]].
  destruct (s !! j) as [cj|] eqn:Hj; [|left; split; [done|congruence]].
  fold (higher ci cj). destruct (higher ci cj) eqn:Hh.
  - right. exists ci, cj. repeat split; try done.
    + rewrite list_lookup_insert_ne by lia.
      apply list_lookup_insert_eq. now apply lookup_lt_Some in Hi.
    + apply list_lookup_insert_eq. rewrite length_insert.
      now apply lookup_lt_Some in Hj.
    + intros p Hpi Hpj. now rewrite !list_lookup_insert_ne by done.
  - left. split; [done|]. intros ? ? [= <-] [= <-]. done.
Qed.

Lemma exchange_above s i j p :
  (p < i)%nat -> (i < j)%nat -> above s p -> above (exchange s i j) p.
Proof.
  intros Hpi Hij Hab.
  destruct (exchange_spec s i j Hij)
    as [[-> _]|(ci & cj & Hi & Hj & _ & Hi' & Hj' & Hother)]; [done|].
  intros q x y Hq Hx Hy. rewrite Hother in Hx by lia.
  destruct (decide (q = i)) as [->|Hqi].
  { rewrite Hi' in Hy. injection Hy as <-. exact (Hab j x cj ltac:(lia) Hx Hj). }
  destruct (decide (q = j)) as [->|Hqj].
  { rewrite Hj' in Hy. injection Hy as <-. exact (Hab i x ci ltac:(lia) Hx Hi). }
  rewrite Hother in Hy by done. exact (Hab q x y Hq Hx Hy).
Qed.

Lemma exchange_upto s i j :
  (i < j)%nat -> upto s i j -> upto (exchange s i j) i (S j).
Proof.
  intros Hij Hup.
  destruct (exchange_spec s i j Hij)
    as [[-> Hno]|(ci & cj & Hi & Hj & Hh & Hi' & Hj' & Hother)].
  - intros q x y Hq Hx Hy. destruct (decide (q = j)) as [->|Hqj].
    + now apply Hno.
    + apply (Hup q); [lia|done|done].
  - intros q x y Hq Hx Hy. rewrite Hi' in Hx. injection Hx as <-.
    destruct (decide (q = j)) as [->|Hqj].
    + rewrite Hj' in Hy. injection Hy as <-. unfold higher in *.
      now apply FloatOrder.ltb_asym.
    + rewrite Hother in Hy by lia.
      pose proof (Hup q ci y ltac:(lia) Hi Hy) as Hn. unfold higher in *.
      destruct (TotalScore cj <? TotalScore y)%float eqn:Hc; [|done].
      rewrite (FloatOrder.ltb_trans _ _ _ Hh Hc) in Hn. done.
Qed.

Lemma inner_sorted i : forall m j0 (s : list (ScoredAssignment Persona)),
  (i < j0)%nat -> upto s i j0 -> (forall p, (p < i)%nat -> above s p) ->
  let s' := foldl (fun c j => exchange c i j) s (seq j0 m) in
  upto s' i (j0 + m) /\ (forall p, (p < i)%nat -> above s' p).
Proof.
  induction m as [|m IH]; intros j0 s Hij Hup Hab; simpl.
  - now rewrite Nat.add_0_r.
  - replace (j0 + S m)%nat with (S j0 + m)%nat by lia.
    apply IH; [lia|now apply exchange_upto|].
    intros p Hp. apply exchange_above; auto.
Qed.

Lemma inner_length i (js : list nat) : forall s : list (ScoredAssignment Persona),
  length (foldl (fun c j => exchange c i j) s js) = length s.
Proof.
  induction js as [|j js IH]; intros s; simpl; [done|].
  now rewrite IH, exchange_length.
Qed.

Lemma outer_sorted n : forall k i0 (s : list (ScoredAssignment Persona)),
  length s = n -> (forall p, (p < i0)%nat -> above s p) ->
  let s' := foldl (fun c i => foldl (fun c j => exchange c i j) c
                                    (seq (S i) (n - S i))) s (seq i0 k) in
  forall p, (p < i0 + k)%nat -> above s' p.
Proof.
  induction k as [|k IH]; intros i0 s Hlen Hab; simpl.
  - now rewrite Nat.add_0_r.
  - replace (i0 + S k)%nat with (S i0 + k)%nat by lia.
    apply IH; [now rewrite inner_length|].
    destruct (inner_sorted i0 (n - S i0) (S i0) s ltac:(lia)) as [Hup Hab'].
    { intros q x y Hq. lia. }
    { exact Hab. }
    intros p Hp. destruct (decide (p = i0)) as [->|Hne]; [|apply Hab'; lia].
    intros q x y Hq Hx Hy. apply (Hup q x y); [|done|done].
    apply lookup_lt_Some in Hy. rewrite inner_length in Hy. lia.
Qed.

Lemma sort_descending (c : list (ScoredAssignment Persona)) :
  descending (sortScoredAssignments c).
Proof.
  intros i j x y Hij Hx Hy.
  assert (Hlen : length (sortScoredAssignments c) = length c).
  { apply Permutation_length, sort_Permutation. }
  pose proof (outer_sorted (length c) (length c - 1) 0 c eq_refl) as H.
  simpl in H. fold (sortScoredAssignments c) in H.
  apply (H ltac:(intros; lia) i) with (q := j); try done.
  apply lookup_lt_Some in Hy. lia.
Qed.

(** *** The selection loop takes the candidates in order *)

Abbreviation selectedOf st := (fst (fst st)).

Lemma select_loop_extends (cands : list (ScoredAssignment Persona)) : forall st,
  exists more, selectedOf (foldl selectStep st cands) = (selectedOf st ++ more)%list /\
               more `sublist_of` cands.
Proof.
  induction cands as [|c cs IH]; intros st; simpl.
  - exists []. split; [now rewrite app_nil_r|done].
  - destruct (IH (selectStep st c)) as (more & Heq & Hsub). rewrite Heq.
    destruct st as [[sel ma] mt]. unfold selectStep.
    destruct (_ || _); simpl.
    + exists more. split; [done|now apply sublist_cons].
    + exists (c :: more). split; [now rewrite <- app_assoc|now apply sublist_skip].
Qed.

Lemma descending_cons x l :
  descending (x :: l) <-> Forall (fun y => higher x y = false) l /\ descending l.
Proof.
  split.
  - intros H. split.
    + apply Forall_lookup. intros j y Hy. apply (H 0%nat (S j) x y); [lia|done|done].
    + intros i j a b Hij Ha Hb. apply (H (S i) (S j)); [lia|done|done].
  - intros [Hx Hl] i j a b Hij Ha Hb. destruct j as [|j]; [lia|]. simpl in Hb.
    destruct i as [|i]; simpl in Ha.
    + injection Ha as <-. exact (Forall_lookup_1 _ _ _ _ Hx Hb).
    + apply (Hl i j); [lia|done|done].
Qed.

Lemma descending_sublist l k : l `sublist_of` k -> descending k -> descending l.
Proof.
  induction 1 as [|x l k Hs IH|x l k Hs IH]; intros Hk; [done| |].
  - apply descending_cons in Hk as [Hx Hk]. apply descending_cons. split; [|auto].
    apply Forall_forall. intros y Hy.
    eapply Forall_forall in Hx; [exact Hx|]. eapply elem_of_sublist; eauto.
  - apply descending_cons in Hk as [_ Hk]. auto.
Qed.

Lemma descending_before pre c post s :
  descending (pre ++ c :: post) -> s ∈ pre -> higher s c = false.
Proof.
  intros Hd Hs. apply list_elem_of_lookup in Hs as [i Hi].
  apply (Hd i (length pre) s c).
  - now apply lookup_lt_Some in Hi.
  - now rewrite lookup_app_l by (now apply lookup_lt_Some in Hi).
  - now rewrite list_lookup_middle.
Qed.

(** The candidates of all idle agents, as [ScoreAndSelectAssignments]
    collects them before sorting. *)
Definition allCandidates (idleAgents : list (AgentState Persona))
           (recommendations : list TriageRecommendation)
           (config : ScoreConfig) (reservations : gmap string (list string))
  : list (ScoredAssignment Persona) :=
  foldl (fun candidates agent =>
           (candidates ++ candidatesOf' config reservations recommendations agent)%list)
        [] idleAgents.

Lemma select_unfold idleAgents recommendations config reservations :
  idleAgents <> [] -> recommendations <> [] ->
  ScoreAndSelectAssignments' idleAgents (Some recommendations) config reservations
  = selectedOf (foldl selectStep ([], ∅, ∅)
                  (sortScoredAssignments
                     (allCandidates idleAgents recommendations config reservations))).
Proof.
  intros Ha Hr. unfold ScoreAndSelectAssignments.
  destruct idleAgents; [done|]. destruct recommendations; [done|]. simpl.
  fold (allCandidates (a :: idleAgents) (t :: recommendations) config reservations).
  now destruct (foldl selectStep _ _) as [[selected ma] mt].
Qed.

Lemma select_cases idleAgents triage config reservations :
  ScoreAndSelectAssignments' idleAgents triage config reservations = [] \/
  exists recommendations,
    triage = Some recommendations /\
    ScoreAndSelectAssignments' idleAgents triage config reservations
    = selectedOf (foldl selectStep ([], ∅, ∅)
                    (sortScoredAssignments
                       (allCandidates idleAgents recommendations config reservations))).
Proof.
  destruct triage as [recommendations|]; [|now left].
  destruct idleAgents as [|a idleAgents]; [now left|].
  destruct recommendations as [|r recommendations]; [now left|].
  right. eexists. split; [done|]. now apply select_unfold.
Qed.

Lemma selected_sublist idleAgents recommendations config reservations :
  selectedOf (foldl selectStep ([], ∅, ∅)
                (sortScoredAssignments
                   (allCandidates idleAgents recommendations config reservations)))
  `sublist_of`
  sortScoredAssignments (allCandidates idleAgents recommendations config reservations).
Proof.
  destruct (select_loop_extends
              (sortScoredAssignments
                 (allCandidates idleAgents recommendations config reservations))
              ([], ∅, ∅)) as (more & -> & Hsub).
  done.
Qed.

(** X7.  [ScoreAndSelectAssignments] returns its selection with the higher
    total scores first: no assignment of the result scores strictly higher
    than one listed before it. *)
Theorem selection_highest_first
        (idleAgents : list (AgentState Persona))
        (triage : option (list TriageRecommendation))
        (config : ScoreConfig) (reservations : gmap string (list string))
        (i j : nat) (x y : ScoredAssignment Persona) :
  let selected := ScoreAndSelectAssignments' idleAgents triage config reservations in
  (i < j)%nat -> selected !! i = Some x -> selected !! j = Some y ->
  (TotalScore x <? TotalScore y)%float = false.
Proof.
  intros selected Hij Hx Hy.
  assert (Hd : descending selected).
  { destruct (select_cases idleAgents triage config reservations)
      as [He|(recommendations & _ & He)]; unfold selected; rewrite He.
    - intros ? ? ? ? _ H. done.
    - eapply descending_sublist; [apply selected_sublist|apply sort_descending]. }
  exact (Hd i j x y Hij Hx Hy).
Qed.

(** *** Every candidate pair is looked at *)

Lemma candidatesOf_complete recommendations config reservations agent rec :
  rec ∈ recommendations -> Status rec <> "blocked" ->
  (0 <? TotalScore (scoreAssignment' agent rec config reservations))%float = true ->
  scoreAssignment' agent rec config reservations
  ∈ candidatesOf' config reservations recommendations agent.
Proof.
  intros Hin Hb Hpos. unfold candidatesOf.
  set (c := scoreAssignment' agent rec config reservations) in *.
  set (step := fun candidates rec => _).
  assert (Hkeep : forall recs acc, c ∈ acc -> c ∈ foldl step acc recs).
  { induction recs as [|r recs IH]; intros acc Hacc; simpl; [done|].
    apply IH. unfold step. destruct (String.eqb (Status r) "blocked"); [done|].
    destruct (0 <? TotalScore (scoreAssignment' agent r config reservations))%float;
      [|done].
    apply elem_of_app. now left. }
  assert (Haux : forall recs acc, rec ∈ recs -> c ∈ foldl step acc recs).
  { induction recs as [|r recs IH]; intros acc Hr; simpl.
    { now apply elem_of_nil in Hr. }
    apply elem_of_cons in Hr as [<-|Hr]; [|now apply IH].
    apply Hkeep. unfold step.
    destruct (String.eqb_spec (Status rec) "blocked") as [?|_]; [done|].
    fold c. rewrite Hpos. apply elem_of_app. right. now apply list_elem_of_singleton. }
  now apply Haux.
Qed.

Lemma allCandidates_complete idleAgents recommendations config reservations agent c :
  agent ∈ idleAgents ->
  c ∈ candidatesOf' config reservations recommendations agent ->
  c ∈ allCandidates idleAgents recommendations config reservations.
Proof.
  intros Hin Hc. unfold allCandidates.
  set (step := fun candidates agent => _).
  assert (Hkeep : forall agents acc, c ∈ acc -> c ∈ foldl step acc agents).
  { induction agents as [|a agents IH]; intros acc Hacc; simpl; [done|].
    apply IH. unfold step. apply elem_of_app. now left. }
  assert (Haux : forall agents acc, agent ∈ agents -> c ∈ foldl step acc agents).
  { induction agents as [|a agents IH]; intros acc Ha; simpl.
    { now apply elem_of_nil in Ha. }
    apply elem_of_cons in Ha as [<-|Ha]; [|now apply IH].
    apply Hkeep. unfold step. apply elem_of_app. now right. }
  now apply Haux.
Qed.

Lemma candidate_sorted idleAgents recommendations config reservations agent rec :
  agent ∈ idleAgents -> rec ∈ recommendations -> Status rec <> "blocked" ->
  (0 <? TotalScore (scoreAssignment' agent rec config reservations))%float = true ->
  scoreAssignment' agent rec config reservations
  ∈ sortScoredAssignments (allCandidates idleAgents recommendations config reservations).
Proof.
  intros Ha Hr Hb Hpos. rewrite sort_Permutation.
  eapply allCandidates_complete; [exact Ha|]. now apply candidatesOf_complete.
Qed.

(** A candidate that the loop passes over has its agent or its task taken by
    an assignment selected before it. *)
Lemma select_covers (sorted : list (ScoredAssignment Persona)) c :
  descending sorted -> c ∈ sorted ->
  exists s, s ∈ selectedOf (foldl selectStep ([], ∅, ∅) sorted) /\
            (agentId s = agentId c \/ taskId s = taskId c) /\
            higher s c = false.
Proof.
  intros Hd Hc. apply list_elem_of_split in Hc as (pre & post & ->).
  rewrite foldl_app. simpl.
  pose proof (select_loop_inv (fun _ => True) pre ([], ∅, ∅)
                ltac:(now apply Forall_forall) (select_inv_init _)) as Hinv.
  destruct (select_loop_extends pre ([], ∅, ∅)) as (more1 & Hsel1 & Hsub1).
  simpl in Hsel1.
  destruct (select_loop_extends post (selectStep (foldl selectStep ([], ∅, ∅) pre) c))
    as (more2 & -> & _).
  destruct (foldl selectStep ([], ∅, ∅) pre) as [[sel1 ma] mt]. simpl in Hsel1. subst sel1.
  destruct Hinv as (_ & _ & Hma & Hmt & _).
  unfold selectStep. fold (agentId c). fold (taskId c).
  destruct (default false (ma !! agentId c)) eqn:Hca; simpl.
  { apply Hma, list_elem_of_fmap in Hca as (s & Hid & Hs).
    exists s. split; [apply elem_of_app; now left|]. split; [now left|].
    eapply descending_before; [exact Hd|]. eapply elem_of_sublist; eauto. }
  destruct (default false (mt !! taskId c)) eqn:Hct; simpl.
  { apply Hmt, list_elem_of_fmap in Hct as (s & Hid & Hs).
    exists s. split; [apply elem_of_app; now left|]. split; [now right|].
    eapply descending_before; [exact Hd|]. eapply elem_of_sublist; eauto. }
  exists c. split.
  { apply elem_of_app. left. apply elem_of_app. right. now apply list_elem_of_singleton. }
  split; [now left|]. apply FloatOrder.ltb_irrefl.
Qed.

(** X8.  The selection leaves no pair out without cause: for every idle
    agent and every recommendation of the list that is not blocked and that
    scores strictly above zero for that agent, the result holds an
    assignment for that agent or for that work item whose total score is not
    lower than the pair's. *)
Theorem left_out_only_for_no_lower
        (idleAgents : list (AgentState Persona))
        (recommendations : list TriageRecommendation)
        (config : ScoreConfig) (reservations : gmap string (list string))
        (agent : AgentState Persona) (rec : TriageRecommendation) :
  agent ∈ idleAgents -> rec ∈ recommendations -> Status rec <> "blocked" ->
  (0 <? TotalScore (scoreAssignment' agent rec config reservations))%float = true ->
  exists s,
    s ∈ ScoreAndSelectAssignments' idleAgents (Some recommendations) config reservations /\
    (PaneID (Agent s) = PaneID agent \/ ID (Recommendation s) = ID rec) /\
    (TotalScore s <? TotalScore (scoreAssignment' agent rec config reservations))%float
    = false.
Proof.
  intros Ha Hr Hb Hpos.
  rewrite select_unfold.
  2:{ intros ->. now apply elem_of_nil in Ha. }
  2:{ intros ->. now apply elem_of_nil in Hr. }
  destruct (select_covers _ _ (sort_descending _)
              (candidate_sorted idleAgents recommendations config reservations
                 agent rec Ha Hr Hb Hpos)) as (s & Hs & Hids & Hh).
  exists s. split; [exact Hs|]. split; [|exact Hh].
  unfold agentId, taskId in Hids. now rewrite score_agent, score_rec in Hids.
Qed.

(** X9.  As soon as some idle agent and some recommendation that is not
    blocked score strictly above zero together, the result is not empty, and
    its first assignment is one that no such pair outscores. *)
Theorem top_candidate_first
        (idleAgents : list (AgentState Persona))
        (recommendations : list TriageRecommendation)
        (config : ScoreConfig) (reservations : gmap string (list string))
        (agent : AgentState Persona) (rec : TriageRecommendation) :
  agent ∈ idleAgents -> rec ∈ recommendations -> Status rec <> "blocked" ->
  (0 <? TotalScore (scoreAssignment' agent rec config reservations))%float = true ->
  exists top rest,
    ScoreAndSelectAssignments' idleAgents (Some recommendations) config reservations
    = top :: rest /\
    (forall agent' rec',
        agent' ∈ idleAgents -> rec' ∈ recommendations -> Status rec' <> "blocked" ->
        (0 <? TotalScore (scoreAssignment' agent' rec' config reservations))%float = true ->
        (TotalScore top <? TotalScore (scoreAssignment' agent' rec' config reservations))%float
        = false).
Proof.
  intros Ha Hr Hb Hpos.
  rewrite select_unfold.
  2:{ intros ->. now apply elem_of_nil in Ha. }
  2:{ intros ->. now apply elem_of_nil in Hr. }
  pose proof (sort_descending (allCandidates idleAgents recommendations config reservations))
    as Hd.
  pose proof (candidate_sorted idleAgents recommendations config reservations
                agent rec Ha Hr Hb Hpos) as Hc.
  assert (Hall : forall agent' rec',
             agent' ∈ idleAgents -> rec' ∈ recommendations -> Status rec' <> "blocked" ->
             (0 <? TotalScore (scoreAssignment' agent' rec' config reservations))%float = true ->
             scoreAssignment' agent' rec' config reservations
             ∈ sortScoredAssignments
                 (allCandidates idleAgents recommendations config reservations)).
  { intros. now apply candidate_sorted. }
  destruct (sortScoredAssignments _) as [|top sorted].
  { now apply elem_of_nil in Hc. }
  change (foldl selectStep ([], ∅, ∅) (top :: sorted))
    with (foldl selectStep (selectStep ([], ∅, ∅) top) sorted).
  destruct (select_loop_extends sorted (selectStep ([], ∅, ∅) top)) as (more & -> & _).
  unfold selectStep. rewrite !lookup_empty. simpl.
  exists top, more. split; [done|].
  intros agent' rec' Ha' Hr' Hb' Hpos'.
  specialize (Hall agent' rec' Ha' Hr' Hb' Hpos').
  apply descending_cons in Hd as [Htop _].
  apply elem_of_cons in Hall as [->|Hin]; [apply FloatOrder.ltb_irrefl|].
  eapply Forall_forall in Htop; [exact Htop|done].
Qed.

(** X10.  The selection is never longer than the list of idle agents, nor
    than the list of recommendations. *)
Theorem selection_size
        (idleAgents : list (AgentState Persona))
        (triage : option (list TriageRecommendation))
        (config : ScoreConfig) (reservations : gmap string (list string)) :
  let selected := ScoreAndSelectAssignments' idleAgents triage config reservations in
  (length selected <= length idleAgents)%nat /\
  (length selected <= length (default [] triage))%nat.
Proof.
  intros selected.
  destruct (selected_ok profileTagBonus focusPatternBonus
              idleAgents triage config reservations) as (Hna & Hnt & Hok).
  fold selected in Hna, Hnt, Hok.
  destruct triage as [recommendations|]; [|simpl; split; lia].
  specialize (Hok _ eq_refl). simpl. split.
  - rewrite <- (length_map agentId selected), <- (length_map PaneID idleAgents).
    apply submseteq_length, NoDup_submseteq; [done|].
    intros k Hk. apply list_elem_of_fmap in Hk as (s & -> & Hs).
    eapply Forall_forall in Hok; [|exact Hs].
    destruct Hok as (_ & _ & _ & Hin & _).
    apply list_elem_of_fmap. now exists (Agent s).
  - rewrite <- (length_map taskId selected), <- (length_map ID recommendations).
    apply submseteq_length, NoDup_submseteq; [done|].
    intros k Hk. apply list_elem_of_fmap in Hk as (s & -> & Hs).
    eapply Forall_forall in Hok; [|exact Hs].
    destruct Hok as (_ & _ & Hin & _ & _).
    apply list_elem_of_fmap. now exists (Recommendation s).
Qed.

(** *** AssignWork *)

Definition beadOf (r : AssignmentResult) : string := BeadID (RAssignment r).
Definition paneOf (r : AssignmentResult) : string := AgentPaneID (RAssignment r).

Lemma assignLoop_distinct mailClient :
  forall (agents : list (AgentState Persona)) remaining results,
    NoDup (map beadOf (List.filter Success results)) ->
    (forall r, r ∈ remaining -> ID r ∉ map beadOf (List.filter Success results)) ->
    NoDup (map beadOf (List.filter Success
                         (assignLoop mailClient agents remaining results))).
Proof.
  induction agents as [|agent agents IH]; intros remaining results Hnd Hfresh;
    simpl; [done|].
  destruct (length remaining =? 0)%nat; [done|].
  rewrite findBestMatch_first.
  destruct (firstUnblocked remaining) as [rec|] eqn:Hf; simpl; [|now apply IH].
  apply firstUnblocked_Some in Hf as [Hin _].
  set (result := attemptAssignment mailClient (assignmentFor agent rec) rec).
  assert (Hbead : beadOf result = ID rec).
  { unfold beadOf, result. now rewrite attemptAssignment_assignment. }
  destruct (Success result) eqn:HS.
  - apply IH.
    + rewrite List.filter_app, map_app. simpl. rewrite HS. simpl. rewrite Hbead.
      apply NoDup_app. repeat split; [done| |apply NoDup_singleton].
      intros x Hx Hx'. apply list_elem_of_singleton in Hx'. subst x.
      now apply (Hfresh rec).
    + intros r Hr. unfold removeRecommendation in Hr.
      apply list_elem_of_In, filter_In in Hr as [Hr Hne].
      apply list_elem_of_In in Hr.
      rewrite List.filter_app, map_app. simpl. rewrite HS. simpl. rewrite Hbead.
      intros Hx. apply elem_of_app in Hx as [Hx|Hx]; [now apply (Hfresh r)|].
      apply list_elem_of_singleton in Hx. rewrite Hx, String.eqb_refl in Hne. done.
  - apply IH.
    + rewrite List.filter_app. simpl. rewrite HS. now rewrite app_nil_r.
    + rewrite List.filter_app. simpl. rewrite HS. now rewrite app_nil_r.
Qed.

Lemma assignLoop_panes mailClient :
  forall (agents : list (AgentState Persona)) remaining results,
    exists more,
      assignLoop mailClient agents remaining results = (results ++ more)%list /\
      map paneOf more `sublist_of` map PaneID agents /\
      head more
      = (if (length remaining =? 0)%nat then None
         else option_map (fun ar => attemptAssignment mailClient (fst ar) (snd ar))
                         (from_option (fun agent => findBestMatch agent remaining)
                                      None (head agents))).
Proof.
  induction agents as [|agent agents IH]; intros remaining results; simpl.
  { exists []. rewrite app_nil_r. repeat split; [done|]. now destruct (_ =? _)%nat. }
  destruct (length remaining =? 0)%nat eqn:Hlen.
  { exists []. rewrite app_nil_r. repeat split. apply sublist_nil_l. }
  rewrite findBestMatch_first.
  destruct (firstUnblocked remaining) as [rec|] eqn:Hf; simpl.
  - set (result := attemptAssignment mailClient (assignmentFor agent rec) rec).
    assert (Hpane : paneOf result = PaneID agent).
    { unfold paneOf, result. now rewrite attemptAssignment_assignment. }
    destruct (Success result);
      [destruct (IH (removeRecommendation remaining (ID rec)) (results ++ [result])%list)
         as (more & -> & Hsub & _)
      |destruct (IH remaining (results ++ [result])%list) as (more & -> & Hsub & _)];
      (exists (result :: more); rewrite <- app_assoc; repeat split;
       simpl; rewrite Hpane; now apply sublist_skip).
  - destruct (IH remaining results) as (more & -> & Hsub & Hhead).
    exists more. repeat split; [now apply sublist_cons|].
    rewrite Hhead, Hlen. destruct agents as [|agent' agents']; [done|]. simpl.
    rewrite findBestMatch_first, Hf. done.
Qed.

(** X11.  The successful results of [AssignWork] are for pairwise distinct
    work items: once an assignment has succeeded, no later agent is given a
    recommendation of the same ID. *)
Theorem assign_work_distinct_beads
        (autoAssign : bool) (mailClient : option MailClient)
        (idleAgents : list (AgentState Persona)) (triage : TriageAnswer)
        (results : list AssignmentResult) :
  AssignWork autoAssign mailClient idleAgents triage = inl results ->
  NoDup (map (fun r => BeadID (RAssignment r)) (List.filter Success results)).
Proof.
  unfold AssignWork. intros H.
  assert (Hnil : NoDup (map beadOf (List.filter Success []))) by apply NoDup_nil_2.
  destruct (negb autoAssign); [now injection H as <-|].
  destruct (length idleAgents =? 0)%nat; [now injection H as <-|].
  destruct triage as [err| |recommendations]; [done|now injection H as <-|].
  destruct (length recommendations =? 0)%nat; injection H as <-; [done|].
  apply assignLoop_distinct; [done|]. intros r _ Hr. now apply elem_of_nil in Hr.
Qed.

(** X12.  [AssignWork] makes at most one attempt per idle agent, in the
    order of the agents: the pane IDs of its results are a subsequence of
    the pane IDs of the idle agents. *)
Theorem assign_work_one_attempt_per_agent
        (autoAssign : bool) (mailClient : option MailClient)
        (idleAgents : list (AgentState Persona)) (triage : TriageAnswer)
        (results : list AssignmentResult) :
  AssignWork autoAssign mailClient idleAgents triage = inl results ->
  map (fun r => AgentPaneID (RAssignment r)) results `sublist_of` map PaneID idleAgents.
Proof.
  unfold AssignWork. intros H.
  destruct (negb autoAssign); [injection H as <-; apply sublist_nil_l|].
  destruct (length idleAgents =? 0)%nat; [injection H as <-; apply sublist_nil_l|].
  destruct triage as [err| |recommendations];
    [done|injection H as <-; apply sublist_nil_l|].
  destruct (length recommendations =? 0)%nat; injection H as <-;
    [apply sublist_nil_l|].
  destruct (assignLoop_panes mailClient idleAgents recommendations [])
    as (more & -> & Hsub & _).
  exact Hsub.
Qed.

(** *** The queries *)

Import CoordinatorQueries.

Lemma assignable_filter (recs acc : list TriageRecommendation) :
  foldl (fun assignable rec =>
           if negb (String.eqb (Status rec) "blocked")
           then (assignable ++ [rec])%list else assignable) acc recs
  = (acc ++ List.filter unblocked recs)%list.
Proof.
  revert acc. induction recs as [|r recs IH]; intros acc; simpl.
  { now rewrite app_nil_r. }
  rewrite IH. unfold unblocked at 2.
  destruct (negb _); [now rewrite <- app_assoc|done].
Qed.

Lemma head_filter_find {A} (f : A -> bool) (l : list A) :
  head (List.filter f l) = List.find f l.
Proof. induction l as [|x l IH]; simpl; [done|]. now destruct (f x). Qed.

(** X13.  What [SuggestAssignment] suggests to an agent is the first item of
    [GetAssignableWork] on the same triage, as an assignment to that agent
    at the item's own score; it suggests nothing exactly when no item is
    assignable. *)
Theorem suggestion_is_first_assignable
        (agent : AgentState Persona) (paneID : string) (triage : TriageAnswer)
        (assignable : list TriageRecommendation) :
  GetAssignableWork triage = inl assignable ->
  SuggestAssignment (Some agent) paneID triage
  = inl (option_map (assignmentFor agent) (head assignable)).
Proof.
  unfold GetAssignableWork, SuggestAssignment. intros H.
  destruct triage as [err| |recommendations]; [done|now injection H as <-|].
  injection H as <-. rewrite assignable_filter. simpl.
  rewrite head_filter_find. fold (firstUnblocked recommendations).
  destruct recommendations as [|r recommendations]; [done|].
  simpl length. simpl Nat.eqb. cbv iota.
  rewrite findBestMatch_first. now destruct (firstUnblocked _).
Qed.

(** X14.  The first result of [AssignWork] is the attempt on what
    [SuggestAssignment] suggests to the first idle agent on the same
    triage; it has no result when nothing is suggested. *)
Theorem first_result_is_suggestion
        (mailClient : option MailClient)
        (agent : AgentState Persona) (idleAgents : list (AgentState Persona))
        (paneID : string) (triage : TriageAnswer)
        (results : list AssignmentResult) :
  AssignWork true mailClient (agent :: idleAgents) triage = inl results ->
  SuggestAssignment (Some agent) paneID triage
  = inl (option_map RAssignment (head results)).
Proof.
  unfold AssignWork, SuggestAssignment. intros H.
  simpl negb in H. simpl length in H. simpl Nat.eqb in H. cbv match in H.
  destruct triage as [err| |recommendations]; [done|now injection H as <-|].
  destruct (assignLoop_panes mailClient (agent :: idleAgents) recommendations [])
    as (more & Heq & _ & Hhead).
  rewrite Heq in H.
  destruct (length recommendations =? 0)%nat eqn:Hlen; injection H as <-; [done|].
  simpl. rewrite Hhead. simpl.
  destruct (findBestMatch agent recommendations) as [[assignment rec]|]; [|done].
  simpl. now rewrite attemptAssignment_assignment.
Qed.

End WithPersona.

(** *** The theorems on the scenario of the specification *)

Definition scenario_selected : list (ScoredAssignment Empty_set) :=
  ScoreAndSelectAssignments noBonus noBonus [agentA; agentB]
    (Some [W1; W2; W3]) DefaultScoreConfig ∅.

Lemma selection_highest_first_witness :
  exists x y, scenario_selected !! 0%nat = Some x /\
              scenario_selected !! 1%nat = Some y /\
              (TotalScore x <? TotalScore y)%float = false.
Proof.
  eexists. eexists. split; [reflexivity|]. split; [reflexivity|].
  apply (selection_highest_first noBonus noBonus [agentA; agentB]
           (Some [W1; W2; W3]) DefaultScoreConfig ∅ 0 1);
    [lia|reflexivity|reflexivity].
Defined.

Lemma left_out_only_for_no_lower_witness :
  exists s,
    s ∈ scenario_selected /\
    (PaneID (Agent s) = PaneID agentB \/ ID (Recommendation s) = ID W1) /\
    (TotalScore s
     <? TotalScore (scoreAssignment noBonus noBonus agentB W1 DefaultScoreConfig ∅))%float
    = false.
Proof.
  apply (left_out_only_for_no_lower noBonus noBonus [agentA; agentB] [W1; W2; W3]
           DefaultScoreConfig ∅ agentB W1).
  - apply list_elem_of_further, list_elem_of_here.
  - apply list_elem_of_here.
  - discriminate.
  - vm_compute. reflexivity.
Defined.

Lemma top_candidate_first_witness :
  exists top rest,
    scenario_selected = top :: rest /\
    (forall agent' rec',
        agent' ∈ [agentA; agentB] -> rec' ∈ [W1; W2; W3] -> Status rec' <> "blocked" ->
        (0 <? TotalScore (scoreAssignment noBonus noBonus agent' rec'
                            DefaultScoreConfig ∅))%float = true ->
        (TotalScore top
         <? TotalScore (scoreAssignment noBonus noBonus agent' rec'
                          DefaultScoreConfig ∅))%float = false).
Proof.
  apply (top_candidate_first noBonus noBonus [agentA; agentB] [W1; W2; W3]
           DefaultScoreConfig ∅ agentB W2).
  - apply list_elem_of_further, list_elem_of_here.
  - apply list_elem_of_further, list_elem_of_here.
  - discriminate.
  - vm_compute. reflexivity.
Defined.

Lemma assign_work_distinct_beads_witness :
  NoDup (map (fun r => BeadID (RAssignment r))
             (List.filter Success (assignLoop None [agentA; agentB] [W3; W2; W1] []))).
Proof.
  apply (assign_work_distinct_beads true None [agentA; agentB] (TriageOk [W3; W2; W1])).
  reflexivity.
Defined.

Lemma assign_work_one_attempt_per_agent_witness :
  map (fun r => AgentPaneID (RAssignment r))
      (assignLoop None [agentA; agentB] [W3; W2; W1] [])
  `sublist_of` map PaneID [agentA; agentB].
Proof.
  apply (assign_work_one_attempt_per_agent true None [agentA; agentB]
           (TriageOk [W3; W2; W1])).
  reflexivity.
Defined.

Lemma suggestion_is_first_assignable_witness :
  CoordinatorQueries.SuggestAssignment (Some agentA) "%1" (TriageOk [W3; W2; W1])
  = inl (option_map (assignmentFor agentA) (head [W2; W1])).
Proof.
  apply (suggestion_is_first_assignable agentA "%1" (TriageOk [W3; W2; W1]) [W2; W1]).
  reflexivity.
Defined.

Lemma first_result_is_suggestion_witness :
  CoordinatorQueries.SuggestAssignment (Some agentA) "%1" (TriageOk [W3; W2; W1])
  = inl (option_map RAssignment
           (head (assignLoop None [agentA; agentB] [W3; W2; W1] []))).
Proof.
  apply (first_result_is_suggestion None agentA [agentB] "%1" (TriageOk [W3; W2; W1])).
  reflexivity.
Defined.


(** *** The complexity estimate and the agent-type bonus *)

Ltac complexity_cases rec :=
  destruct (String.eqb (Type_ rec) "epic"), (String.eqb (Type_ rec) "feature"),
           (String.eqb (Type_ rec) "bug"), (String.eqb (Type_ rec) "task"),
           (String.eqb (Type_ rec) "chore"),
           (Priority rec =? 0)%Z, (Priority rec >=? 3)%Z,
           (5 <=? length (UnblocksIDs rec))%nat, (3 <=? length (UnblocksIDs rec))%nat.

(** X15.  [estimateTaskComplexity] stays within 0 and 1 (and is never a
    NaN), whatever the recommendation. *)
Theorem complexity_in_unit_range (rec : TriageRecommendation) :
  (0 <=? estimateTaskComplexity rec)%float = true /\
  (estimateTaskComplexity rec <=? 1)%float = true.
Proof.
  unfold estimateTaskComplexity. complexity_cases rec; vm_compute; split; reflexivity.
Qed.

(** X16.  An epic always counts as complex: whatever its priority and the
    number of items it unblocks, a Claude agent ("cc", "claude") gets the
    bonus 0.15 for it and a Codex agent ("cod", "codex") the penalty -0.1. *)
Theorem epic_favours_claude (rec : TriageRecommendation) :
  Type_ rec = "epic" ->
  computeAgentTypeBonus "cc" rec = 0.15%float /\
  computeAgentTypeBonus "claude" rec = 0.15%float /\
  computeAgentTypeBonus "cod" rec = (-0.1)%float /\
  computeAgentTypeBonus "codex" rec = (-0.1)%float.
Proof.
  intros He. unfold computeAgentTypeBonus, estimateTaskComplexity. rewrite He.
  destruct (Priority rec =? 0)%Z, (Priority rec >=? 3)%Z,
           (5 <=? length (UnblocksIDs rec))%nat, (3 <=? length (UnblocksIDs rec))%nat;
    vm_compute; repeat split; reflexivity.
Qed.

Lemma epic_favours_claude_witness :
  computeAgentTypeBonus "cc" W1 = 0.15%float /\
  computeAgentTypeBonus "claude" W1 = 0.15%float /\
  computeAgentTypeBonus "cod" W1 = (-0.1)%float /\
  computeAgentTypeBonus "codex" W1 = (-0.1)%float.
Proof. apply (epic_favours_claude W1). reflexivity. Defined.

End CoordinatorMore.

(** ** The scanner *)

Module RedactionMore.
Import GoStrings Redaction RedactionApi RedactionProps.

(** *** [sort.Slice] with the order of [deduplicateMatches] *)

Fixpoint byStart (l : list rmatch) : Prop :=
  match l with
  | [] => True
  | x :: l' => Forall (fun y => m_start x <= m_start y) l' /\ byStart l'
  end.

Lemma lessMatch_true a b : lessMatch a b = true -> m_start a <= m_start b.
Proof.
  unfold lessMatch. destruct (Z.eqb_spec (m_start a) (m_start b)); simpl; [lia|].
  intros H. apply Z.ltb_lt in H. lia.
Qed.

Lemma lessMatch_false a b : lessMatch a b = false -> m_start b <= m_start a.
Proof.
  unfold lessMatch. destruct (Z.eqb_spec (m_start a) (m_start b)); simpl; [lia|].
  intros H. apply Z.ltb_ge in H. lia.
Qed.

Lemma insertSorted_byStart x l : byStart l -> byStart (insertSorted lessMatch x l).
Proof.
  induction l as [|y l IH]; simpl; [intros _; split; [constructor|done]|].
  intros [Hy Hl]. destruct (lessMatch y x) eqn:Hless; simpl.
  - split; [|auto]. apply insertSorted_Forall; [|done]. now apply lessMatch_true.
  - apply lessMatch_false in Hless. split; [|done].
    constructor; [done|]. eapply Forall_impl; [exact Hy|]. simpl. intros z ?. lia.
Qed.

Lemma sortSlice_byStart l : byStart (sortSlice lessMatch l).
Proof. induction l as [|x l IH]; simpl; [done|]. now apply insertSorted_byStart. Qed.

Lemma insertSorted_Permutation {A} (less : A -> A -> bool) x l :
  insertSorted less x l ≡ₚ x :: l.
Proof.
  induction l as [|y l IH]; simpl; [done|].
  destruct (less y x); [|done]. rewrite IH. apply perm_swap.
Qed.

Lemma sortSlice_Permutation {A} (less : A -> A -> bool) l : sortSlice less l ≡ₚ l.
Proof.
  induction l as [|x l IH]; simpl; [done|].
  now rewrite insertSorted_Permutation, IH.
Qed.

(** *** What the loop over the sorted matches drops *)

Lemma removeOverlaps_cover l : byStart l -> forall lastEnd m, m ∈ l ->
  m_start m < lastEnd \/
  exists k, k ∈ removeOverlaps l lastEnd /\ m_start k <= m_start m /\
            (m = k \/ m_start m < m_end k).
Proof.
  induction l as [|x l IH]; intros Hs lastEnd m Hm; [now apply elem_of_nil in Hm|].
  destruct Hs as [Hx Hl]. simpl.
  destruct (Z.ltb_spec (m_start x) lastEnd) as [Hlt|Hge].
  - apply elem_of_cons in Hm as [->|Hm]; [now left|]. now apply IH.
  - right. apply elem_of_cons in Hm as [->|Hm].
    + exists x. split; [apply list_elem_of_here|]. split; [lia|now left].
    + destruct (IH Hl (m_end x) m Hm) as [Hcov|(k & Hk & Hle & Hov)].
      * exists x. split; [apply list_elem_of_here|].
        eapply Forall_forall in Hx; [|exact Hm]. split; [exact Hx|now right].
      * exists k. split; [now apply list_elem_of_further|done].
Qed.

Lemma deduplicate_cover ms m :
  Forall (fun m => 0 <= m_start m) ms -> m ∈ ms ->
  exists k, k ∈ deduplicateMatches ms /\ m_start k <= m_start m /\
            (m = k \/ m_start m < m_end k).
Proof.
  intros Hpos Hm. unfold deduplicateMatches.
  destruct ms as [|m0 ms]; [now apply elem_of_nil in Hm|].
  change (length (m0 :: ms) =? 0)%nat with false. cbv iota.
  destruct (removeOverlaps_cover (sortSlice lessMatch (m0 :: ms))
              (sortSlice_byStart _) (-1) m) as [Hneg|H]; [| |exact H].
  - now rewrite sortSlice_Permutation.
  - eapply Forall_forall in Hpos; [|exact Hm]. simpl in Hpos. lia.
Qed.

(** *** The findings *)

Lemma chain_ordered bound fs : forall pos,
  chain bound pos fs ->
  forall i j f g, (i < j)%nat -> fs !! i = Some f -> fs !! j = Some g ->
                  FEnd f <= FStart g.
Proof.
  induction fs as [|f0 fs IH]; intros pos Hc i j f g Hij Hf Hg; [done|].
  destruct Hc as (_ & _ & Hc). destruct j as [|j]; [lia|]. simpl in Hg.
  destruct i as [|i]; simpl in Hf.
  - injection Hf as <-. apply chain_bounds in Hc as [_ Hall].
    eapply Forall_lookup_1 in Hall; [|exact Hg]. simpl in Hall. lia.
  - apply (IH _ Hc i j); [lia|done|done].
Qed.

Lemma chain_within bound fs : forall pos,
  0 <= pos -> chain bound pos fs ->
  Forall (fun f => 0 <= FStart f /\ FStart f < FEnd f /\ FEnd f <= bound) fs.
Proof.
  induction fs as [|f fs IH]; intros pos Hpos Hc; [constructor|].
  destruct Hc as (H1 & H2 & Hc). pose proof (chain_bounds _ _ _ Hc) as [Hb _].
  constructor; [lia|]. apply (IH (FEnd f)); [lia|done].
Qed.

Section Scanner.
Variable getPatterns : list pattern.
Variable isAllowlisted : str -> list str -> bool.
Variable isCategoryDisabled : Category -> list Category -> bool.

Abbreviation scan' := (scan getPatterns isAllowlisted isCategoryDisabled).
Abbreviation allMatchesOf' := (allMatchesOf getPatterns isAllowlisted isCategoryDisabled).
Abbreviation ScanAndRedact' :=
  (ScanAndRedact getPatterns isAllowlisted isCategoryDisabled).
Abbreviation Scan' := (Scan getPatterns isAllowlisted isCategoryDisabled).
Abbreviation Redact' := (Redact getPatterns isAllowlisted isCategoryDisabled).
Abbreviation ContainsSensitive' :=
  (ContainsSensitive getPatterns isAllowlisted isCategoryDisabled).

Lemma findings_off input cfg :
  CMode cfg = ModeOff -> Findings (ScanAndRedact' input cfg) = [].
Proof. intros H. unfold ScanAndRedact. now rewrite H. Qed.

Lemma findings_scan input cfg :
  CMode cfg <> ModeOff ->
  Findings (ScanAndRedact' input cfg)
  = map toFinding (scan' input (Allowlist cfg) (DisabledCategories cfg)).
Proof.
  intros H. unfold ScanAndRedact.
  destruct (CMode cfg); try done;
    destruct (scan' input (Allowlist cfg) (DisabledCategories cfg)); done.
Qed.


(** *** No match is lost *)

Lemma matchesOf_keep input allowlist p m : forall acc,
  m ∈ acc -> m ∈ matchesOf isAllowlisted input allowlist p acc.
Proof.
  unfold matchesOf. induction (FindAllStringIndex p input) as [|loc locs IH];
    intros acc Hacc; simpl; [done|].
  apply IH.
  destruct (isAllowlisted (substring input (fst loc) (snd loc)) allowlist); [done|].
  apply elem_of_app. now left.
Qed.

Lemma matchesOf_complete input allowlist p loc : forall acc,
  loc ∈ FindAllStringIndex p input ->
  isAllowlisted (substring input (fst loc) (snd loc)) allowlist = false ->
  {| m_category := p_category p;
     m_match := substring input (fst loc) (snd loc);
     m_start := fst loc; m_end := snd loc; m_priority := p_priority p |}
  ∈ matchesOf isAllowlisted input allowlist p acc.
Proof.
  intros acc Hloc Hallow. unfold matchesOf.
  set (m := {| m_category := p_category p |}).
  set (step := fun allMatches (loc : Z * Z) => _).
  assert (Hkeep : forall locs acc, m ∈ acc -> m ∈ foldl step acc locs).
  { induction locs as [|l locs IH]; intros acc' Hacc; simpl; [done|].
    apply IH. unfold step.
    destruct (isAllowlisted (substring input (fst l) (snd l)) allowlist); [done|].
    apply elem_of_app. now left. }
  assert (Haux : forall locs acc, loc ∈ locs -> m ∈ foldl step acc locs).
  { induction locs as [|l locs IH]; intros acc' Hl; simpl.
    { now apply elem_of_nil in Hl. }
    apply elem_of_cons in Hl as [<-|Hl]; [|now apply IH].
    apply Hkeep. unfold step. rewrite Hallow.
    apply elem_of_app. right. now apply list_elem_of_singleton. }
  now apply Haux.
Qed.

Lemma allMatchesOf_complete input allowlist disabled p loc :
  p ∈ getPatterns -> isCategoryDisabled (p_category p) disabled = false ->
  loc ∈ FindAllStringIndex p input ->
  isAllowlisted (substring input (fst loc) (snd loc)) allowlist = false ->
  {| m_category := p_category p;
     m_match := substring input (fst loc) (snd loc);
     m_start := fst loc; m_end := snd loc; m_priority := p_priority p |}
  ∈ allMatchesOf' input allowlist disabled.
Proof.
  intros Hp Hen Hloc Hallow. unfold allMatchesOf.
  set (m := {| m_category := p_category p |}).
  set (step := fun allMatches p => _).
  assert (Hkeep : forall ps acc, m ∈ acc -> m ∈ foldl step acc ps).
  { induction ps as [|q ps IH]; intros acc Hacc; simpl; [done|].
    apply IH. unfold step.
    destruct (isCategoryDisabled (p_category q) disabled); [done|].
    now apply matchesOf_keep. }
  assert (Haux : forall ps acc, p ∈ ps -> m ∈ foldl step acc ps).
  { induction ps as [|q ps IH]; intros acc Hq; simpl.
    { now apply elem_of_nil in Hq. }
    apply elem_of_cons in Hq as [<-|Hq]; [|now apply IH].
    apply Hkeep. unfold step. rewrite Hen. now apply matchesOf_complete. }
  now apply Haux.
Qed.


(** *** The modes *)

(** X19.  Only the mode "redact" rewrites the text: in the modes "off",
    "warn" and "block" the output is the input; the result is blocked
    exactly in the mode "block" with at least one finding; and a mode that
    is none of the four, with at least one finding, leaves the output
    empty. *)
Theorem only_redact_rewrites (input : str) (cfg : Config) :
  let r := ScanAndRedact' input cfg in
  (CMode cfg = ModeOff \/ CMode cfg = ModeWarn \/ CMode cfg = ModeBlock ->
   Output r = input) /\
  (Blocked r = true <-> CMode cfg = ModeBlock /\ Findings r <> []) /\
  (forall name, CMode cfg = ModeOther name ->
                Output r = if (length (Findings r) =? 0)%nat then input else []).
Proof.
  unfold ScanAndRedact.
  destruct (CMode cfg) eqn:Hmode;
    [|destruct (scan' input (Allowlist cfg) (DisabledCategories cfg)) as [|m ms]..];
    simpl; repeat split; try done; try (intros [? ?]; done);
    try (intros [?|[?|?]]; done); try (intros ? ?; done).
Qed.


End Scanner.

Lemma key_locations_ok : locations_ok [keyPattern] keyInput.
Proof.
  intros p Hp. apply list_elem_of_singleton in Hp. subst p.
  simpl. repeat constructor; vm_compute; congruence.
Qed.

Abbreviation keyResult :=
  (ScanAndRedact [keyPattern] (fun _ _ => false) (fun _ _ => false) keyInput redactCfg).



End RedactionMore.

(** ** Line and column of a finding *)

Module LineInfo.
Import GoStrings Redaction RedactionApi.

Lemma index_lookup (data : list Z) (n : nat) (v : Z) :
  data !! n = Some v -> index data (Z.of_nat n) = Returns v.
Proof.
  intros H. unfold index. pose proof (lookup_lt_Some _ _ _ H) as Hlt.
  replace ((0 <=? Z.of_nat n) && (Z.of_nat n <? Z.of_nat (length data))) with true.
  - now rewrite Nat2Z.id, H.
  - symmetry. apply andb_true_iff. split; [apply Z.leb_le|apply Z.ltb_lt]; lia.
Qed.

(** *** The binary search *)

Lemma halve (i j : Z) : 0 <= i -> i < j -> i <= Z.shiftr (i + j) 1 < j.
Proof.
  intros Hi Hij. rewrite Z.shiftr_div_pow2 by lia. change (2 ^ 1) with 2.
  pose proof (Z.div_mod (i + j) 2 ltac:(lia)).
  pose proof (Z.mod_pos_bound (i + j) 2 ltac:(lia)). lia.
Qed.

Lemma searchLoop_boundary (f : Z -> outcome bool) (c n : Z) :
  (forall k, 0 <= k < c -> f k = Returns false) ->
  (forall k, c <= k < n -> f k = Returns true) ->
  forall fuel i j, 0 <= i <= c -> c <= j <= n -> j - i <= Z.of_nat fuel ->
                   searchLoop fuel f i j = Returns c.
Proof.
  intros Hlo Hhi. induction fuel as [|fuel IH]; intros i j Hi Hj Hfuel.
  - simpl. destruct (Z.ltb_spec i j); [lia|]. f_equal. lia.
  - simpl. destruct (Z.ltb_spec i j) as [Hlt|Hge]; [|f_equal; lia].
    pose proof (halve i j ltac:(lia) Hlt) as Hh.
    set (h := Z.shiftr (i + j) 1) in *.
    destruct (Z.lt_ge_cases h c) as [Hhc|Hhc].
    + rewrite (Hlo h) by lia. simpl. apply IH; lia.
    + rewrite (Hhi h) by lia. simpl. apply IH; lia.
Qed.

(** [sort.Search] finds the boundary of a predicate that is false below it
    and true from it on, in at most [n] rounds. *)
Lemma Search_boundary (f : Z -> outcome bool) (c n : Z) :
  0 <= c <= n ->
  (forall k, 0 <= k < c -> f k = Returns false) ->
  (forall k, c <= k < n -> f k = Returns true) ->
  Search n f = Returns c.
Proof.
  intros Hc Hlo Hhi. unfold Search.
  apply (searchLoop_boundary f c n Hlo Hhi); lia.
Qed.

(** *** The line index *)

Definition lineFeeds (s : str) : Z :=
  Z.of_nat (length (List.filter (fun c => Ascii.eqb c LF) s)).

Lemma lineStartsFrom_acc input : forall i acc,
  lineStartsFrom i input acc = acc ++ lineStartsFrom i input [].
Proof.
  induction input as [|c input IH]; intros i acc; simpl.
  - now rewrite app_nil_r.
  - destruct (Ascii.eqb c LF); [|apply IH].
    rewrite (IH _ (acc ++ [i + 1])), (IH _ [i + 1]). now rewrite <- app_assoc.
Qed.

Lemma lineStartsFrom_app a : forall i b,
  lineStartsFrom i (a ++ b) [] = lineStartsFrom i a [] ++ lineStartsFrom (i + len a) b [].
Proof.
  induction a as [|c a IH]; intros i b; simpl.
  - f_equal. unfold len. simpl. lia.
  - replace (i + len (c :: a)) with (i + 1 + len a)
      by (unfold len; simpl length; lia).
    destruct (Ascii.eqb c LF).
    + rewrite (lineStartsFrom_acc (a ++ b)), (lineStartsFrom_acc a), IH.
      now rewrite <- app_assoc.
    + apply IH.
Qed.

Lemma lineStartsFrom_bounds a : forall i,
  Forall (fun v => i < v <= i + len a) (lineStartsFrom i a []).
Proof.
  induction a as [|c a IH]; intros i; simpl; [constructor|].
  assert (Hlen : len (c :: a) = 1 + len a) by (unfold len; simpl length; lia).
  assert (Hrest : Forall (fun v => i < v <= i + len (c :: a))
                         (lineStartsFrom (i + 1) a [])).
  { eapply Forall_impl; [apply IH|]. simpl. intros v ?. lia. }
  destruct (Ascii.eqb c LF); [|done].
  rewrite lineStartsFrom_acc. apply Forall_app. split; [|done].
  apply Forall_singleton. pose proof (PipelineProps.len_nonneg a). lia.
Qed.

Lemma lineStartsFrom_length a : forall i,
  Z.of_nat (length (lineStartsFrom i a [])) = lineFeeds a.
Proof.
  unfold lineFeeds. induction a as [|c a IH]; intros i; simpl; [done|].
  destruct (Ascii.eqb c LF); [|apply IH].
  rewrite lineStartsFrom_acc. cbn [app length]. rewrite !Nat2Z.inj_succ.
  f_equal. apply IH.
Qed.

Lemma lineStartsFrom_none line : forall i, LF ∉ line -> lineStartsFrom i line [] = [].
Proof.
  induction line as [|c line IH]; intros i Hno; simpl; [done|].
  destruct (Ascii.eqb_spec c LF) as [->|_].
  - exfalso. apply Hno. apply list_elem_of_here.
  - apply IH. intros H. apply Hno. now apply list_elem_of_further.
Qed.

Lemma lineFeeds_app a b : lineFeeds (a ++ b) = lineFeeds a + lineFeeds b.
Proof. unfold lineFeeds. rewrite List.filter_app, length_app. lia. Qed.

Lemma lineFeeds_none line : LF ∉ line -> lineFeeds line = 0.
Proof.
  intros H. rewrite <- (lineStartsFrom_length line 0).
  now rewrite lineStartsFrom_none.
Qed.

(** Every text is some complete lines followed by a piece without line
    feed. *)
Lemma last_line_split (s : str) :
  exists before line, s = before ++ line /\ (LF ∉ line) /\
                      (before = [] \/ (exists b, before = b ++ [LF])).
Proof.
  induction s as [|c s IH] using rev_ind.
  - exists [], []. repeat split; [apply not_elem_of_nil|now left].
  - destruct (Ascii.eqb_spec c LF) as [->|Hc].
    + exists (s ++ [LF]), []. rewrite app_nil_r.
      repeat split; [apply not_elem_of_nil|]. right. now exists s.
    + destruct IH as (before & line & -> & Hno & Hb).
      exists before, (line ++ [c]). rewrite <- app_assoc. repeat split; [|done].
      intros H. apply elem_of_app in H as [H|H]; [done|].
      apply list_elem_of_singleton in H. congruence.
Qed.

(** The start of the line that ends the complete lines [before]. *)
Lemma last_start before :
  before = [] \/ (exists b, before = b ++ [LF]) ->
  last (0 :: lineStartsFrom 0 before []) = Some (len before).
Proof.
  intros [->|(b & ->)]; [done|].
  rewrite lineStartsFrom_app.
  change (lineStartsFrom (0 + len b) [LF] []) with [0 + len b + 1].
  rewrite app_comm_cons, last_snoc. f_equal. unfold len. rewrite length_app. simpl. lia.
Qed.

(** *** One finding *)

Lemma lineColumn_from (input : str) (pos : Z) (before line : str) :
  0 <= pos ->
  take (Z.to_nat pos) input = before ++ line ->
  LF ∉ line -> before = [] \/ (exists b, before = b ++ [LF]) ->
  lineColumn (lineStartsFrom 0 input [0]) pos
  = Returns (1 + lineFeeds before, pos - len before + 1).
Proof.
  intros Hpos Hsplit Hno Hb.
  set (prefix := take (Z.to_nat pos) input) in *.
  set (suffix := drop (Z.to_nat pos) input).
  assert (Hlenp : len prefix <= pos).
  { unfold len, prefix in *. rewrite length_take. lia. }
  assert (Hstarts : lineStartsFrom 0 input [0]
                    = (0 :: lineStartsFrom 0 prefix [])
                        ++ lineStartsFrom (len prefix) suffix []).
  { rewrite lineStartsFrom_acc. rewrite <- (take_drop (Z.to_nat pos) input) at 1.
    fold prefix suffix. rewrite lineStartsFrom_app. done. }
  set (low := 0 :: lineStartsFrom 0 prefix []) in *.
  set (high := lineStartsFrom (len prefix) suffix []) in *.
  assert (Hlow : Forall (fun v => v <= pos) low).
  { constructor; [lia|]. eapply Forall_impl; [apply lineStartsFrom_bounds|].
    simpl. intros v ?. lia. }
  assert (Hhigh : Forall (fun v => pos < v) high).
  { destruct (Z.le_gt_cases pos (len input)) as [Hin|Hout].
    - assert (len prefix = pos) as Heq.
      { unfold len, prefix in *. rewrite length_take. lia. }
      eapply Forall_impl; [apply lineStartsFrom_bounds|]. simpl. intros v ?. lia.
    - unfold high, suffix. rewrite drop_ge by (unfold len in Hout; lia). constructor. }
  assert (Hcount : Z.of_nat (length low) = 1 + lineFeeds before).
  { unfold low. simpl length. rewrite Nat2Z.inj_succ, lineStartsFrom_length.
    rewrite Hsplit, lineFeeds_app, (lineFeeds_none line Hno). lia. }
  assert (Hlast : low !! (length low - 1)%nat = Some (len before)).
  { replace (length low - 1)%nat with (pred (length low)) by lia.
    rewrite <- last_lookup. unfold low. rewrite Hsplit, lineStartsFrom_app.
    rewrite (lineStartsFrom_none line) by done. rewrite app_nil_r.
    now apply last_start. }
  unfold lineColumn. rewrite Hstarts.
  rewrite (Search_boundary _ (Z.of_nat (length low))).
  - cbn [obind]. cbv zeta.
    assert (Hline : Z.of_nat (length low) - 1 = Z.of_nat (length low - 1)).
    { unfold low. simpl length. lia. }
    rewrite Hline.
    destruct (Z.ltb_spec (Z.of_nat (length low - 1)) 0) as [?|_]; [lia|].
    rewrite (index_lookup _ _ (len before)).
    2:{ rewrite lookup_app_l; [done|]. unfold low. simpl length. lia. }
    cbn [obind]. f_equal. f_equal. lia.
  - rewrite length_app. lia.
  - intros k Hk.
    destruct (lookup_lt_is_Some_2 low (Z.to_nat k) ltac:(lia)) as [v Hv].
    replace k with (Z.of_nat (Z.to_nat k)) by lia.
    rewrite (index_lookup _ _ v) by (rewrite lookup_app_l; [done|lia]).
    simpl. f_equal. eapply Forall_lookup_1 in Hlow; [|exact Hv].
    simpl in Hlow. rewrite Z.gtb_ltb. apply Z.ltb_ge. lia.
  - intros k Hk. rewrite length_app in Hk.
    destruct (lookup_lt_is_Some_2 high (Z.to_nat k - length low) ltac:(lia)) as [v Hv].
    replace k with (Z.of_nat (Z.to_nat k)) by lia.
    rewrite (index_lookup _ _ v) by (rewrite lookup_app_r; [rewrite <- Hv; f_equal; lia|lia]).
    simpl. f_equal. eapply Forall_lookup_1 in Hhigh; [|exact Hv].
    simpl in Hhigh. rewrite Z.gtb_ltb. apply Z.ltb_lt. lia.
Qed.

Lemma lineColumn_before (input : str) (pos : Z) :
  pos < 0 -> lineColumn (lineStartsFrom 0 input [0]) pos = Returns (1, pos + 1).
Proof.
  intros Hpos. rewrite lineStartsFrom_acc.
  set (rest := lineStartsFrom 0 input []).
  assert (Hall : Forall (fun v => pos < v) ([0] ++ rest)).
  { constructor; [lia|]. eapply Forall_impl; [apply lineStartsFrom_bounds|].
    simpl. intros v ?. lia. }
  unfold lineColumn. rewrite (Search_boundary _ 0).
  - simpl. f_equal. f_equal. lia.
  - lia.
  - intros k Hk. lia.
  - intros k Hk.
    destruct (lookup_lt_is_Some_2 ([0] ++ rest) (Z.to_nat k) ltac:(lia)) as [v Hv].
    replace k with (Z.of_nat (Z.to_nat k)) by lia.
    rewrite (index_lookup _ _ v Hv). simpl. f_equal.
    eapply Forall_lookup_1 in Hall; [|exact Hv]. simpl in Hall.
    rewrite Z.gtb_ltb. apply Z.ltb_lt. lia.
Qed.

(** *** All findings *)

Definition located (input : str) (f : Finding) (lc : Z * Z) : Prop :=
  0 <= FStart f <= len input ->
  fst lc = 1 + lineFeeds (take (Z.to_nat (FStart f)) input) /\
  exists before line,
    take (Z.to_nat (FStart f)) input = before ++ line /\
    (LF ∉ line) /\ (before = [] \/ (exists b, before = b ++ [LF])) /\
    snd lc = 1 + len line.

Lemma lineColumn_located (input : str) (f : Finding) :
  exists lc, lineColumn (lineStartsFrom 0 input [0]) (FStart f) = Returns lc /\
             located input f lc.
Proof.
  destruct (Z.lt_ge_cases (FStart f) 0) as [Hneg|Hpos].
  { eexists. split; [now apply lineColumn_before|]. intros ?. lia. }
  destruct (last_line_split (take (Z.to_nat (FStart f)) input))
    as (before & line & Hsplit & Hno & Hb).
  eexists. split; [now apply (lineColumn_from input _ before line)|].
  intros Hin. simpl. split.
  - now rewrite Hsplit, lineFeeds_app, (lineFeeds_none line Hno), Z.add_0_r.
  - exists before, line. repeat split; try done.
    assert (Hlen : len (take (Z.to_nat (FStart f)) input) = FStart f).
    { unfold len in *. rewrite length_take. lia. }
    rewrite Hsplit in Hlen. unfold len in *. rewrite length_app in Hlen. lia.
Qed.

(** X21.  [AddLineInfo] never indexes out of range, whatever the positions
    of the findings.  A finding that starts inside the input (or at its end)
    gets as [Line] one more than the number of line feeds before its start,
    and as [Column] one more than the number of bytes between the last of
    these line feeds (or the beginning of the input) and its start. *)
Theorem line_and_column (input : str) (findings : list Finding) :
  exists lcs, AddLineInfo input findings = Returns lcs /\
              Forall2 (located input) findings lcs.
Proof.
  unfold AddLineInfo. destruct findings as [|f0 findings0]; [now exists []|].
  change (length (f0 :: findings0) =? 0)%nat with false. cbv iota.
  generalize (f0 :: findings0) as findings. clear.
  induction findings as [|f findings IH]; [now exists []|].
  destruct IH as (lcs & Hlcs & Hall).
  destruct (lineColumn_located input f) as (lc & Hlc & Hf).
  exists (lc :: lcs). simpl. rewrite Hlc, Hlcs. split; [done|]. now constructor.
Qed.

Example line_and_column_example :
  AddLineInfo (lit "ab" ++ [LF] ++ lit "cd" ++ [LF] ++ lit "ef")
              [mkFinding [] [] [] 0 1; mkFinding [] [] [] 4 5; mkFinding [] [] [] 6 8]
  = Returns [(1, 1); (2, 2); (3, 1)].
Proof. vm_compute. reflexivity. Qed.

End LineInfo.

(** ** The agent name of a session *)

Module AgentMailMore.
Import GoStrings AgentMail AgentMailProps AgentMailNames.

(** *** One record file per session *)

(** X22.  Two sessions never share a record file: with a configuration
    directory that is an absolute path of plain elements, session names that
    are plain (not empty, not "." or "..", without a slash) and different
    have different paths. *)
Theorem session_paths_differ (os : OS) (dirs : list str) (name1 name2 : str) :
  UserConfigDir os = Some (Filepath.slash :: Filepath.joinSlash dirs) ->
  dirs <> [] -> Forall plain dirs -> plain name1 -> plain name2 ->
  name1 <> name2 -> sessionAgentPath os name1 <> sessionAgentPath os name2.
Proof.
  intros Hdir Hne Hdirs H1 H2 Hdiff Heq. apply Hdiff.
  destruct (session_path_form os dirs name1 Hdir Hne Hdirs H1) as [Hp1 _].
  destruct (session_path_form os dirs name2 Hdir Hne Hdirs H2) as [Hp2 _].
  rewrite Hp1, Hp2 in Heq.
  apply app_inv_head in Heq. apply app_inv_head in Heq.
  now apply app_inv_tail in Heq.
Qed.

Lemma session_paths_differ_witness :
  sessionAgentPath linux (lit "alpha") <> sessionAgentPath linux (lit "beta").
Proof.
  assert (Hplain : forall e, In e [lit "home"; lit "dev"; lit ".config";
                                   lit "alpha"; lit "beta"] -> plain e).
  { intros e He. simpl in He. unfold plain.
    destruct He as [<-|[<-|[<-|[<-|[<-|[]]]]]]; repeat split; try discriminate;
      intros Hin; apply list_elem_of_In in Hin; simpl in Hin;
      intuition discriminate. }
  apply (session_paths_differ linux [lit "home"; lit "dev"; lit ".config"]
           (lit "alpha") (lit "beta")).
  - reflexivity.
  - discriminate.
  - repeat (apply Forall_cons; split); try apply Forall_nil_2;
      apply Hplain; simpl; auto.
  - apply Hplain; simpl; auto 6.
  - apply Hplain; simpl; auto 6.
  - discriminate.
Defined.

(** A session name that is not plain can reach the file of another
    session. *)
Example session_path_escape :
  sessionAgentPath linux (lit "a/../b") = sessionAgentPath linux (lit "b") /\
  sessionAgentPath linux (lit "../../x")
  = lit "/home/dev/.config/x/agent.json".
Proof. vm_compute. split; reflexivity. Qed.

(** *** The characters *)

Definition isLowerOrDigit (c : ascii) : bool :=
  let n := nat_of_ascii c in
  ((48 <=? n) && (n <=? 57) || (97 <=? n) && (n <=? 122))%nat.

Definition nameChar (c : ascii) : bool :=
  isLowerOrDigit c || Ascii.eqb c underscore.

Ltac each_byte c :=
  destruct c as [[] [] [] [] [] [] [] []]; vm_compute; try reflexivity;
  try discriminate; try tauto.

Lemma alnum_not_underscore c : isAlnum c = true -> Ascii.eqb c underscore = false.
Proof. each_byte c. Qed.

Lemma lower_alnum c : isAlnum c = true -> isLowerOrDigit (lowerByte c) = true.
Proof. each_byte c. Qed.

Lemma lower_underscore c :
  isAlnum c = true \/ c = underscore ->
  Ascii.eqb (lowerByte c) underscore = Ascii.eqb c underscore.
Proof. intros [H| ->]; [revert H; each_byte c|reflexivity]. Qed.

Lemma lower_fixed c : nameChar c = true -> lowerByte c = c.
Proof. each_byte c. Qed.

Lemma nameChar_cases c :
  nameChar c = true -> (isAlnum c = true /\ c <> underscore) \/ c = underscore.
Proof.
  destruct c as [[] [] [] [] [] [] [] []]; vm_compute; intros H;
    try discriminate H; (now right) || (left; split; [reflexivity|discriminate]).
Qed.

(** *** The shape of a name *)

Definition replaced (c : ascii) : Prop := isAlnum c = true \/ c = underscore.

(** No two underscores in a row. *)
Fixpoint single (s : str) : Prop :=
  match s with
  | [] => True
  | c :: rest => (c = underscore -> head rest <> Some underscore) /\ single rest
  end.

Lemma Replace_chars name : forall inMatch,
  Forall replaced (ReplaceAllString name inMatch).
Proof.
  induction name as [|c name IH]; intros inMatch; simpl; [constructor|].
  destruct (isAlnum c) eqn:Hc; [constructor; [now left|apply IH]|].
  destruct inMatch; [apply IH|]. constructor; [now right|apply IH].
Qed.

Lemma Replace_single name : forall inMatch,
  single (ReplaceAllString name inMatch) /\
  (inMatch = true -> head (ReplaceAllString name inMatch) <> Some underscore).
Proof.
  induction name as [|c name IH]; intros inMatch; simpl; [done|].
  destruct (isAlnum c) eqn:Hc.
  - split.
    + split; [|apply IH]. intros ->. discriminate Hc.
    + intros _. simpl. intros [= ->]. discriminate Hc.
  - destruct inMatch.
    + apply IH.
    + split; [|done]. split; [|apply IH]. intros _. now apply IH.
Qed.

(** The bytes that [strings.ToLower] is given are ASCII. *)
Lemma replaced_ascii name :
  Forall (fun c => (nat_of_ascii c < 128)%nat) (Trim (ReplaceAllString name false)).
Proof.
  assert (Hsub : forall s, Forall replaced s -> Forall replaced (Trim s)).
  { intros s Hs. unfold Trim.
    assert (Hr : Forall replaced (TrimRight s)).
    { induction Hs as [|c s Hc Hs IH]; simpl; [constructor|].
      destruct (TrimRight s) eqn:Ht.
      - destruct (Ascii.eqb c underscore); [constructor|now constructor].
      - now constructor. }
    induction Hr as [|c t Hc Ht IH]; simpl; [constructor|].
    destruct (Ascii.eqb c underscore); [done|now constructor]. }
  eapply Forall_impl; [apply Hsub, Replace_chars|].
  intros c [Hc| ->]; [|vm_compute; lia].
  revert Hc. destruct c as [[] [] [] [] [] [] [] []]; vm_compute; intros H;
    try discriminate H; lia.
Qed.

Lemma TrimRight_Forall (P : ascii -> Prop) s : Forall P s -> Forall P (TrimRight s).
Proof.
  induction 1 as [|c s Hc Hs IH]; simpl; [constructor|].
  destruct (TrimRight s) eqn:Ht.
  - destruct (Ascii.eqb c underscore); [constructor|now constructor].
  - now constructor.
Qed.

Lemma TrimLeft_Forall (P : ascii -> Prop) s : Forall P s -> Forall P (TrimLeft s).
Proof.
  induction 1 as [|c s Hc Hs IH]; simpl; [constructor|].
  destruct (Ascii.eqb c underscore); [done|now constructor].
Qed.

Lemma TrimRight_head s :
  head (TrimRight s) = None \/ head (TrimRight s) = head s.
Proof.
  destruct s as [|c s]; simpl; [now left|].
  destruct (TrimRight s); [|now right].
  destruct (Ascii.eqb c underscore); [now left|now right].
Qed.

Lemma TrimRight_single s : single s -> single (TrimRight s).
Proof.
  induction s as [|c s IH]; simpl; [done|]. intros [Hc Hs].
  specialize (IH Hs).
  destruct (TrimRight s) as [|d t] eqn:Ht.
  - destruct (Ascii.eqb c underscore); simpl; [done|]. split; [|done]. done.
  - split; [|done]. intros Hu. specialize (Hc Hu).
    pose proof (TrimRight_head s) as Hhead. rewrite Ht in Hhead.
    destruct Hhead as [Hn|He]; [done|]. now rewrite He.
Qed.

Lemma TrimRight_last s : last (TrimRight s) <> Some underscore.
Proof.
  induction s as [|c s IH]; simpl; [done|].
  destruct (TrimRight s) as [|d t] eqn:Ht.
  - destruct (Ascii.eqb_spec c underscore) as [->|Hc]; simpl; [done|congruence].
  - exact IH.
Qed.

Lemma TrimLeft_single s : single s -> single (TrimLeft s).
Proof.
  induction s as [|c s IH]; simpl; [done|]. intros [Hc Hs].
  destruct (Ascii.eqb c underscore); [auto|]. now split.
Qed.

Lemma TrimLeft_head s : head (TrimLeft s) <> Some underscore.
Proof.
  induction s as [|c s IH]; simpl; [done|].
  destruct (Ascii.eqb_spec c underscore) as [->|Hc]; [done|]. simpl. congruence.
Qed.

Lemma TrimLeft_last s : last s <> Some underscore -> last (TrimLeft s) <> Some underscore.
Proof.
  induction s as [|c s IH]; simpl; [done|]. intros Hl.
  destruct (Ascii.eqb_spec c underscore) as [->|Hc]; [|done].
  apply IH. destruct s; [done|]. exact Hl.
Qed.

(** What [Trim] hands to [ToLower]. *)
Definition trimmed (s : str) : Prop :=
  Forall replaced s /\ single s /\
  head s <> Some underscore /\ last s <> Some underscore.

Lemma Trim_trimmed name : trimmed (Trim (ReplaceAllString name false)).
Proof.
  unfold trimmed, Trim. repeat split.
  - apply TrimLeft_Forall, TrimRight_Forall, Replace_chars.
  - apply TrimLeft_single, TrimRight_single, Replace_single.
  - apply TrimLeft_head.
  - apply TrimLeft_last, TrimRight_last.
Qed.

(** A name: lower-case letters, digits and underscores, no underscore at
    either end and no two in a row. *)
Definition wellFormed (s : str) : Prop :=
  Forall (fun c => nameChar c = true) s /\ single s /\
  head s <> Some underscore /\ last s <> Some underscore.

Lemma ToLower_head s :
  Forall replaced s -> head s <> Some underscore ->
  head (ToLower s) <> Some underscore.
Proof.
  destruct 1 as [|c s Hc Hs]; simpl; [done|]. intros Hh [= He].
  apply Hh. f_equal. apply Ascii.eqb_eq.
  rewrite <- (lower_underscore c Hc). now apply Ascii.eqb_eq.
Qed.

Lemma ToLower_single s : Forall replaced s -> single s -> single (ToLower s).
Proof.
  induction 1 as [|c s Hc Hs IH]; simpl; [done|]. intros [Hu Hsingle].
  split; [|auto]. intros He.
  assert (c = underscore) as ->.
  { apply Ascii.eqb_eq. rewrite <- (lower_underscore c Hc). now apply Ascii.eqb_eq. }
  apply ToLower_head; auto.
Qed.

Lemma ToLower_last s :
  Forall replaced s -> last s <> Some underscore ->
  last (ToLower s) <> Some underscore.
Proof.
  intros Hs Hl. unfold ToLower. rewrite fmap_last.
  destruct (last s) as [c|] eqn:Hc; simpl; [|done]. intros [= He].
  apply Hl. f_equal. apply Ascii.eqb_eq.
  rewrite <- (lower_underscore c); [now apply Ascii.eqb_eq|].
  apply last_Some_elem_of in Hc. eapply Forall_forall in Hs; eauto.
Qed.

Lemma ToLower_wellFormed s : trimmed s -> wellFormed (ToLower s).
Proof.
  intros (Hc & Hs & Hh & Hl). repeat split.
  - unfold ToLower. apply Forall_fmap. eapply Forall_impl; [exact Hc|].
    intros c [Ha| ->]; [|reflexivity]. simpl. unfold nameChar.
    now rewrite lower_alnum.
  - now apply ToLower_single.
  - now apply ToLower_head.
  - now apply ToLower_last.
Qed.

Lemma sanitize_wellFormed name : wellFormed (sanitizeSessionName name).
Proof. apply ToLower_wellFormed, Trim_trimmed. Qed.

(** *** A well-formed name is left as it is *)

Lemma Replace_fixed s : forall inMatch,
  Forall (fun c => nameChar c = true) s -> single s ->
  (inMatch = true -> head s <> Some underscore) ->
  ReplaceAllString s inMatch = s.
Proof.
  induction s as [|c s IH]; intros inMatch Hc Hs Hh; simpl; [done|].
  apply Forall_cons in Hc as [Hc Hrest]. destruct Hs as [Hu Hs].
  destruct (nameChar_cases c Hc) as [[Ha Hne]| ->].
  - rewrite Ha. f_equal. apply IH; [done|done|discriminate].
  - change (isAlnum underscore) with false. cbv iota.
    destruct inMatch; [exfalso; now apply Hh|].
    f_equal. apply IH; [done|done|]. intros _. now apply Hu.
Qed.

Lemma TrimRight_fixed s : last s <> Some underscore -> TrimRight s = s.
Proof.
  induction s as [|c s IH]; simpl; [done|]. intros Hl.
  destruct s as [|d s].
  - simpl. destruct (Ascii.eqb_spec c underscore) as [->|_]; [done|done].
  - rewrite IH by exact Hl. done.
Qed.

Lemma TrimLeft_fixed s : head s <> Some underscore -> TrimLeft s = s.
Proof.
  destruct s as [|c s]; simpl; [done|]. intros Hh.
  destruct (Ascii.eqb_spec c underscore) as [->|_]; [done|done].
Qed.

Lemma ToLower_fixed s : Forall (fun c => nameChar c = true) s -> ToLower s = s.
Proof.
  induction 1 as [|c s Hc Hs IH]; simpl; [done|]. now rewrite lower_fixed, IH.
Qed.

Lemma sanitize_fixed s : wellFormed s -> sanitizeSessionName s = s.
Proof.
  intros (Hc & Hs & Hh & Hl). unfold sanitizeSessionName, Trim.
  rewrite Replace_fixed by (done || discriminate).
  rewrite TrimRight_fixed by done. rewrite TrimLeft_fixed by done.
  now apply ToLower_fixed.
Qed.

(** X23.  Whatever the session name, [sanitizeSessionName] returns only
    lower-case letters, digits and underscores, with no underscore at the
    beginning or at the end and no two underscores in a row. *)
Theorem sanitized_name_shape (name : str) :
  let s := sanitizeSessionName name in
  Forall (fun c => isLowerOrDigit c = true \/ c = underscore) s /\
  head s <> Some underscore /\ last s <> Some underscore /\
  (forall i, s !! i = Some underscore -> s !! S i <> Some underscore).
Proof.
  destruct (sanitize_wellFormed name) as (Hc & Hs & Hh & Hl).
  simpl. repeat split; try done.
  - eapply Forall_impl; [exact Hc|]. intros c H. unfold nameChar in H.
    apply orb_true_iff in H as [H|H]; [now left|right; now apply Ascii.eqb_eq].
  - revert Hs. generalize (sanitizeSessionName name) as s. clear.
    induction s as [|c s IH]; intros Hs i Hi; [done|].
    destruct Hs as [Hu Hs]. destruct i as [|i]; simpl in *.
    + injection Hi as ->. destruct s; [done|]. simpl. now apply Hu.
    + now apply IH.
Qed.

(** X24.  [sanitizeSessionName] leaves a name of that shape as it is; in
    particular sanitizing twice gives what sanitizing once gives. *)
Theorem sanitize_idempotent (name : str) :
  sanitizeSessionName (sanitizeSessionName name) = sanitizeSessionName name.
Proof. apply sanitize_fixed, sanitize_wellFormed. Qed.

Example sanitize_examples :
  map sanitizeSessionName
      [lit "My Project!"; lit "__a--b__"; lit "???"; lit "caf" ++ [ascii_of_nat 195; ascii_of_nat 169] ++ lit "-2"]
  = [lit "my_project"; lit "a_b"; lit ""; lit "caf_2"].
Proof. vm_compute. reflexivity. Qed.

End AgentMailMore.

(** ** The pane of a stage and the log line *)

Module PipelineStagesProps.
Import GoStrings PipelineStages.

Lemma streq_is_neq (s t : str) : streq s t = false <-> s <> t.
Proof. unfold streq. apply bool_decide_eq_false. Qed.

Section WithToLower.
Variable ToLower : str -> str.

Abbreviation normalizeAgentType' := (normalizeAgentType ToLower).
Abbreviation findPaneForStage' := (findPaneForStage ToLower).

(** *** findPaneForStage *)

Definition exact (targetType model : str) (q : Pane) : Prop :=
  PType q = targetType /\ (model = [] \/ Variant q = model).

Lemma exactPass_spec panes targetType model :
  match exactPass panes targetType model with
  | Some id =>
      exists before p after,
        panes = before ++ p :: after /\ ID p = id /\ exact targetType model p /\
        Forall (fun q => ~ exact targetType model q) before
  | None => Forall (fun q => ~ exact targetType model q) panes
  end.
Proof.
  induction panes as [|p panes IH]; simpl; [constructor|].
  assert (Hskip : ~ exact targetType model p ->
            match exactPass panes targetType model with
            | Some id =>
                exists before p' after,
                  p :: panes = before ++ p' :: after /\ ID p' = id /\
                  exact targetType model p' /\
                  Forall (fun q => ~ exact targetType model q) before
            | None => Forall (fun q => ~ exact targetType model q) (p :: panes)
            end).
  { intros Hp. destruct (exactPass panes targetType model) as [id|].
    - destruct IH as (before & p' & after & -> & Hid & Hex & Hbefore).
      exists (p :: before), p', after.
      split; [done|]. split; [done|]. split; [done|]. now constructor.
    - now constructor. }
  destruct (streq (PType p) targetType) eqn:Ht.
  2:{ apply Hskip. apply streq_is_neq in Ht. now intros [? _]. }
  apply PipelineProps.streq_true in Ht.
  destruct (streq model []) eqn:Hm; simpl.
  { apply PipelineProps.streq_true in Hm. exists [], p, panes.
    split; [done|]. split; [done|]. split; [split; auto|constructor]. }
  apply streq_is_neq in Hm.
  destruct (streq (Variant p) model) eqn:Hv; simpl.
  { apply PipelineProps.streq_true in Hv. exists [], p, panes.
    split; [done|]. split; [done|]. split; [split; auto|constructor]. }
  apply streq_is_neq in Hv. apply Hskip. intros [_ [?|?]]; done.
Qed.

Lemma relaxedPass_spec panes targetType :
  match relaxedPass panes targetType with
  | Some id =>
      exists before p after,
        panes = before ++ p :: after /\ ID p = id /\ PType p = targetType /\
        Forall (fun q => PType q <> targetType) before
  | None => Forall (fun q => PType q <> targetType) panes
  end.
Proof.
  induction panes as [|p panes IH]; simpl; [constructor|].
  destruct (streq (PType p) targetType) eqn:Ht.
  { apply PipelineProps.streq_true in Ht. exists [], p, panes. repeat split; auto. }
  apply streq_is_neq in Ht.
  destruct (relaxedPass panes targetType) as [id|].
  - destruct IH as (before & p' & after & -> & Hid & Hty & Hbefore).
    exists (p :: before), p', after. repeat split; try done. now constructor.
  - now constructor.
Qed.

(** X25.  [findPaneForStage] answers the first pane of the session whose
    type is the normalized agent type and whose variant is the model asked
    for (any variant when no model is asked for); when a model is asked for
    and no pane of the type has it, the first pane of the type; and the
    error "no agent found" exactly when no pane has the type. *)
Theorem pane_for_stage (panes : list Pane) (agentType model : str) :
  let targetType := normalizeAgentType' agentType in
  match findPaneForStage' (inl panes) agentType model with
  | inl id =>
      exists before p after,
        panes = before ++ p :: after /\ ID p = id /\ PType p = targetType /\
        (((model = [] \/ Variant p = model) /\
          Forall (fun q => ~ (PType q = targetType /\
                              (model = [] \/ Variant q = model))) before)
         \/
         (model <> [] /\
          Forall (fun q => PType q = targetType -> Variant q <> model) panes /\
          Forall (fun q => PType q <> targetType) before))
  | inr err =>
      Forall (fun q => PType q <> targetType) panes /\
      err = lit "no agent found for type " ++ agentType ++ lit " (model "
              ++ model ++ lit ")"
  end.
Proof.
  intros targetType. unfold findPaneForStage. fold targetType.
  pose proof (exactPass_spec panes targetType model) as He.
  destruct (exactPass panes targetType model) as [id|].
  { destruct He as (before & p & after & Hp & Hid & [Hty Hm] & Hbefore).
    exists before, p, after. repeat split; try done. left. split; done. }
  destruct (streq model []) eqn:Hm; simpl.
  { apply PipelineProps.streq_true in Hm. split; [|done].
    eapply Forall_impl; [exact He|]. intros q Hq Hty. apply Hq. split; auto. }
  apply streq_is_neq in Hm.
  pose proof (relaxedPass_spec panes targetType) as Hr.
  destruct (relaxedPass panes targetType) as [id|]; [|split; done].
  destruct Hr as (before & p & after & Hp & Hid & Hty & Hbefore).
  exists before, p, after. repeat split; try done. right. repeat split; try done.
  eapply Forall_impl; [exact He|]. intros q Hq Hq' Hv. apply Hq. split; auto.
Qed.

(** *** normalizeAgentType *)

Lemma normalize_cases (t : str) :
  normalizeAgentType' t = t \/
  normalizeAgentType' t = lit "cc" \/ normalizeAgentType' t = lit "cod" \/
  normalizeAgentType' t = lit "gmi".
Proof.
  unfold normalizeAgentType.
  destruct (_ || _); [auto|]. destruct (_ || _); [auto|].
  destruct (_ || _); auto.
Qed.

(** X26.  Normalizing an agent type twice gives what normalizing it once
    gives: the three short names "cc", "cod" and "gmi" are left as they
    are, as is every name that is no alias.  ([strings.ToLower] is taken
    to leave the three short names unchanged.) *)
Theorem normalize_idempotent (t : str) :
  ToLower (lit "cc") = lit "cc" -> ToLower (lit "cod") = lit "cod" ->
  ToLower (lit "gmi") = lit "gmi" ->
  normalizeAgentType' (normalizeAgentType' t) = normalizeAgentType' t.
Proof.
  intros Hcc Hcod Hgmi.
  destruct (normalize_cases t) as [Ht|[Ht|[Ht|Ht]]]; rewrite Ht.
  - exact Ht.
  - unfold normalizeAgentType. now rewrite Hcc.
  - unfold normalizeAgentType. now rewrite Hcod.
  - unfold normalizeAgentType. now rewrite Hgmi.
Qed.

End WithToLower.

Lemma normalize_idempotent_witness :
  normalizeAgentType AgentMailNames.ToLower
    (normalizeAgentType AgentMailNames.ToLower (lit "Claude-Code"))
  = normalizeAgentType AgentMailNames.ToLower (lit "Claude-Code").
Proof.
  apply (normalize_idempotent AgentMailNames.ToLower (lit "Claude-Code"));
    reflexivity.
Defined.

Example pane_for_stage_example :
  let panes := [mkPane (lit "%1") (lit "cod") (lit "");
                mkPane (lit "%2") (lit "cc") (lit "sonnet");
                mkPane (lit "%3") (lit "cc") (lit "opus")] in
  map (fun am => findPaneForStage AgentMailNames.ToLower (inl panes) (fst am) (snd am))
      [(lit "Claude", lit "opus"); (lit "claude", lit "");
       (lit "cc", lit "haiku"); (lit "gemini", lit "")]
  = [inl (lit "%3"); inl (lit "%2"); inl (lit "%2");
     inr (lit "no agent found for type gemini (model )")].
Proof. vm_compute. reflexivity. Qed.

(** *** truncate *)

Fixpoint ascending (l : list Z) : Prop :=
  match l with
  | [] => True
  | x :: l' => Forall (fun y => x < y) l' /\ ascending l'
  end.

Lemma runeStartsFrom_bounds s : forall i skip,
  Forall (fun k => i <= k < i + len s) (runeStartsFrom i skip s).
Proof.
  induction s as [|c s IH]; intros i skip; simpl; [constructor|].
  assert (Hlen : len (c :: s) = 1 + len s) by (unfold len; simpl length; lia).
  pose proof (PipelineProps.len_nonneg s) as Hs.
  assert (Hrest : forall skip', Forall (fun k => i <= k < i + len (c :: s))
                                       (runeStartsFrom (i + 1) skip' s)).
  { intros skip'. eapply Forall_impl; [apply IH|]. simpl. intros k ?. lia. }
  destruct skip; [|apply Hrest]. constructor; [lia|apply Hrest].
Qed.

Lemma runeStartsFrom_ascending s : forall i skip,
  ascending (runeStartsFrom i skip s).
Proof.
  induction s as [|c s IH]; intros i skip; simpl; [done|].
  destruct skip; [|apply IH]. split; [|apply IH].
  eapply Forall_impl; [apply runeStartsFrom_bounds|]. simpl. intros k ?. lia.
Qed.

Lemma lastNotBeyond_in starts bound : forall last,
  last <= bound ->
  lastNotBeyond starts bound last <= bound /\
  (lastNotBeyond starts bound last = last \/
   In (lastNotBeyond starts bound last) starts).
Proof.
  induction starts as [|i starts IH]; intros last Hlast; simpl; [auto|].
  destruct (Z.gtb_spec i bound) as [Hgt|Hle]; [auto|].
  destruct (IH i Hle) as [Hb Hor]. split; [exact Hb|]. right.
  destruct Hor as [He|Hin]; [left; now rewrite He|now right].
Qed.

Lemma lastNotBeyond_ge starts bound : forall last,
  ascending (last :: starts) -> last <= lastNotBeyond starts bound last.
Proof.
  induction starts as [|i starts IH]; intros last [Hall Hasc]; simpl; [lia|].
  destruct (Z.gtb_spec i bound) as [Hgt|Hle]; [lia|].
  apply Forall_cons in Hall as [Hi _]. specialize (IH i Hasc). lia.
Qed.

Lemma lastNotBeyond_max starts bound : forall last k,
  ascending starts -> In k starts -> k <= bound ->
  k <= lastNotBeyond starts bound last.
Proof.
  induction starts as [|i starts IH]; intros last k Hasc Hk Hle; [done|].
  simpl. destruct Hasc as [Hall Hasc].
  destruct (Z.gtb_spec i bound) as [Hgt|Hib].
  - destruct Hk as [<-|Hk]; [lia|].
    apply list_elem_of_In in Hk. eapply Forall_forall in Hall; [|exact Hk].
    simpl in Hall. lia.
  - destruct Hk as [<-|Hk]; [|now apply IH].
    apply lastNotBeyond_ge. now split.
Qed.

Lemma runeStarts_bounds s : Forall (fun k => 0 <= k < len s) (runeStarts s).
Proof. apply (runeStartsFrom_bounds s 0 0). Qed.

Lemma slice_to_take (s : str) (k : Z) :
  0 <= k <= len s -> slice_to s k = Returns (take (Z.to_nat k) s).
Proof.
  intros Hk. unfold slice_to, slice.
  replace ((0 <=? 0) && (0 <=? k) && (k <=? len s)) with true.
  - simpl. now rewrite Z.sub_0_r.
  - symmetry. rewrite !andb_true_iff, !Z.leb_le. lia.
Qed.

(** The index at which [truncate] cuts: the last character start that is
    not beyond [bound], or 0. *)
Lemma cut_spec (s : str) (bound : Z) :
  0 <= bound ->
  let k := lastNotBeyond (runeStarts s) bound 0 in
  0 <= k <= bound /\ k <= len s /\ (k = 0 \/ In k (runeStarts s)) /\
  (forall k', In k' (runeStarts s) -> k' <= bound -> k' <= k).
Proof.
  intros Hb k.
  destruct (lastNotBeyond_in (runeStarts s) bound 0 Hb) as [Hle Hin].
  fold k in Hle, Hin.
  assert (Hrange : 0 <= k <= len s).
  { destruct Hin as [->|Hin]; [pose proof (PipelineProps.len_nonneg s); lia|].
    apply list_elem_of_In in Hin.
    pose proof (runeStarts_bounds s) as Hall.
    eapply Forall_forall in Hall; [|exact Hin]. simpl in Hall. lia. }
  repeat split; try lia; [exact Hin|].
  intros k' Hk' Hle'. apply lastNotBeyond_max; [|done|done].
  apply runeStartsFrom_ascending.
Qed.

(** X27.  [truncate] never slices out of range; its result has at most [n]
    bytes; a string of at most [n] bytes is returned as it is; a longer one
    is cut at the start of a character, the last one that leaves room, and
    followed by "..." when [n] exceeds 3. *)
Theorem truncate_spec (s : str) (n : Z) :
  exists r,
    truncate s n = Returns r /\
    (0 <= n -> len r <= n) /\
    (len s <= n -> r = s) /\
    (n < len s ->
     exists k,
       r = take (Z.to_nat k) s ++ (if 3 <? n then lit "..." else []) /\
       (k = 0 \/ In k (runeStarts s)) /\
       (forall k', In k' (runeStarts s) ->
                   k' <= (if 3 <? n then n - 3 else n) -> k' <= k)).
Proof.
  pose proof (PipelineProps.len_nonneg s) as Hs.
  unfold truncate.
  destruct (Z.leb_spec n 0) as [Hn|Hn].
  { exists []. split; [done|]. split; [unfold len; simpl; lia|]. split.
    - intros Hle. destruct s; [done|]. unfold len in Hle. simpl in Hle. lia.
    - intros _. exists 0. destruct (Z.ltb_spec 3 n); [lia|].
      split; [done|]. split; [now left|]. intros k' Hk' Hle.
      apply list_elem_of_In in Hk'. pose proof (runeStarts_bounds s) as Hall.
      eapply Forall_forall in Hall; [|exact Hk']. simpl in Hall. lia. }
  destruct (Z.leb_spec (len s) n) as [Hfit|Hlong].
  { exists s. split; [done|]. split; [lia|]. split; [done|]. lia. }
  destruct (Z.leb_spec n 3) as [Hsmall|Hbig].
  - destruct (cut_spec s n ltac:(lia)) as (Hk & Hks & Hin & Hmax).
    set (k := lastNotBeyond (runeStarts s) n 0) in *.
    assert (Hlen : len (take (Z.to_nat k) s) = k).
    { unfold len in *. rewrite length_take. lia. }
    assert (Hres : (if (k =? 0) && (0 <? len s) then Returns []
                    else slice_to s k) = Returns (take (Z.to_nat k) s)).
    { destruct (Z.eqb_spec k 0) as [->|Hk0]; simpl.
      - destruct (Z.ltb_spec 0 (len s)); [done|lia].
      - apply slice_to_take. lia. }
    rewrite Hres. eexists. split; [done|]. split; [lia|]. split; [lia|].
    intros _. exists k. destruct (Z.ltb_spec 3 n); [lia|].
    rewrite app_nil_r. done.
  - destruct (cut_spec s (n - 3) ltac:(lia)) as (Hk & Hks & Hin & Hmax).
    set (k := lastNotBeyond (runeStarts s) (n - 3) 0) in *.
    assert (Hlen : len (take (Z.to_nat k) s) = k).
    { unfold len in *. rewrite length_take. lia. }
    rewrite slice_to_take by lia. cbn [obind].
    eexists. split; [done|]. split; [|split; [lia|]].
    + intros _. unfold len in *. rewrite length_app. simpl length. lia.
    + intros _. exists k. destruct (Z.ltb_spec 3 n); [|lia]. done.
Qed.

Example truncate_examples :
  let cafe := lit "caf" ++ [ascii_of_nat 195; ascii_of_nat 169] ++ lit " au lait" in
  truncate (lit "hello world") 8 = Returns (lit "hello...") /\
  truncate (lit "hello") 5 = Returns (lit "hello") /\
  truncate (lit "hello") 2 = Returns (lit "he") /\
  truncate cafe 7 = Returns (lit "caf...") /\
  truncate cafe 8 = Returns (lit "caf" ++ [ascii_of_nat 195; ascii_of_nat 169] ++ lit "...") /\
  truncate [ascii_of_nat 195; ascii_of_nat 169; ascii_of_nat 195; ascii_of_nat 169] 3
  = Returns [ascii_of_nat 195; ascii_of_nat 169] /\
  truncate (lit "hello") 0 = Returns [].
Proof. vm_compute. repeat split. Qed.

End PipelineStagesProps.

(** ** The recommendations of [ntm assign] *)

Module CliAssignProps.
Import GoStrings CliAssign.

(** *** parsePriorityString *)

Definition digit (d : Z) : ascii := ascii_of_nat (Z.to_nat (48 + d)).

Lemma parse_byte (p1 : ascii) :
  let n := (Z.of_nat (nat_of_ascii p1) - 48) mod 256 in
  n <= 4 -> p1 = digit n.
Proof.
  destruct p1 as [[] [] [] [] [] [] [] []]; vm_compute; intros H;
    try reflexivity; exfalso; apply H; reflexivity.
Qed.

(** X28.  [parsePriorityString] always answers a priority between 0 and 4:
    the digit for "P0" to "P4", and 2 for every other string, also where
    the second byte lies below the digits and the subtraction wraps
    around. *)
Theorem priority_in_range (p : str) :
  0 <= parsePriorityString p <= 4 /\
  (p = ["P"%char; digit (parsePriorityString p)] \/ parsePriorityString p = 2) /\
  (forall d, 0 <= d <= 4 -> parsePriorityString ["P"%char; digit d] = d).
Proof.
  split; [|split].
  - unfold parsePriorityString.
    destruct p as [|p0 [|p1 [|p2 rest]]]; try lia.
    destruct (Ascii.eqb p0 "P"); [|lia].
    pose proof (Z.mod_pos_bound (Z.of_nat (nat_of_ascii p1) - 48) 256 ltac:(lia)).
    destruct (Z.leb_spec ((Z.of_nat (nat_of_ascii p1) - 48) mod 256) 4); lia.
  - unfold parsePriorityString.
    destruct p as [|p0 [|p1 [|p2 rest]]]; try (now right).
    destruct (Ascii.eqb_spec p0 "P") as [->|_]; [|now right].
    destruct (Z.leb_spec ((Z.of_nat (nat_of_ascii p1) - 48) mod 256) 4) as [Hle|_];
      [|now right].
    left. f_equal. f_equal. now apply parse_byte.
  - intros d Hd.
    assert (Hcases : d = 0 \/ d = 1 \/ d = 2 \/ d = 3 \/ d = 4) by lia.
    destruct Hcases as [->|[->|[->|[->| ->]]]]; reflexivity.
Qed.

Example priority_examples :
  map parsePriorityString
      [lit "P0"; lit "P4"; lit "P5"; lit "P/"; lit "p1"; lit "P"; lit "P10"; lit ""]
  = [0; 4; 2; 2; 2; 2; 2; 2].
Proof. vm_compute. reflexivity. Qed.

(** *** generateRecommendations *)

Section WithLibrary.
Variable itoa : Z -> str.
Variable ToLower : str -> str.
Variable calculateMatchConfidence : str -> BeadPreview -> str -> float.
Variable buildReasoning : str -> BeadPreview -> str -> str.

Abbreviation matchBeads' :=
  (matchBeads itoa ToLower calculateMatchConfidence buildReasoning).
Abbreviation generateRecommendations' :=
  (generateRecommendations itoa ToLower calculateMatchConfidence buildReasoning).

(** Who gets what. *)
Definition pairing (recommendations : list AssignRecommend) : list (str * str) :=
  map (fun r => (Agent r, AssignBead r)) recommendations.

Lemma matchBeads_pairing beads strategy : forall idlePanes beadIdx recommendations,
  pairing (matchBeads' idlePanes beads strategy beadIdx recommendations)
  = pairing recommendations
      ++ zip (map (fun p => itoa (Index p)) idlePanes)
             (map BID (drop beadIdx beads)).
Proof.
  induction idlePanes as [|pane idlePanes IH]; intros beadIdx recommendations; simpl.
  { now rewrite app_nil_r. }
  destruct (beads !! beadIdx) as [bead|] eqn:Hb.
  - rewrite IH. unfold pairing at 1. rewrite map_app. simpl.
    rewrite (drop_S _ _ _ Hb). simpl. now rewrite <- app_assoc.
  - rewrite drop_ge by (now apply lookup_ge_None). simpl. now rewrite app_nil_r.
Qed.

Lemma idleSet_lookup (idleAgents : list str) (k : str) :
  default false (foldl (fun (idleSet : gmap str bool) a => <[a := true]> idleSet)
                       ∅ idleAgents !! k) = true
  <-> k ∈ idleAgents.
Proof.
  assert (Haux : forall (m : gmap str bool),
             default false (foldl (fun (idleSet : gmap str bool) a =>
                                     <[a := true]> idleSet) m idleAgents !! k) = true
             <-> k ∈ idleAgents \/ default false (m !! k) = true).
  { induction idleAgents as [|a idleAgents IH]; intros m; simpl.
    - split; [now right|]. intros [H|H]; [now apply elem_of_nil in H|done].
    - rewrite IH, elem_of_cons. destruct (decide (k = a)) as [->|Hne].
      + rewrite lookup_insert_eq. simpl. tauto.
      + rewrite lookup_insert_ne by done. tauto. }
  rewrite Haux, lookup_empty. simpl. split; [intros [H|H]; [done|discriminate]|auto].
Qed.

Lemma idlePanes_filter (idle : Pane -> bool) (panes acc : list Pane) :
  foldl (fun idlePanes p => if idle p then idlePanes ++ [p] else idlePanes) acc panes
  = acc ++ List.filter idle panes.
Proof.
  revert acc. induction panes as [|p panes IH]; intros acc; simpl.
  { now rewrite app_nil_r. }
  rewrite IH. destruct (idle p); [now rewrite <- app_assoc|done].
Qed.

(** X29.  [generateRecommendations] gives the k-th ready bead to the k-th
    pane whose index is listed as idle, in the order of the panes, until the
    panes or the beads run out; the strategy has no part in who gets
    what. *)
Theorem recommendations_pair_in_order
        (panes : list Pane) (beads : list BeadPreview)
        (strategy : str) (idleAgents : list str) :
  pairing (generateRecommendations' panes beads strategy idleAgents)
  = zip (map (fun p => itoa (Index p))
             (List.filter (fun p => bool_decide (itoa (Index p) ∈ idleAgents)) panes))
        (map BID beads).
Proof.
  unfold generateRecommendations.
  rewrite (idlePanes_filter
             (fun p => default false
                         (foldl (fun (idleSet : gmap str bool) a => <[a := true]> idleSet)
                                ∅ idleAgents !! itoa (Index p)))).
  rewrite matchBeads_pairing. simpl. do 2 f_equal.
  apply filter_ext. intros p.
  destruct (bool_decide_reflect (itoa (Index p) ∈ idleAgents)) as [Hin|Hout].
  - now apply idleSet_lookup.
  - destruct (default false _) eqn:Hd; [|done]. now apply idleSet_lookup in Hd.
Qed.

End WithLibrary.

End CliAssignProps.

(** ** The confidence of a recommendation *)

Module CliConfidenceProps.
Import GoStrings CliAssign CliConfidence.

Section WithToLower.
Variable ToLower : str -> str.

Abbreviation calculateMatchConfidence' := (calculateMatchConfidence ToLower).

(** The title contains one of the keywords of the entry. *)
Definition mentions (title : str) (entry : str * list str) : bool :=
  existsb (fun p => Contains title p) (snd entry).

Lemma infer_none title order : forall taskType,
  Forall (fun e => mentions title e = false) order ->
  foldl (fun taskType (entry : str * list str) =>
           if existsb (fun p => Contains title p) (snd entry) then fst entry
           else taskType) taskType order = taskType.
Proof.
  induction order as [|e order IH]; intros taskType Hall; simpl; [done|].
  apply Forall_cons in Hall as [He Hall]. unfold mentions in He. rewrite He.
  now apply IH.
Qed.

Lemma infer_one title t order : forall taskType,
  Forall (fun e => mentions title e = true -> fst e = t) order ->
  Exists (fun e => mentions title e = true) order ->
  foldl (fun taskType (entry : str * list str) =>
           if existsb (fun p => Contains title p) (snd entry) then fst entry
           else taskType) taskType order = t.
Proof.
  induction order as [|e order IH]; intros taskType Hall Hex; simpl.
  { now apply Exists_nil in Hex. }
  apply Forall_cons in Hall as [He Hall].
  destruct (decide (Exists (fun e => mentions title e = true) order)) as [Hrest|Hrest].
  { now apply IH. }
  apply Exists_cons in Hex as [Hhere|?]; [|done].
  specialize (He Hhere). unfold mentions in Hhere. rewrite Hhere, He.
  apply infer_none. apply Forall_forall. intros e' He'.
  destruct (mentions title e') eqn:Hm; [|done].
  exfalso. apply Hrest. apply Exists_exists. now exists e'.
Qed.

Lemma infer_order title (order1 order2 : list (str * list str)) :
  order1 ≡ₚ order2 ->
  (forall e1 e2, e1 ∈ order1 -> e2 ∈ order1 ->
                 mentions title e1 = true -> mentions title e2 = true ->
                 fst e1 = fst e2) ->
  inferTaskType order1 title = inferTaskType order2 title.
Proof.
  intros Hperm Hone. unfold inferTaskType.
  destruct (decide (Exists (fun e => mentions title e = true) order1)) as [Hex|Hno].
  - pose proof Hex as Hex'. apply Exists_exists in Hex' as (e0 & Hin0 & Hm0).
    rewrite (infer_one title (fst e0) order1); [|apply Forall_forall; intros; symmetry;
                                                   now apply Hone|done].
    rewrite (infer_one title (fst e0) order2); [done| |now rewrite <- Hperm].
    apply Forall_forall. intros e He Hm. symmetry. apply Hone; try done.
    now rewrite Hperm.
  - assert (Hall : Forall (fun e => mentions title e = false) order1).
    { apply Forall_forall. intros e He. destruct (mentions title e) eqn:Hm; [|done].
      exfalso. apply Hno. apply Exists_exists. now exists e. }
    rewrite (infer_none title order1) by done.
    rewrite (infer_none title order2); [done|now rewrite <- Hperm].
Qed.

(** X30.  The confidence does not depend on the order in which Go ranges
    over the map of task patterns, as long as the lower-cased title of the
    bead contains keywords of at most one task type. *)
Theorem confidence_order_independent
        (order : list (str * list str))
        (agentType : str) (bead : BeadPreview) (strategy : str) :
  order ≡ₚ taskPatterns ->
  (forall e1 e2, e1 ∈ taskPatterns -> e2 ∈ taskPatterns ->
                 mentions (ToLower (BTitle bead)) e1 = true ->
                 mentions (ToLower (BTitle bead)) e2 = true -> fst e1 = fst e2) ->
  calculateMatchConfidence' order agentType bead strategy
  = calculateMatchConfidence' taskPatterns agentType bead strategy.
Proof.
  intros Hperm Hone. unfold calculateMatchConfidence.
  rewrite (infer_order (ToLower (BTitle bead)) order taskPatterns Hperm); [done|].
  intros e1 e2 H1 H2. apply Hone; now rewrite <- Hperm.
Qed.

End WithToLower.

Definition fixBead : BeadPreview := mkBead (lit "bd-1") (lit "Fix login crash") (lit "P1").
Definition fixTestBead : BeadPreview :=
  mkBead (lit "bd-2") (lit "Fix the failing test") (lit "P1").

(** The map ranged over from its last entry to its first. *)
Definition reversed : list (str * list str) := rev taskPatterns.

Lemma confidence_order_independent_witness :
  calculateMatchConfidence AgentMailNames.ToLower reversed (lit "codex") fixBead
                           (lit "dependency")
  = calculateMatchConfidence AgentMailNames.ToLower taskPatterns (lit "codex") fixBead
                             (lit "dependency").
Proof.
  apply (confidence_order_independent AgentMailNames.ToLower reversed
           (lit "codex") fixBead (lit "dependency")).
  - unfold reversed. symmetry. apply Permutation_rev.
  - intros e1 e2 H1 H2.
    repeat (apply elem_of_cons in H1 as [->|H1]);
      [..|now apply elem_of_nil in H1];
      repeat (apply elem_of_cons in H2 as [->|H2]);
      try (now apply elem_of_nil in H2);
      vm_compute; intros; congruence.
Defined.

(** With keywords of two task types in the title the order decides: the
    same Codex agent and the same bead get 0.7 or 0.8. *)
Example confidence_depends_on_order :
  calculateMatchConfidence AgentMailNames.ToLower taskPatterns (lit "codex")
                           fixTestBead (lit "balanced") = 0.7%float /\
  calculateMatchConfidence AgentMailNames.ToLower reversed (lit "codex")
                           fixTestBead (lit "balanced") = 0.8%float.
Proof. vm_compute. split; reflexivity. Qed.

End CliConfidenceProps.
